(** * BakingApp: the recipe service and the instruction splitter

    A shallow embedding of [src/services/recipeApi.ts] ([expandUnits],
    [getWikimediaImage], [fetchRecipeDetails], [getRandomDessertRecipe]),
    of [getInstructionSteps], the download name and the checked steps of
    [src/components/RecipeDisplay.tsx], and of the handlers of [src/App.tsx].

    JavaScript strings are sequences of UTF-16 code units; the regular
    expressions of the source are kept as syntax and run by a backtracking
    matcher that follows the ECMAScript semantics of the constructs they
    use. *)

From Stdlib Require Import Ascii String.
From Stdlib Require Import List NArith Arith Bool Lia Sorted.
From Stdlib Require Import ZArith.
From Stdlib Require SpecFloat DecimalNat.
Import ListNotations.

Set Implicit Arguments.
Local Open Scope N_scope.

(* ================================================================= *)
(** ** Strings *)

Module JS.

(** A UTF-16 code unit. *)
Definition char := N.
Definition jsstring := list char.

Definition ch (a : ascii) : char := N_of_ascii a.

(** An ASCII literal of the source, as code units. *)
Definition js (s : string) : jsstring := map ch (list_ascii_of_string s).

Definition between (lo hi c : char) : bool := (lo <=? c) && (c <=? hi).

Definition is_digit (c : char) : bool := between 48 57 c.
Definition is_upper (c : char) : bool := between 65 90 c.
Definition is_lower (c : char) : bool := between 97 122 c.

(** [\w] without the [u] flag: the 63 basic word characters. *)
Definition is_word (c : char) : bool :=
  is_digit c || is_upper c || is_lower c || (c =? 95).

(** [\s], which is also the set [String.prototype.trim] strips:
    WhiteSpace and LineTerminator of ECMA-262. *)
Definition is_space (c : char) : bool :=
  between 9 13 c || (c =? 32) || (c =? 160) || (c =? 5760)
  || between 8192 8202 c || (c =? 8232) || (c =? 8233) || (c =? 8239)
  || (c =? 8287) || (c =? 12288) || (c =? 65279).

Fixpoint dropWhile (p : char -> bool) (s : jsstring) : jsstring :=
  match s with
  | c :: t => if p c then dropWhile p t else s
  | [] => []
  end.

Definition trimStart (s : jsstring) : jsstring := dropWhile is_space s.
Definition trimEnd (s : jsstring) : jsstring := rev (dropWhile is_space (rev s)).
Definition trim (s : jsstring) : jsstring := trimEnd (trimStart s).

Definition eqb (a b : jsstring) : bool :=
  if list_eq_dec N.eq_dec a b then true else false.

Fixpoint startsWith (p s : jsstring) : bool :=
  match p, s with
  | [], _ => true
  | a :: p', b :: s' => (a =? b) && startsWith p' s'
  | _ :: _, [] => false
  end.

Definition endsWith (p s : jsstring) : bool := startsWith (rev p) (rev s).

Fixpoint includes (p s : jsstring) : bool :=
  startsWith p s || match s with [] => false | _ :: t => includes p t end.

(** [s.replace(p, r)] with a string pattern: the first occurrence only. *)
Fixpoint replaceString (p r s : jsstring) : jsstring :=
  if startsWith p s then r ++ skipn (length p) s
  else match s with
       | [] => []
       | c :: t => c :: replaceString p r t
       end.

(** [s.split(sep)] with a one-unit string separator. *)
Fixpoint splitChar (sep : char) (cur s : jsstring) : list jsstring :=
  match s with
  | [] => [rev cur]
  | c :: t => if c =? sep then rev cur :: splitChar sep [] t
              else splitChar sep (c :: cur) t
  end.

(** The units whose lower-case mapping reaches Basic Latin: the capitals,
    U+0130 (to "i" and U+0307) and the Kelvin sign U+212A.  Every other unit
    maps outside [\w] and [\s]; such units are not tabulated here and are
    left as they are. *)
Definition lowerUnit (c : char) : jsstring :=
  if is_upper c then [c + 32]
  else if c =? 304 then [105; 775]
  else if c =? 8490 then [107]
  else [c].

Definition toLowerCase (s : jsstring) : jsstring := flat_map lowerUnit s.

End JS.
Export JS.

(* ================================================================= *)
(** ** Regular expressions *)

Module Regex.

(** Character classes of the source's patterns. *)
Inductive cclass :=
| Digit                      (* \d, [0-9] *)
| Space                      (* \s *)
| Word                       (* \w *)
| Upper                      (* [A-Z] *)
| One (c : char)             (* a single unit *)
| Neg (p : cclass)           (* [^...] *)
| Union (p q : cclass).

Fixpoint cmem (p : cclass) (c : char) : bool :=
  match p with
  | Digit => is_digit c
  | Space => is_space c
  | Word => is_word c
  | Upper => is_upper c
  | One d => c =? d
  | Neg q => negb (cmem q c)
  | Union q r => cmem q c || cmem r c
  end.

(** The fragment of ECMAScript patterns the sources use.  Quantifiers only
    ever apply to a class or to a single unit there, so [Rep] carries a
    class. *)
Inductive regex :=
| Eps
| Chr (c : char)
| Cls (p : cclass)
| Seq (a b : regex)
| Alt (a b : regex)
| Rep (greedy : bool) (min : nat) (p : cclass)   (* p*  p+  p*?  *)
| Opt (a : regex)                                (* a?  *)
| Grp (a : regex)                                (* ( a ), group 1 *)
| Ahead (a : regex)                              (* (?= a) *)
| NotAhead (a : regex)                           (* (?! a) *)
| WordB                                          (* \b *)
| Bos                                            (* ^ *)
| Eos.                                           (* $ *)

Fixpoint re (l : list regex) : regex :=
  match l with
  | [] => Eps
  | [a] => a
  | a :: t => Seq a (re t)
  end.

Definition lit (s : string) : regex := re (map Chr (js s)).

(** A position in the subject: the unit just before it, what is left to
    read, and the text of group 1. *)
Record cursor := Cursor {
  prev : option char;
  rest : jsstring;
  cap : option jsstring
}.

Definition start (pv : option char) (l : jsstring) : cursor :=
  {| prev := pv; rest := l; cap := None |}.

Definition consumed (from to : cursor) : jsstring :=
  firstn (length (rest from) - length (rest to)) (rest from).

(** Canonicalize of ECMA-262 without the [u] flag, on the units that can
    equal a Basic Latin pattern unit: a unit above 127 never folds to one
    below. *)
Definition canon (ci : bool) (c : char) : char :=
  if ci && is_lower c then c - 32 else c.

Definition same (ci : bool) (a b : char) : bool := canon ci a =? canon ci b.

Definition word_at (o : option char) : bool :=
  match o with Some c => is_word c | None => false end.

Section Matcher.

Variable ci : bool.   (* flag i *)

(** Leaving a quantified class after [min] more units are no longer owed. *)
Definition leave (k : cursor -> option cursor) (g : option jsstring)
    (min : nat) (pv : option char) (l : jsstring) : option cursor :=
  match min with
  | O => k {| prev := pv; rest := l; cap := g |}
  | S _ => None
  end.

Fixpoint rep_greedy (p : cclass) (k : cursor -> option cursor) (g : option jsstring)
    (min : nat) (pv : option char) (l : jsstring) : option cursor :=
  match l with
  | c :: t =>
      if cmem p c then
        match rep_greedy p k g (Nat.pred min) (Some c) t with
        | Some r => Some r
        | None => leave k g min pv l
        end
      else leave k g min pv l
  | [] => leave k g min pv l
  end.

Fixpoint rep_lazy (p : cclass) (k : cursor -> option cursor) (g : option jsstring)
    (min : nat) (pv : option char) (l : jsstring) : option cursor :=
  match leave k g min pv l with
  | Some r => Some r
  | None =>
      match l with
      | c :: t => if cmem p c then rep_lazy p k g (Nat.pred min) (Some c) t else None
      | [] => None
      end
  end.

(** The matcher, in continuation-passing style: [m r k s] tries [r] at [s]
    and hands every way of matching it, in priority order, to [k]. *)
Fixpoint m (r : regex) (k : cursor -> option cursor) (s : cursor) : option cursor :=
  match r with
  | Eps => k s
  | Chr c =>
      match rest s with
      | x :: t => if same ci c x then k {| prev := Some x; rest := t; cap := cap s |} else None
      | [] => None
      end
  | Cls p =>
      match rest s with
      | x :: t => if cmem p x then k {| prev := Some x; rest := t; cap := cap s |} else None
      | [] => None
      end
  | Seq a b => m a (fun s1 => m b k s1) s
  | Alt a b =>
      match m a k s with
      | Some x => Some x
      | None => m b k s
      end
  | Rep true n p => rep_greedy p k (cap s) n (prev s) (rest s)
  | Rep false n p => rep_lazy p k (cap s) n (prev s) (rest s)
  | Opt a =>
      match m a k s with
      | Some x => Some x
      | None => k s
      end
  | Grp a =>
      m a (fun s1 => k {| prev := prev s1; rest := rest s1; cap := Some (consumed s s1) |}) s
  | Ahead a =>
      match m a Some s with
      | Some _ => k s
      | None => None
      end
  | NotAhead a =>
      match m a Some s with
      | Some _ => None
      | None => k s
      end
  | WordB =>
      if xorb (word_at (prev s)) (word_at (hd_error (rest s))) then k s else None
  | Bos => match prev s with None => k s | Some _ => None end
  | Eos => match rest s with [] => k s | _ :: _ => None end
  end.

(** One attempt at a position: the matched text and group 1. *)
Definition attempt (r : regex) (pv : option char) (l : jsstring)
  : option (jsstring * option jsstring) :=
  match m r Some (start pv l) with
  | Some s' => Some (consumed (start pv l) s', cap s')
  | None => None
  end.

(** [s.replace(/r/g, f)]: after a match of [n] units the search resumes
    [n] units on; after an empty match the next unit is copied and the
    search resumes behind it. *)
Fixpoint replace_from (r : regex) (f : jsstring -> option jsstring -> jsstring)
    (skip : nat) (pv : option char) (l : jsstring) : jsstring :=
  match skip with
  | S n =>
      match l with
      | c :: t => replace_from r f n (Some c) t
      | [] => []
      end
  | O =>
      match attempt r pv l with
      | Some (mt, g) =>
          f mt g ++
          match l with
          | c :: t =>
              match length mt with
              | O => c :: replace_from r f 0 (Some c) t
              | S n => replace_from r f n (Some c) t
              end
          | [] => []
          end
      | None =>
          match l with
          | c :: t => c :: replace_from r f 0 (Some c) t
          | [] => []
          end
      end
  end.

Definition replaceAll (r : regex) (f : jsstring -> option jsstring -> jsstring)
    (s : jsstring) : jsstring :=
  replace_from r f 0 None s.

(** [s.replace(/r/, by)] without flag g: the leftmost match only. *)
Fixpoint replace_first_from (r : regex) (by_ : jsstring)
    (pv : option char) (l : jsstring) : jsstring :=
  match attempt r pv l with
  | Some (mt, _) => by_ ++ skipn (length mt) l
  | None =>
      match l with
      | c :: t => c :: replace_first_from r by_ (Some c) t
      | [] => []
      end
  end.

Definition replaceFirst (r : regex) (by_ : jsstring) (s : jsstring) : jsstring :=
  replace_first_from r by_ None s.

(** [s.match(/r/g)]: every match, leftmost first; [None] is [null]. *)
Fixpoint match_from (r : regex) (skip : nat) (pv : option char) (l : jsstring)
  : list jsstring :=
  match skip with
  | S n =>
      match l with
      | c :: t => match_from r n (Some c) t
      | [] => []
      end
  | O =>
      match attempt r pv l with
      | Some (mt, _) =>
          mt ::
          match l with
          | c :: t => match_from r (Nat.pred (length mt)) (Some c) t
          | [] => []
          end
      | None =>
          match l with
          | c :: t => match_from r 0 (Some c) t
          | [] => []
          end
      end
  end.

Definition matchAll (r : regex) (s : jsstring) : option (list jsstring) :=
  match match_from r 0 None s with
  | [] => None
  | l => Some l
  end.

(** [r.test(s)] and [s.match(/r/)] used as a condition. *)
Fixpoint test_from (r : regex) (pv : option char) (l : jsstring) : bool :=
  match attempt r pv l with
  | Some _ => true
  | None =>
      match l with
      | c :: t => test_from r (Some c) t
      | [] => false
      end
  end.

Definition test (r : regex) (s : jsstring) : bool := test_from r None s.

(** [s.split(/r/)] (no capture is spliced in: the separators of the source
    have no group).  [cur] holds, reversed, the piece being read; it is
    empty exactly when the search position is the start of the piece, where
    an empty match is passed over. *)
Fixpoint split_from (r : regex) (skip : nat) (pv : option char) (l cur : jsstring)
  : list jsstring :=
  match l with
  | [] => [rev cur]
  | c :: t =>
      match skip with
      | S n => split_from r n (Some c) t cur
      | O =>
          match attempt r pv l with
          | Some (mt, _) =>
              match length mt, cur with
              | O, [] => split_from r 0 (Some c) t [c]
              | O, _ :: _ => rev cur :: split_from r 0 (Some c) t [c]
              | S n, _ => rev cur :: split_from r n (Some c) t []
              end
          | None => split_from r 0 (Some c) t (c :: cur)
          end
      end
  end.

Definition split (r : regex) (s : jsstring) : list jsstring :=
  match s with
  | [] => match attempt r None [] with Some _ => [] | None => [[]] end
  | _ => split_from r 0 None s []
  end.

(** *** What a pattern can read

    [reads r s s'] holds when [r] can take the cursor from [s] to [s'],
    whatever the priority among the ways to do so.  The matcher finds a
    match exactly when one exists ([m_sound], [m_complete] below). *)

Definition prev_after (cs : jsstring) (pv : option char) : option char :=
  fold_left (fun _ c => Some c) cs pv.

Definition all_in (p : cclass) (cs : jsstring) : Prop :=
  Forall (fun c => cmem p c = true) cs.

Fixpoint reads (r : regex) (s s' : cursor) : Prop :=
  match r with
  | Eps => s' = s
  | Chr c =>
      exists x, same ci c x = true /\ rest s = x :: rest s'
                /\ prev s' = Some x /\ cap s' = cap s
  | Cls p =>
      exists x, cmem p x = true /\ rest s = x :: rest s'
                /\ prev s' = Some x /\ cap s' = cap s
  | Seq a b => exists s1, reads a s s1 /\ reads b s1 s'
  | Alt a b => reads a s s' \/ reads b s s'
  | Rep _ n p =>
      exists cs, all_in p cs /\ (n <= length cs)%nat /\ rest s = cs ++ rest s'
                 /\ prev s' = prev_after cs (prev s) /\ cap s' = cap s
  | Opt a => reads a s s' \/ s' = s
  | Grp a =>
      exists s1, reads a s s1
                 /\ s' = {| prev := prev s1; rest := rest s1; cap := Some (consumed s s1) |}
  | Ahead a => s' = s /\ exists s1, reads a s s1
  | NotAhead a => s' = s /\ forall s1, ~ reads a s s1
  | WordB => s' = s /\ xorb (word_at (prev s)) (word_at (hd_error (rest s))) = true
  | Bos => s' = s /\ prev s = None
  | Eos => s' = s /\ rest s = []
  end.

End Matcher.

(** *** Pieces and separators

    [weave pieces seps] puts the separators back between the pieces;
    [breaks_ok Q pieces seps] says [Q sep post] of every separator and the
    text that follows it. *)
Fixpoint weave (pieces seps : list jsstring) : jsstring :=
  match pieces, seps with
  | p :: ps, s :: ss => p ++ s ++ weave ps ss
  | p :: _, [] => p
  | [], _ => []
  end.

Fixpoint breaks_ok (Q : jsstring -> jsstring -> Prop) (pieces seps : list jsstring) : Prop :=
  match pieces, seps with
  | _ :: ps, s :: ss => Q s (weave ps ss) /\ breaks_ok Q ps ss
  | _, _ => True
  end.

(** *** Static readings of a pattern

    [nullable r]: [r] may read nothing.  [first ci r c]: a non-empty
    reading of [r] may begin with [c].  [must r c]: every reading of [r]
    contains the unit [c] (for patterns matched case-sensitively).  All
    three err on the safe side. *)
Fixpoint nullable (r : regex) : bool :=
  match r with
  | Eps => true
  | Chr _ | Cls _ => false
  | Seq a b => nullable a && nullable b
  | Alt a b => nullable a || nullable b
  | Rep _ n _ => match n with O => true | S _ => false end
  | Opt _ => true
  | Grp a => nullable a
  | Ahead _ | NotAhead _ | WordB | Bos | Eos => true
  end.

Fixpoint first (ci : bool) (r : regex) (c : char) : bool :=
  match r with
  | Eps => false
  | Chr a => same ci a c
  | Cls p => cmem p c
  | Seq a b => first ci a c || (nullable a && first ci b c)
  | Alt a b => first ci a c || first ci b c
  | Rep _ _ p => cmem p c
  | Opt a => first ci a c
  | Grp a => first ci a c
  | Ahead _ | NotAhead _ | WordB | Bos | Eos => false
  end.

(** [groupless r]: [r] has no capturing group, so it hands the text of
    group 1 on as it found it. *)
Fixpoint groupless (r : regex) : bool :=
  match r with
  | Grp _ => false
  | Seq a b | Alt a b => groupless a && groupless b
  | Opt a | Ahead a | NotAhead a => groupless a
  | _ => true
  end.

(** [stops p l]: [l] is empty or begins with a unit outside [p]. *)
Definition stops (p : char -> bool) (l : jsstring) : Prop :=
  match l with
  | [] => True
  | x :: _ => p x = false
  end.

Definition recap (g : option jsstring) (s : cursor) : cursor :=
  {| prev := prev s; rest := rest s; cap := g |}.

Fixpoint must (r : regex) (c : char) : bool :=
  match r with
  | Chr a => a =? c
  | Seq a b => must a c || must b c
  | Alt a b => must a c && must b c
  | Grp a => must a c
  | _ => false
  end.

End Regex.
Export Regex.

(* ================================================================= *)
(** ** services/recipeApi.ts: expandUnits *)

Notation "x |> f" := (f x) (at level 45, left associativity, only parsing).

Module Units.

(** U+00BD, U+2153, U+2154, U+00BC, U+00BE, U+215B. *)
Definition ONE_HALF : char := 189.
Definition ONE_THIRD : char := 8531.
Definition TWO_THIRDS : char := 8532.
Definition ONE_QUARTER : char := 188.
Definition THREE_QUARTERS : char := 190.
Definition ONE_EIGHTH : char := 8539.

(** A replacement given as a string. *)
Definition by_ (s : jsstring) : jsstring -> option jsstring -> jsstring :=
  fun _ _ => s.

(** [parseInt(num)] on the text of [(\d+)], as the integer it denotes.  The
    source only compares the result with 1, and rounding a decimal integer
    to a double never moves another value onto 1. *)
Definition digit_val (c : char) : N := c - 48.

Definition parseInt (num : jsstring) : N :=
  fold_left (fun acc c => 10 * acc + digit_val c) num 0.

(** [(match, num) => parseInt(num) === 1 ? match : match + 's'] *)
Definition plural (mt : jsstring) (num : option jsstring) : jsstring :=
  match num with
  | Some n => if parseInt n =? 1 then mt else mt ++ js "s"
  | None => mt ++ js "s"
  end.

(** [/\bX\b\.?/] *)
Definition abbr (x : string) : regex := re [WordB; lit x; WordB; Opt (Chr (ch "."))].

(** [/\bX\b(?!\w)/] *)
Definition abbr_metric (x : string) : regex := re [WordB; lit x; WordB; NotAhead (Cls Word)].

(** [/(\d+)\s*X(?!s)/] *)
Definition counted (x : string) : regex :=
  re [Grp (Rep true 1 Digit); Rep true 0 Space; lit x; NotAhead (Chr (ch "s"))].

Definition fractions (s : jsstring) : jsstring :=
  s |> replaceAll false (lit "1/2") (by_ [ONE_HALF])
    |> replaceAll false (lit "1/3") (by_ [ONE_THIRD])
    |> replaceAll false (lit "2/3") (by_ [TWO_THIRDS])
    |> replaceAll false (lit "1/4") (by_ [ONE_QUARTER])
    |> replaceAll false (lit "3/4") (by_ [THREE_QUARTERS])
    |> replaceAll false (lit "1/8") (by_ [ONE_EIGHTH]).

Definition abbreviations (s : jsstring) : jsstring :=
  s |> replaceAll true (abbr "tsp") (by_ (js "teaspoon"))
    |> replaceAll true (abbr "tbsp") (by_ (js "tablespoon"))
    |> replaceAll true (abbr "tbl") (by_ (js "tablespoon"))
    |> replaceAll false (abbr "T") (by_ (js "tablespoon"))
    |> replaceAll false (abbr "t") (by_ (js "teaspoon"))
    |> replaceAll true (abbr "oz") (by_ (js "ounce"))
    |> replaceAll true (abbr "lb") (by_ (js "pound"))
    |> replaceAll true (abbr "lbs") (by_ (js "pounds"))
    |> replaceAll true (abbr "pt") (by_ (js "pint"))
    |> replaceAll true (abbr "qt") (by_ (js "quart"))
    |> replaceAll true (abbr "gal") (by_ (js "gallon"))
    |> replaceAll true
         (re [WordB; lit "fl"; Opt (Chr (ch ".")); Rep true 0 Space; lit "oz"; WordB;
              Opt (Chr (ch "."))])
         (by_ (js "fluid ounce"))
    |> replaceAll true (abbr_metric "g") (by_ (js "gram"))
    |> replaceAll true (abbr_metric "kg") (by_ (js "kilogram"))
    |> replaceAll true (abbr_metric "ml") (by_ (js "milliliter"))
    |> replaceAll true (abbr_metric "l") (by_ (js "liter")).

Definition plurals (s : jsstring) : jsstring :=
  s |> replaceAll true (counted "teaspoon") plural
    |> replaceAll true (counted "tablespoon") plural
    |> replaceAll true (counted "ounce") plural.

Definition expandUnits (measure : jsstring) : jsstring :=
  match measure with
  | [] => measure                                  (* if (!measure) return measure *)
  | _ => measure |> fractions |> abbreviations |> plurals |> trim
  end.

End Units.
Export Units.

(** *** Measures that begin with a number

    What [expandUnits] does to a measure [ds ++ tail] whose front [ds] is a
    run of digits is worked out on [tail] alone: the run is copied, the
    passes go over [tail] with a digit before it, and only the plural passes
    look at the number, to compare it with 1.  The functions below compute
    the outcome on [tail]; the [_ok] functions check the side conditions
    under which they agree with [expandUnits] ([expandUnits_number]). *)
Module Measures.

Definition digit_units : list char := [48; 49; 50; 51; 52; 53; 54; 55; 56; 57].

(** A pass [.replace(/r/g, w)]: flag i, pattern, replacement. *)
Definition pass := (bool * regex * jsstring)%type.

Definition run_pass (s : jsstring) (p : pass) : jsstring :=
  let '(ci, r, w) := p in replaceAll ci r (by_ w) s.

Definition abbreviation_passes : list pass :=
  [ (true, abbr "tsp", js "teaspoon");
    (true, abbr "tbsp", js "tablespoon");
    (true, abbr "tbl", js "tablespoon");
    (false, abbr "T", js "tablespoon");
    (false, abbr "t", js "teaspoon");
    (true, abbr "oz", js "ounce");
    (true, abbr "lb", js "pound");
    (true, abbr "lbs", js "pounds");
    (true, abbr "pt", js "pint");
    (true, abbr "qt", js "quart");
    (true, abbr "gal", js "gallon");
    (true,
     re [WordB; lit "fl"; Opt (Chr (ch ".")); Rep true 0 Space; lit "oz"; WordB;
         Opt (Chr (ch "."))],
     js "fluid ounce");
    (true, abbr_metric "g", js "gram");
    (true, abbr_metric "kg", js "kilogram");
    (true, abbr_metric "ml", js "milliliter");
    (true, abbr_metric "l", js "liter") ].

(** The pass over [tail], the unit before it being the digit [d]. *)
Definition pass_tail (d : char) (tail : jsstring) (p : pass) : jsstring :=
  let '(ci, r, w) := p in replace_from ci r (by_ w) 0 (Some d) tail.

Definition pass_ok (p : pass) (tail : jsstring) : bool :=
  let '(ci, r, w) := p in
  negb (nullable r)
  && forallb (fun d => negb (first ci r d)
                       && eqb (pass_tail d tail p) (pass_tail 48 tail p))
             digit_units.

Fixpoint passes_ok (ps : list pass) (tail : jsstring) : bool :=
  match ps with
  | [] => true
  | p :: ps' => pass_ok p tail && passes_ok ps' (pass_tail 48 tail p)
  end.

Definition passes_tail (ps : list pass) (tail : jsstring) : jsstring :=
  fold_left (pass_tail 48) ps tail.

(** What [counted x] asks for behind the number: [\s*X(?!s)]. *)
Definition counted_after (x : string) : regex :=
  re [Rep true 0 Space; lit x; NotAhead (Chr (ch "s"))].

(** The plural pass for [x] over [tail], behind a number that is 1 or is
    not ([one]) and ends in the digit [d]. *)
Definition counted_tail (x : string) (one : bool) (d : char) (tail : jsstring) : jsstring :=
  match m true (counted_after x) Some (start (Some d) tail) with
  | Some s0 =>
      let a := consumed (start (Some d) tail) s0 in
      a ++ (if one then [] else js "s")
        ++ replace_from true (counted x) plural 0 (prev_after a (Some d)) (rest s0)
  | None => replace_from true (counted x) plural 0 (Some d) tail
  end.

Definition begins_without_digit (tail : jsstring) : bool :=
  match tail with
  | [] => true
  | c :: _ => negb (is_digit c)
  end.

Definition counted_ok (x : string) (one : bool) (tail : jsstring) : bool :=
  negb (nullable (counted_after x)) && groupless (counted_after x)
  && begins_without_digit tail
  && forallb (fun d => negb (first true (counted_after x) d)
                       && eqb (counted_tail x one d tail) (counted_tail x one 48 tail))
             digit_units.

Definition abbreviations_tail (tail : jsstring) : jsstring :=
  passes_tail abbreviation_passes tail.

Definition plurals_tail (one : bool) (tail : jsstring) : jsstring :=
  tail |> counted_tail "teaspoon" one 48
       |> counted_tail "tablespoon" one 48
       |> counted_tail "ounce" one 48.

Definition measure_tail (one : bool) (tail : jsstring) : jsstring :=
  tail |> abbreviations_tail |> plurals_tail one |> trimEnd.

Definition measure_ok (one : bool) (tail : jsstring) : bool :=
  negb (existsb (N.eqb 47) tail)
  && passes_ok abbreviation_passes tail
  && (let t1 := abbreviations_tail tail in
      let t2 := counted_tail "teaspoon" one 48 t1 in
      let t3 := counted_tail "tablespoon" one 48 t2 in
      counted_ok "teaspoon" one t1 && counted_ok "tablespoon" one t2
      && counted_ok "ounce" one t3).

(** *** Representative measures *)

(** What may follow the number: every abbreviation of the table, alone and
    in a longer measure, and the words they expand to. *)
Definition representative_tails : list jsstring :=
  map js
    [ " tsp"; " tbsp"; " tbl"; " T"; " t"; " oz"; " lb"; " lbs"; " pt"; " qt";
      " gal"; " fl oz"; " g"; " kg"; " ml"; " l";
      " tsp."; " Tbsp."; " oz."; " TSP"; " tsp sugar"; " tbsp. butter, softened";
      " oz dark chocolate"; " lbs apples"; " g flour"; " ml milk"; " cups flour";
      " large eggs"; ""; " "; "g"; "ml"; ".5 tsp";
      " teaspoon"; " teaspoons"; " tablespoon"; " tablespoons"; " ounce"; " ounces";
      " pound"; " pounds"; " pint"; " quart"; " gallon"; " gram"; " kilogram";
      " milliliter"; " liter" ]%string.

(** Measures that do not begin with a plain number. *)
Definition representative_measures : list jsstring :=
  [ [];
    js "1/2 cup"; js "1/2 tsp"; js "1 1/2 tsp"; js "1/4 tsp"; js "3/4 oz";
    js "2/3 tbsp"; js "1/3 cup"; js "1/8 t"; js "pinch"; js "to taste"; js "Dash";
    js " 2 tsp "; js "a 2 oz bar"; js "Juice of 1"; js "tsp"; js "T"; js "fl oz";
    js "1 fl. oz."; js "2-3 tbsp"; js "1 tbsp + 2 tsp"; js "400g"; js "1 x 400g tin";
    [ONE_HALF] ++ js " teaspoon"; js "1 " ++ [ONE_HALF] ++ js " teaspoon" ].

(** Expanded measures that the plural passes must leave alone. *)
Definition expanded_tails : list jsstring :=
  map js
    [ " teaspoons"; " tablespoons"; " ounces"; " pound"; " pounds"; " pint";
      " quart"; " gallon"; " gram"; " kilogram"; " milliliter"; " liter";
      " teaspoons sugar"; " fl ounce" ]%string.

Definition idempotent_tail (tail : jsstring) : bool :=
  forallb
    (fun one =>
       measure_ok one tail && measure_ok one (measure_tail one tail)
       && eqb (measure_tail one (measure_tail one tail)) (measure_tail one tail))
    [true; false].

Definition fixed_tail (tail : jsstring) : bool :=
  forallb (fun one => measure_ok one tail && eqb (measure_tail one tail) tail)
          [true; false].

Definition slash_free (s : jsstring) : bool := negb (existsb (N.eqb 47) s).

(** The fractions of the source with their glyphs. *)
Definition fraction_table : list (jsstring * char) :=
  [ (js "1/2", ONE_HALF); (js "1/3", ONE_THIRD); (js "2/3", TWO_THIRDS);
    (js "1/4", ONE_QUARTER); (js "3/4", THREE_QUARTERS); (js "1/8", ONE_EIGHTH) ].

End Measures.
Export Measures.

(* ================================================================= *)
(** ** components/RecipeDisplay.tsx: getInstructionSteps *)

Module Steps.

(** [/\d+\.\s*[^0-9]*?(?=\d+\.|$)/g] *)
Definition numbered : regex :=
  re [Rep true 1 Digit; Chr (ch "."); Rep true 0 Space; Rep false 0 (Neg Digit);
      Ahead (Alt (re [Rep true 1 Digit; Chr (ch ".")]) Eos)].

(** [/^\d+\.\s*/] *)
Definition marker : regex :=
  re [Bos; Rep true 1 Digit; Chr (ch "."); Rep true 0 Space].

(** [/\.\s+(?=[A-Z])|\n\n+/] *)
Definition sentence_break : regex :=
  Alt (re [Chr (ch "."); Rep true 1 Space; Ahead (Cls Upper)])
      (re [Chr 10; Rep true 1 (One 10)]).

(** The fall-back of [getInstructionSteps]: sentences, longer chunks only. *)
Definition bySentences (instructions : jsstring) : list jsstring :=
  instructions
    |> split false sentence_break
    |> map (fun step => trim step)
    |> filter (fun step => (20 <? length step)%nat)
    |> map (fun step => if endsWith (js ".") step then step else step ++ js ".").

Definition getInstructionSteps (instructions : jsstring) : list jsstring :=
  let numberedSteps := matchAll false numbered instructions in
  match numberedSteps with
  | Some steps =>
      if (1 <? length steps)%nat then
        steps
          |> map (fun step => trim (replaceFirst false marker [] step))
          |> filter (fun step => (0 <? length step)%nat)
      else bySentences instructions
  | None => bySentences instructions
  end.

(** *** Vocabulary for statements about numbered instructions *)

Definition digits_only (s : jsstring) : bool := forallb is_digit s.
Definition digit_free (s : jsstring) : bool := forallb (fun c => negb (is_digit c)) s.

(** A numbered segment: its number, then the text behind the period. *)
Definition segment := (jsstring * jsstring)%type.

Definition numbered_segment (seg : segment) : bool :=
  negb (eqb (fst seg) []) && digits_only (fst seg) && digit_free (snd seg).

Definition render (segs : list segment) : jsstring :=
  flat_map (fun seg => fst seg ++ js "." ++ snd seg) segs.

(** What is known of a match of [numbered] and of the text behind it. *)
Definition numbered_match (mt post : jsstring) : Prop :=
  exists n t,
    mt = n ++ js "." ++ t /\ n <> [] /\ digits_only n = true /\ digit_free t = true
    /\ (post = [] \/ exists d rest, post = d :: rest /\ is_digit d = true)
    /\ trim (replaceFirst false marker [] mt) = trim t.

(** *** Vocabulary for statements about the fall-back *)

(** The matches of the numbered strategy; none when [match] gives null. *)
Definition numberedMatches (instructions : jsstring) : list jsstring :=
  match matchAll false numbered instructions with
  | Some steps => steps
  | None => []
  end.

(** The candidates of the fall-back: the pieces between breaks, trimmed. *)
Definition candidates (instructions : jsstring) : list jsstring :=
  map trim (split false sentence_break instructions).

(** A break of the fall-back, with the text behind it: a period, white
    space and then an upper-case letter; or two or more line feeds. *)
Definition is_break (sep post : jsstring) : Prop :=
  (exists ws u rest,
     sep = 46 :: ws /\ ws <> [] /\ Forall (fun c => is_space c = true) ws
     /\ post = u :: rest /\ is_upper u = true)
  \/ (exists nl, sep = 10 :: nl /\ nl <> [] /\ Forall (fun c => c = 10) nl).

Definition with_period (step : jsstring) : jsstring :=
  if endsWith (js ".") step then step else step ++ js ".".

End Steps.
Export Steps.

(* ================================================================= *)
(** ** The asynchronous code: network, random source, exceptions *)

Module Async.

(** What a JavaScript computation may throw.  The application only ever
    constructs [Error]; the others come from the platform ([fetch] and
    [response.json()] rejecting, [encodeURIComponent]). *)
Inductive exn :=
| Error (message : jsstring)
| TypeError
| SyntaxError
| URIError.

(** A value of [Math.random()]: a binary64 number in the interval from 0
    (included) to 1 (excluded), written [numer / 2^expo] with a significand
    of at most 53 bits and an exponent no lower than that of the least
    subnormal, [2^-1074]. *)
Record unit_interval := UnitInterval {
  numer : N;
  expo : N;
  significand : numer < 2 ^ 53;
  in_range : expo < 1075;
  below_one : numer < 2 ^ expo
}.

Definition denom (r : unit_interval) : N := 2 ^ expo r.

(** Rounding to 53 significant bits, to nearest, ties to even, as a
    binary64 operation rounds its exact result: [round53 q] clears the [s]
    bits that [q] has beyond 53, going up to the next multiple of [2^s] when
    the bits cleared are more than half of it, or just half and the kept
    part is odd. *)
Definition round53 (q : N) : N :=
  let s := N.size q - 53 in
  let hi := q / 2 ^ s in
  let lo := q mod 2 ^ s in
  let half := 2 ^ (s - 1) in
  if s =? 0 then q
  else if lo <? half then hi * 2 ^ s
  else if half <? lo then (hi + 1) * 2 ^ s
  else if N.even hi then hi * 2 ^ s
  else (hi + 1) * 2 ^ s.

(** [Math.floor(r * n)] for an array length [n] (below [2^32], which a
    binary64 number holds exactly): the product [numer * n / 2^expo] is
    rounded to binary64 and then floored.  The product of a value below 1
    and [n] neither overflows nor, being a multiple of [2^-1074], falls
    between two subnormals. *)
Definition floor_mul (r : unit_interval) (n : nat) : nat :=
  N.to_nat (round53 (numer r * N.of_nat n) / denom r).

(** The same index from the Standard Library's specification of IEEE 754
    arithmetic, to check [round53] against: both factors as binary64
    numbers, their binary64 product, and its floor. *)
Definition binary64 (m : N) (e : Z) : SpecFloat.spec_float :=
  SpecFloat.binary_normalize 53 1024 (Z.of_N m) e false.

Definition floor64 (x : SpecFloat.spec_float) : option N :=
  match x with
  | SpecFloat.S754_zero _ => Some 0
  | SpecFloat.S754_finite false m e =>
      Some (Z.to_N (if (0 <=? e)%Z then (Z.pos m * 2 ^ e)%Z
                    else (Z.pos m / 2 ^ (- e))%Z))
  | _ => None
  end.

Definition floor_mul64 (r : unit_interval) (n : nat) : option nat :=
  option_map N.to_nat
    (floor64 (SpecFloat.SFmul 53 1024
                (binary64 (numer r) (- Z.of_N (expo r)))
                (binary64 (N.of_nat n) 0))).

(** A [Response]: [json] is [None] when [response.json()] rejects. *)
Record response (B : Type) := Response {
  ok : bool;
  statusText : jsstring;
  json : option B
}.

(** What [await fetch(url)] gives: [None] when the promise rejects. *)
Definition fetched (B : Type) := option (response B).

Inductive request :=
| GetDesserts                              (* DESSERT_API_URL *)
| GetMeal (mealId : jsstring)              (* MEAL_DETAIL_URL + mealId *)
| SearchCommons (srsearch : jsstring)      (* commons ... list=search&srsearch=... *)
| GetImageInfo (fileName : jsstring).      (* commons ... titles=File:...&prop=imageinfo *)

Record state := State {
  log : list request;     (* the requests sent, latest first *)
  draws : nat             (* how many times Math.random was called *)
}.

Inductive result (A : Type) :=
| Ok (a : A)
| Throw (e : exn).
Arguments Throw {A} e.

Definition M (A : Type) := state -> result A * state.

Definition ret {A} (a : A) : M A := fun st => (Ok a, st).

Definition bind {A B} (c : M A) (f : A -> M B) : M B :=
  fun st => match c st with
            | (Ok a, st') => f a st'
            | (Throw e, st') => (Throw e, st')
            end.

Definition throw {A} (e : exn) : M A := fun st => (Throw e, st).

(** [try { c } catch (error) { h error }] *)
Definition try_catch {A} (c : M A) (h : exn -> M A) : M A :=
  fun st => match c st with
            | (Ok a, st') => (Ok a, st')
            | (Throw e, st') => h e st'
            end.

Declare Scope async_scope.
Delimit Scope async_scope with async.
Notation "x <- c ;; k" := (bind c (fun x => k))
  (at level 61, c at next level, right associativity) : async_scope.
Notation "c ;;; k" := (bind c (fun _ => k))
  (at level 61, right associativity) : async_scope.

(** [await fetch(...)]: the answer may depend on everything sent before. *)
Definition fetch {B} (net : nat -> fetched B) (rq : request) : M (response B) :=
  fun st =>
    let st' := {| log := rq :: log st; draws := draws st |} in
    match net (length (log st)) with
    | Some r => (Ok r, st')
    | None => (Throw TypeError, st')
    end.

(** [await response.json()] *)
Definition parse {B} (r : response B) : M B :=
  match json r with
  | Some b => ret b
  | None => throw SyntaxError
  end.

(** [encodeURIComponent] throws a URIError on a lone surrogate. *)
Definition is_high (c : char) : bool := between 55296 56319 c.
Definition is_low (c : char) : bool := between 56320 57343 c.

Fixpoint well_formed (s : jsstring) : bool :=
  match s with
  | [] => true
  | c :: t =>
      if is_high c then
        match t with
        | d :: t' => is_low d && well_formed t'
        | [] => false
        end
      else negb (is_low c) && well_formed t
  end.

Definition encodeURIComponent (s : jsstring) : M unit :=
  if well_formed s then ret tt else throw URIError.

End Async.
Export Async.

(* ================================================================= *)
(** ** types/recipe.ts *)

(** Modelled from the spec: the declarations of [types/recipe] are not
    among the sources; [Ingredient] and [Recipe] follow section 3 of the
    specification, the response records follow the fields the service
    reads. *)
Module Ingredient.
Record t := Make { name : jsstring; measure : jsstring }.
End Ingredient.

Module Recipe.
Record t := Make {
  id : jsstring;
  name : jsstring;
  image : jsstring;
  instructions : jsstring;
  ingredients : list Ingredient.t;
  category : jsstring;
  area : option jsstring;
  youtubeUrl : option jsstring;
  tags : option (list jsstring)
}.
End Recipe.

Module Meal.
Record t := Make { idMeal : jsstring; strMeal : jsstring; strMealThumb : jsstring }.
End Meal.

Module MealResponse.
(** [meals] is [None] when the field is null. *)
Record t := Make { meals : option (list Meal.t) }.
End MealResponse.

Module MealDetail.
(** [strIngredient i] and [strMeasure i] are the fields [strIngredient<i>]
    and [strMeasure<i>]; [None] is null or a missing field. *)
Record t := Make {
  idMeal : jsstring;
  strMeal : jsstring;
  strMealThumb : option jsstring;
  strInstructions : jsstring;
  strCategory : jsstring;
  strArea : option jsstring;
  strYoutube : option jsstring;
  strTags : option jsstring;
  strIngredient : nat -> option jsstring;
  strMeasure : nat -> option jsstring
}.
End MealDetail.

Module MealDetailResponse.
(** [meals] is [None] when the field is null. *)
Record t := Make { meals : option (list MealDetail.t) }.
End MealDetailResponse.

(** The answers of the Wikimedia Commons API, as far as the service reads
    them. *)
Module Commons.
Record SearchResult := { title : jsstring }.
Record SearchQuery := { search : option (list SearchResult) }.
Record SearchData := { search_query : option SearchQuery }.          (* data.query *)
Record ImageInfo := { thumburl : option jsstring; url : option jsstring }.
Record Page := { imageinfo : option (list ImageInfo) }.
Record InfoQuery := { pages : option (list (jsstring * Page)) }.     (* keys in order *)
Record InfoData := { info_query : option InfoQuery }.               (* imageData.query *)
End Commons.

(* ================================================================= *)
(** ** services/recipeApi.ts *)

Module Service.

Import Commons.
Local Open Scope async_scope.

(** The outside world of one run. *)
Record world := World {
  dessert_api : nat -> fetched MealResponse.t;
  meal_api : jsstring -> nat -> fetched MealDetailResponse.t;
  commons_search : jsstring -> nat -> fetched SearchData;
  commons_imageinfo : jsstring -> nat -> fetched InfoData;
  random : nat -> unit_interval
}.

Section Service.

Variable w : world.

Definition Math_random : M unit_interval :=
  fun st => (Ok (random w (draws st)), {| log := log st; draws := S (draws st) |}).

(** [new Error(`Failed to fetch dessert recipes: ${response.statusText}`)] *)
Definition dessertsFailed (st : jsstring) : exn :=
  Error (js "Failed to fetch dessert recipes: " ++ st).

(** [new Error(`Failed to fetch recipe details: ${response.statusText}`)] *)
Definition detailsFailed (st : jsstring) : exn :=
  Error (js "Failed to fetch recipe details: " ++ st).

Definition recipeNotFound : exn := Error (js "Recipe not found").
Definition noDesserts : exn := Error (js "No dessert recipes found").

Definition fetchDessertRecipes : M MealResponse.t :=
  response <- fetch (dessert_api w) GetDesserts ;;
  if negb (ok response) then throw (dessertsFailed (statusText response))
  else parse response.

Definition fallbackImages : list jsstring :=
  [ js "https://upload.wikimedia.org/wikipedia/commons/thumb/6/6d/Good_Food_Display_-_NCI_Visuals_Online.jpg/800px-Good_Food_Display_-_NCI_Visuals_Online.jpg";
    js "https://upload.wikimedia.org/wikipedia/commons/thumb/5/5b/Chocolate_cake.jpg/800px-Chocolate_cake.jpg";
    js "https://upload.wikimedia.org/wikipedia/commons/thumb/d/d3/Desserts.jpg/800px-Desserts.jpg";
    js "https://upload.wikimedia.org/wikipedia/commons/thumb/f/f1/2ChocolateCake.jpg/800px-2ChocolateCake.jpg" ].

(** [/\.(svg|pdf|txt)$/i] *)
Definition not_a_photo : regex :=
  re [Chr (ch "."); Grp (Alt (lit "svg") (Alt (lit "pdf") (lit "txt"))); Eos].

(** [a || b] on optional strings: the empty string is falsy. *)
Definition or_else (a b : option jsstring) : option jsstring :=
  match a with
  | Some (_ :: _) => a
  | _ => b
  end.

(** The body of [for (const result of data.query.search)]; [Some url] is
    [return url]. *)
Fixpoint tryResults (results : list SearchResult) : M (option jsstring) :=
  match results with
  | [] => ret None
  | result :: more =>
      let fileName := replaceString (js "File:") [] (title result) in
      if test true not_a_photo fileName then tryResults more
      else
        encodeURIComponent fileName ;;;
        imageResponse <- fetch (commons_imageinfo w fileName) (GetImageInfo fileName) ;;
        imageData <- parse imageResponse ;;
        match info_query imageData with
        | Some {| pages := Some pages |} =>
            let imageInfo :=
              match pages with
              | (_, {| imageinfo := Some (info :: _) |}) :: _ => Some info
              | _ => None
              end in
            let imageUrl :=
              match imageInfo with
              | Some info => or_else (thumburl info) (url info)
              | None => None
              end in
            match imageUrl with
            | Some (c :: u) =>
                if negb (includes (js "svg") (c :: u)) then ret (Some (c :: u))
                else tryResults more
            | _ => tryResults more
            end
        | _ => tryResults more
        end
  end.

(** The body of [for (const search of searchVariations)]. *)
Fixpoint trySearches (searchVariations : list jsstring) : M (option jsstring) :=
  match searchVariations with
  | [] => ret None
  | search :: more =>
      encodeURIComponent search ;;;
      response <- fetch (commons_search w search) (SearchCommons search) ;;
      data <- parse response ;;
      found <-
        match search_query data with
        | Some {| Commons.search := Some (r :: rs) |} => tryResults (r :: rs)
        | _ => ret None
        end ;;
      match found with
      | Some imageUrl => ret (Some imageUrl)
      | None => trySearches more
      end
  end.

(** The body of the [try] block of [getWikimediaImage]. *)
Definition searchImage (recipeName : jsstring) : M (option jsstring) :=
  let searchTerm :=
    recipeName
      |> toLowerCase
      |> replaceAll false (Cls (Neg (Union Word Space))) (by_ [])
      |> replaceAll false (Rep true 1 Space) (by_ (js " "))
      |> trim in
  let searchVariations :=
    [ searchTerm ++ js " dessert";
      searchTerm ++ js " cake";
      searchTerm ++ js " food";
      searchTerm ] in
  trySearches searchVariations.

Definition getWikimediaImage (recipeName : jsstring) : M jsstring :=
  found <- try_catch (searchImage recipeName) (fun error => ret None) ;;
  match found with
  | Some imageUrl => ret imageUrl
  | None =>
      r <- Math_random ;;
      ret (nth (floor_mul r (length fallbackImages)) fallbackImages [])
  end.

(** [x && x.trim()] as a condition: [Some x] when it holds. *)
Definition named (x : option jsstring) : option jsstring :=
  match x with
  | Some (c :: t) => if eqb (trim (c :: t)) [] then None else x
  | _ => None
  end.

(** [measure?.trim() || ''] *)
Definition measure_text (measure : option jsstring) : jsstring :=
  match measure with
  | Some m => trim m
  | None => []
  end.

(** [for (let i = 1; i <= 20; i++) { ... ingredients.push(...) }]: [n] is
    the number of rounds left, [acc] the array so far. *)
Fixpoint collect (meal : MealDetail.t) (n i : nat) (acc : list Ingredient.t)
  : list Ingredient.t :=
  match n with
  | O => acc
  | S n' =>
      let ingredient := MealDetail.strIngredient meal i in
      let measure := MealDetail.strMeasure meal i in
      collect meal n' (S i)
        (match named ingredient with
         | Some ingredient =>
             acc ++ [ {| Ingredient.name := trim ingredient;
                         Ingredient.measure := expandUnits (measure_text measure) |} ]
         | None => acc
         end)
  end.

Definition nonempty (o : option jsstring) : option jsstring :=
  match o with
  | Some (_ :: _) => o
  | _ => None
  end.

Definition fetchRecipeDetails (mealId : jsstring) : M Recipe.t :=
  response <- fetch (meal_api w mealId) (GetMeal mealId) ;;
  if negb (ok response) then throw (detailsFailed (statusText response))
  else
    data <- parse response ;;
    match MealDetailResponse.meals data with
    | None => throw TypeError                (* data.meals[0] on null *)
    | Some [] => throw recipeNotFound
    | Some (meal :: _) =>
        let ingredients := collect meal 20 1 [] in
        recipeImage <-
          (match named (MealDetail.strMealThumb meal) with
           | Some strMealThumb => ret strMealThumb
           | None => getWikimediaImage (MealDetail.strMeal meal)
           end) ;;
        ret {| Recipe.id := MealDetail.idMeal meal;
               Recipe.name := MealDetail.strMeal meal;
               Recipe.image := recipeImage;
               Recipe.instructions := MealDetail.strInstructions meal;
               Recipe.ingredients := ingredients;
               Recipe.category := MealDetail.strCategory meal;
               Recipe.area := MealDetail.strArea meal;
               Recipe.youtubeUrl := nonempty (MealDetail.strYoutube meal);
               Recipe.tags :=
                 match nonempty (MealDetail.strTags meal) with
                 | Some strTags => Some (map trim (splitChar (ch ",") [] strTags))
                 | None => None
                 end |}
    end.

Definition getRandomDessertRecipe : M Recipe.t :=
  desserts <- fetchDessertRecipes ;;
  match MealResponse.meals desserts with
  | None | Some [] => throw noDesserts
  | Some meals =>
      r <- Math_random ;;
      let randomIndex := floor_mul r (length meals) in
      match nth_error meals randomIndex with
      | Some randomMeal => fetchRecipeDetails (Meal.idMeal randomMeal)
      | None => throw TypeError        (* undefined.idMeal *)
      end
  end.

(** *** Vocabulary for statements about the service *)

(** Slot [i] holds an ingredient name that is not blank once trimmed. *)
Definition slot_named (meal : MealDetail.t) (i : nat) : bool :=
  match MealDetail.strIngredient meal i with
  | Some ingredient => negb (eqb (trim ingredient) [])
  | None => false
  end.

Definition text (o : option jsstring) : jsstring :=
  match o with
  | Some x => x
  | None => []
  end.

(** The ingredient of slot [i]: the name trimmed, the measure (the empty
    string when missing) trimmed and expanded. *)
Definition slot_entry (meal : MealDetail.t) (i : nat) : Ingredient.t :=
  {| Ingredient.name := trim (text (MealDetail.strIngredient meal i));
     Ingredient.measure := expandUnits (trim (text (MealDetail.strMeasure meal i))) |}.

(** The slots among 1 to [n] that hold a name, in slot order. *)
Definition named_slots (meal : MealDetail.t) (n : nat) : list nat :=
  filter (slot_named meal) (seq 1 n).


(** A complete [Recipe] for a detail record: every field is there, taken
    from the record as the service does. *)
Definition built_from (meal : MealDetail.t) (recipe : Recipe.t) : Prop :=
  Recipe.id recipe = MealDetail.idMeal meal
  /\ Recipe.name recipe = MealDetail.strMeal meal
  /\ Recipe.image recipe <> []
  /\ Recipe.instructions recipe = MealDetail.strInstructions meal
  /\ Recipe.ingredients recipe = map (slot_entry meal) (named_slots meal 20)
  /\ Recipe.category recipe = MealDetail.strCategory meal
  /\ Recipe.area recipe = MealDetail.strArea meal
  /\ Recipe.youtubeUrl recipe = nonempty (MealDetail.strYoutube meal)
  /\ Recipe.tags recipe =
       match nonempty (MealDetail.strTags meal) with
       | Some strTags => Some (map trim (splitChar (ch ",") [] strTags))
       | None => None
       end.

End Service.

End Service.
Export Service.

Unset Implicit Arguments.

(* ================================================================= *)
(** ** Further vocabulary: measures *)

Module UnitTables.

(** [expands_to tail out]: behind any number, [tail] comes out as [out],
    whether the number is 1 or not. *)
Definition expands_to (tail out : jsstring) : bool :=
  forallb (fun one => measure_ok one tail && JS.eqb (measure_tail one tail) out)
          [true; false].

(** The abbreviations of the source, written right behind the number. *)
Definition glued_units : list jsstring :=
  map js [ "tsp"; "tbsp"; "tbl"; "T"; "t"; "oz"; "lb"; "lbs"; "pt"; "qt"; "gal";
           "floz"; "g"; "kg"; "ml"; "l" ]%string.


(** Ways of writing fluid ounces, with what they become. *)
Definition fluid_ounces : list (jsstring * jsstring) :=
  map (fun p => (js (fst p), js (snd p)))
    [ (" fl oz", " fl ounce"); (" fl. oz.", " fl. ounce"); (" fl.oz", " fl.ounce");
      (" fl  oz", " fl  ounce"); (" FL OZ", " FL ounce");
      (" floz", " fluid ounce"); (" floz.", " fluid ounce") ]%string.

(** The abbreviations that have a plural pass, with their words. *)
Definition counted_units : list (jsstring * jsstring) :=
  map (fun p => (js (fst p), js (snd p)))
    [ ("tsp", "teaspoon"); ("tbsp", "tablespoon"); ("tbl", "tablespoon");
      ("T", "tablespoon"); ("t", "teaspoon"); ("oz", "ounce");
      ("tsp.", "teaspoon"); ("Tbsp", "tablespoon"); ("OZ", "ounce") ]%string.

(** A glyph behind the number, then an abbreviation with a plural pass. *)
Definition glyph_measures : list (jsstring * jsstring) :=
  flat_map
    (fun g =>
       map (fun p => (js " " ++ g :: js " " ++ js (fst p), js " " ++ g :: js " " ++ js (snd p)))
           [ ("tsp", "teaspoon"); ("tbsp", "tablespoon"); ("oz", "ounce");
             ("t", "teaspoon"); ("T", "tablespoon") ]%string)
    (map snd fraction_table).

(** The measures "N f u" for a fraction [f] of the table and an abbreviation
    [u] with a plural pass, with what they become behind the number. *)
Definition mixed_measures : list (jsstring * jsstring) :=
  flat_map
    (fun fg =>
       map (fun p => (js " " ++ fst fg ++ js " " ++ js (fst p),
                      js " " ++ snd fg :: js " " ++ js (snd p)))
           [ ("tsp", "teaspoon"); ("tbsp", "tablespoon"); ("oz", "ounce");
             ("t", "teaspoon"); ("T", "tablespoon") ]%string)
    fraction_table.

Definition is_letter (c : char) : bool := is_upper c || is_lower c.

Definition letters : list char :=
  map (fun i => 65 + N.of_nat i) (seq 0 26) ++ map (fun i => 97 + N.of_nat i) (seq 0 26).

(** Every reading of [r] holds some letter of the pattern. *)
Definition must_letter (r : regex) : bool := existsb (must r) letters.

(** A measure without a letter and without a slash. *)
Definition plain (measure : jsstring) : bool :=
  forallb (fun c => negb (is_letter c) && negb (c =? 47)) measure.

End UnitTables.
Export UnitTables.

(* ================================================================= *)
(** ** Further vocabulary: instructions *)

Module StepTexts.

(** A text without a digit, a period or a line feed. *)
Definition one_sentence (s : jsstring) : bool :=
  forallb (fun c => negb (is_digit c) && negb (c =? 46) && negb (c =? 10)) s.

End StepTexts.
Export StepTexts.

(* ================================================================= *)
(** ** Further vocabulary: the requests of the service *)

Module Requests.

(** A request of the image search: a search, or the image information of a
    file whose name does not end in .svg, .pdf or .txt. *)
Definition image_request (rq : request) : bool :=
  match rq with
  | SearchCommons _ => true
  | GetImageInfo fileName => negb (test true not_a_photo fileName)
  | _ => false
  end.

(** The terms searched for, in the order of the list. *)
Fixpoint search_terms (rqs : list request) : list jsstring :=
  match rqs with
  | [] => []
  | SearchCommons s :: more => s :: search_terms more
  | _ :: more => search_terms more
  end.

(** The search term [getWikimediaImage] makes of a recipe name. *)
Definition searchTerm (recipeName : jsstring) : jsstring :=
  recipeName
    |> toLowerCase
    |> replaceAll false (Cls (Neg (Union Word Space))) (by_ [])
    |> replaceAll false (Rep true 1 Space) (by_ (js " "))
    |> trim.

Definition searchVariations (recipeName : jsstring) : list jsstring :=
  [ searchTerm recipeName ++ js " dessert";
    searchTerm recipeName ++ js " cake";
    searchTerm recipeName ++ js " food";
    searchTerm recipeName ].

(** [pieces.join(sep)] for a one-unit separator. *)
Fixpoint join (sep : char) (pieces : list jsstring) : jsstring :=
  match pieces with
  | [] => []
  | [p] => p
  | p :: more => p ++ sep :: join sep more
  end.

End Requests.
Export Requests.

(* ================================================================= *)
(** ** Further vocabulary: search terms *)

Module SearchTerms.

(** White space is single blanks only: no other white space, and no two
    blanks in a row ([after_blank]: the unit before was a blank). *)
Fixpoint single_spaced (after_blank : bool) (s : jsstring) : bool :=
  match s with
  | [] => true
  | c :: t =>
      if is_space c then (c =? 32) && negb after_blank && single_spaced true t
      else single_spaced false t
  end.

(** A lower-case letter, a digit, an underscore or a blank. *)
Definition term_unit (c : char) : bool :=
  is_lower c || is_digit c || (c =? 95) || (c =? 32).

End SearchTerms.
Export SearchTerms.

(* ================================================================= *)
(** ** components/RecipeDisplay.tsx: the download name and the checked steps *)

Module Display.

(** *** downloadRecipe: the name of the file *)

(** [[^a-z0-9]] under flag i leaves out the letters of both cases and the
    digits: it is what is outside [\w], and the underscore. *)
Definition not_alnum : cclass := Union (Neg Word) (One 95).

(** [`${recipe.name.replace(/[^a-z0-9]/gi, '_').toLowerCase()}.txt`] *)
Definition downloadName (name : jsstring) : jsstring :=
  (name |> replaceAll true (Cls not_alnum) (by_ (js "_")) |> toLowerCase) ++ js ".txt".

(** *** The set of checked steps *)

(** A [Set<number>] of step indices: its elements in insertion order. *)
Definition NumberSet := list nat.

Definition has (s : NumberSet) (x : nat) : bool := existsb (Nat.eqb x) s.

Definition add (s : NumberSet) (x : nat) : NumberSet :=
  if has s x then s else s ++ [x].

Definition delete (s : NumberSet) (x : nat) : NumberSet :=
  filter (fun y => negb (Nat.eqb x y)) s.

(** [new Set(iterable)] *)
Definition newSet (elements : list nat) : NumberSet := fold_left add elements [].

(** [toggleStep]; the result is what it passes to [setCheckedSteps]. *)
Definition toggleStep (checkedSteps : NumberSet) (stepIndex : nat) : NumberSet :=
  let newCheckedSteps := newSet checkedSteps in
  if has newCheckedSteps stepIndex then delete newCheckedSteps stepIndex
  else add newCheckedSteps stepIndex.

(** *** The checked steps in localStorage *)

(** [localStorage]: [getItem] by key, [None] for null. *)
Definition storage := jsstring -> option jsstring.

Definition setItem (ls : storage) (key value : jsstring) : storage :=
  fun k => if JS.eqb k key then Some value else ls k.

(** [`recipe-steps-${recipe.id}`] *)
Definition stepsKey (id : jsstring) : jsstring := js "recipe-steps-" ++ id.

(** The decimal numeral of an index, as [JSON.stringify] writes it. *)
Fixpoint numeral (d : Decimal.uint) : jsstring :=
  match d with
  | Decimal.Nil => []
  | Decimal.D0 d => 48 :: numeral d
  | Decimal.D1 d => 49 :: numeral d
  | Decimal.D2 d => 50 :: numeral d
  | Decimal.D3 d => 51 :: numeral d
  | Decimal.D4 d => 52 :: numeral d
  | Decimal.D5 d => 53 :: numeral d
  | Decimal.D6 d => 54 :: numeral d
  | Decimal.D7 d => 55 :: numeral d
  | Decimal.D8 d => 56 :: numeral d
  | Decimal.D9 d => 57 :: numeral d
  end.

Definition decimal (n : nat) : jsstring := numeral (Nat.to_uint n).

(** [JSON.stringify] of an array of indices: "[0,2,5]". *)
Definition JSON_stringify (elements : list nat) : jsstring :=
  js "[" ++ join 44 (map decimal elements) ++ js "]".

(** The value of a run of digits. *)
Definition number_of (s : jsstring) : nat :=
  fold_left (fun acc c => (10 * acc + N.to_nat (c - 48))%nat) s 0%nat.

(** A number of a JSON text, as far as the arrays written by this
    component go: the text has to be the decimal numeral of its value, with
    no sign, fraction, exponent or leading zero. *)
Definition JSON_number (s : jsstring) : option nat :=
  if JS.eqb s (decimal (number_of s)) then Some (number_of s) else None.

(** The texts between the commas of an array, up to the closing bracket,
    which has to end the text. *)
Fixpoint JSON_items (cur s : jsstring) : option (list jsstring) :=
  match s with
  | [] => None
  | c :: t =>
      if c =? 93 then match t with [] => Some [rev cur] | _ :: _ => None end
      else if c =? 44 then option_map (cons (rev cur)) (JSON_items [] t)
      else JSON_items (c :: cur) t
  end.

Fixpoint all_numbers (items : list jsstring) : option (list nat) :=
  match items with
  | [] => Some []
  | x :: more =>
      match JSON_number x, all_numbers more with
      | Some n, Some ns => Some (n :: ns)
      | _, _ => None
      end
  end.

(** [JSON.parse] on the texts [JSON.stringify] writes for arrays of
    indices; [None] stands for every other text, on which [JSON.parse]
    throws or returns something else than such an array. *)
Definition JSON_parse (s : jsstring) : option (list nat) :=
  match s with
  | c :: t =>
      if c =? 91 then
        if JS.eqb t (js "]") then Some []
        else match JSON_items [] t with
             | Some items => all_numbers items
             | None => None
             end
      else None
  | [] => None
  end.

(** The effect that loads the checked steps of a recipe: what it passes to
    [setCheckedSteps]; [None] where [JSON_parse] is. *)
Definition loadSteps (ls : storage) (id : jsstring) : option NumberSet :=
  match ls (stepsKey id) with
  | Some (c :: t) => option_map newSet (JSON_parse (c :: t))
  | _ => Some (newSet [])
  end.

(** The effect that saves them: [[...checkedSteps]] is the elements in
    insertion order. *)
Definition saveSteps (ls : storage) (id : jsstring) (checkedSteps : NumberSet) : storage :=
  setItem ls (stepsKey id) (JSON_stringify checkedSteps).

(** The first render of a recipe.  The state starts as the empty set; after
    the render the effects run in the order they are declared, the loading
    one handing the stored set to [setCheckedSteps] and the saving one
    writing the set of this render, the empty one; the new state brings a
    second render, after which the saving effect runs again.  The result
    is the state and the storage once this has settled. *)
Definition firstRender (ls : storage) (id : jsstring) : option (NumberSet * storage) :=
  match loadSteps ls id with
  | Some loaded => Some (loaded, saveSteps (saveSteps ls id (newSet [])) id loaded)
  | None => None
  end.

(** A click on the number of a step: the state after it, and the storage
    after the saving effect of the render it brings. *)
Definition click (ls : storage) (id : jsstring) (checkedSteps : NumberSet) (stepIndex : nat)
  : NumberSet * storage :=
  let newCheckedSteps := toggleStep checkedSteps stepIndex in
  (newCheckedSteps, saveSteps ls id newCheckedSteps).

(** *** Vocabulary *)

(** The unit of the download name that a unit of the recipe name gives. *)
Definition name_unit (c : char) : char :=
  if is_upper c then c + 32
  else if is_lower c || is_digit c then c
  else 95.

End Display.
Export Display.

(* ================================================================= *)
(** ** App.tsx: the handlers and the screen *)

Module App.

(** The three [useState] cells of [App]. *)
Record ui := UI {
  recipe : option Recipe.t;
  loading : bool;
  error : option jsstring
}.

(** What [App] renders. *)
Inductive screen :=
| Spinner                          (* "Finding a delicious dessert recipe..." *)
| ErrorScreen (message : jsstring) (* "Oops! Something went wrong" *)
| NoRecipe                         (* "No recipe found" *)
| ShowRecipe (r : Recipe.t).       (* <RecipeDisplay recipe={recipe} ... /> *)

(** [if (loading) ... if (error) ... if (!recipe) ...]: an empty message is
    falsy. *)
Definition render (u : ui) : screen :=
  if loading u then Spinner
  else match error u with
       | Some (c :: m) => ErrorScreen (c :: m)
       | _ =>
           match recipe u with
           | None => NoRecipe
           | Some r => ShowRecipe r
           end
       end.

(** The query of the current URL as [URLSearchParams] has it: the decoded
    name-value pairs, in order. *)
Definition query := list (jsstring * jsstring).

(** [searchParams.get(name)]: the first value, [None] for null. *)
Fixpoint searchParams_get (q : query) (name : jsstring) : option jsstring :=
  match q with
  | [] => None
  | (n, v) :: more => if JS.eqb n name then Some v else searchParams_get more name
  end.

(** [searchParams.set(name, value)]: the first pair of that name gets the
    value and the others of that name go; without one, the pair is
    appended. *)
Fixpoint searchParams_set (q : query) (name value : jsstring) : query :=
  match q with
  | [] => [(name, value)]
  | (n, v) :: more =>
      if JS.eqb n name
      then (n, value) :: filter (fun p => negb (JS.eqb (fst p) name)) more
      else (n, v) :: searchParams_set more name value
  end.

(** A string as the URL interface takes it: a surrogate without its
    partner becomes U+FFFD. *)
Fixpoint scalar (s : jsstring) : jsstring :=
  match s with
  | [] => []
  | c :: t =>
      if is_high c then
        match t with
        | d :: t' => if is_low d then c :: d :: scalar t' else 65533 :: scalar t
        | [] => [65533]
        end
      else if is_low c then 65533 :: scalar t
      else c :: scalar t
  end.

(** The component in its surroundings: its state, the query of the
    current URL, the number of history entries pushed, and the network. *)
Record app := Running {
  view : ui;
  location : query;
  pushes : nat;
  net : state
}.

(** What a handler does to its surroundings. *)
Inductive action :=
| setRecipe (r : Recipe.t)
| setLoading (b : bool)
| setError (e : option jsstring)
| pushRecipe (id : jsstring).
    (* url.searchParams.set('recipe', id); history.pushState({}, '', url.toString());
       the URL is of the page's own origin, so that pushState does not throw *)

Definition act (s : app) (a : action) : app :=
  match a with
  | setRecipe r =>
      {| view := {| recipe := Some r; loading := loading (view s); error := error (view s) |};
         location := location s; pushes := pushes s; net := net s |}
  | setLoading b =>
      {| view := {| recipe := recipe (view s); loading := b; error := error (view s) |};
         location := location s; pushes := pushes s; net := net s |}
  | setError e =>
      {| view := {| recipe := recipe (view s); loading := loading (view s); error := e |};
         location := location s; pushes := pushes s; net := net s |}
  | pushRecipe id =>
      {| view := view s;
         location := searchParams_set (location s) (js "recipe") (scalar id);
         pushes := S (pushes s); net := net s |}
  end.

Definition acts (s : app) (l : list action) : app := fold_left act l s.

(** An async handler: what it does at once; then, if it awaits a call of
    the service, the call and what it does with the outcome. *)
Inductive task :=
| Done (now : list action)
| Await (now : list action) (call : M Recipe.t) (next : result Recipe.t -> task).

(** [before; t(); after]: a handler called without [await].  It runs up to
    its first [await]; then the caller goes on, and the rest of the handler
    runs when what it awaits has settled. *)
Definition detached (before : list action) (t : task) (after : list action) : task :=
  match t with
  | Done now => Done (before ++ now ++ after)
  | Await now call next => Await (before ++ now ++ after) call next
  end.

(** Running a handler: the screen that stands each time it waits, after
    the updates made up to there, and the surroundings when it is done. *)
Fixpoint run (t : task) (s : app) : list screen * app :=
  match t with
  | Done now => ([], acts s now)
  | Await now call next =>
      let s1 := acts s now in
      let '(outcome, n) := call (net s1) in
      let '(shown, s2) :=
        run (next outcome)
            {| view := view s1; location := location s1; pushes := pushes s1; net := n |} in
      (render (view s1) :: shown, s2)
  end.

Section Handlers.

Variable w : world.

(** The [message] of the exceptions of the platform. *)
Variable platform_message : exn -> jsstring.

(** [err instanceof Error ? err.message : 'Failed to fetch recipe']: every
    exception of the service is an [Error]. *)
Definition message (err : exn) : jsstring :=
  match err with
  | Error m => m
  | _ => platform_message err
  end.

Definition fetchRandomRecipe : task :=
  Await [setLoading true; setError None]
        (getRandomDessertRecipe w)
        (fun outcome =>
           Done (match outcome with
                 | Ok randomRecipe => [setRecipe randomRecipe; pushRecipe (Recipe.id randomRecipe)]
                 | Throw err => [setError (Some (message err))]
                 end
                 ++ [setLoading false])).                     (* finally *)

Definition fetchSpecificRecipe (recipeId : jsstring) : task :=
  Await [setLoading true; setError None]
        (fetchRecipeDetails w recipeId)
        (fun outcome =>
           match outcome with
           | Ok specificRecipe => Done ([setRecipe specificRecipe] ++ [setLoading false])
           | Throw err =>
               detached [setError (Some (message err))]
                        fetchRandomRecipe
                        [setLoading false]                    (* finally *)
           end).

(** The effect of the first render: [if (recipeId)], an empty id is
    falsy. *)
Definition start (q : query) : task :=
  match searchParams_get q (js "recipe") with
  | Some (c :: t) => fetchSpecificRecipe (c :: t)
  | _ => fetchRandomRecipe
  end.

End Handlers.

(** [useState(null)], [useState(true)], [useState(null)] *)
Definition initial : ui := {| recipe := None; loading := true; error := None |}.

End App.

(* ================================================================= *)
(** * Properties of the matcher *)

Module RegexFacts.

Lemma cursor_eta (s : cursor) :
  {| prev := prev s; rest := rest s; cap := cap s |} = s.
Proof. now destruct s. Qed.

Lemma prev_after_snoc cs c pv : prev_after (cs ++ [c]) pv = Some c.
Proof. unfold prev_after. now rewrite fold_left_app. Qed.

Lemma prev_after_cons c cs pv : prev_after (c :: cs) pv = prev_after cs (Some c).
Proof. reflexivity. Qed.

Section Facts.

Variable ci : bool.

Lemma rep_greedy_sound p k g l :
  forall n pv x,
    rep_greedy p k g n pv l = Some x ->
    exists cs l', l = cs ++ l' /\ all_in p cs /\ (n <= length cs)%nat
                  /\ k {| prev := prev_after cs pv; rest := l'; cap := g |} = Some x.
Proof.
  induction l as [|c t IH]; intros n pv x H; simpl in H.
  - destruct n; [|discriminate]. exists [], []. repeat split; auto. constructor.
  - assert (Hleave : leave k g n pv (c :: t) = Some x ->
              exists cs l', c :: t = cs ++ l' /\ all_in p cs /\ (n <= length cs)%nat
                /\ k {| prev := prev_after cs pv; rest := l'; cap := g |} = Some x).
    { intros L. destruct n; [|discriminate]. exists [], (c :: t).
      repeat split; auto. constructor. }
    destruct (cmem p c) eqn:Hc; [|auto].
    destruct (rep_greedy p k g (Nat.pred n) (Some c) t) as [y|] eqn:Hr; [|auto].
    injection H as ->. apply IH in Hr as (cs & l' & -> & Hall & Hn & Hk).
    exists (c :: cs), l'. repeat split; auto.
    + constructor; auto.
    + simpl. lia.
Qed.

Lemma rep_lazy_sound p k g l :
  forall n pv x,
    rep_lazy p k g n pv l = Some x ->
    exists cs l', l = cs ++ l' /\ all_in p cs /\ (n <= length cs)%nat
                  /\ k {| prev := prev_after cs pv; rest := l'; cap := g |} = Some x.
Proof.
  induction l as [|c t IH]; intros n pv x H; simpl in H.
  - destruct (leave k g n pv []) eqn:L; [|discriminate]. injection H as ->.
    destruct n; [|discriminate]. exists [], []. repeat split; auto. constructor.
  - destruct (leave k g n pv (c :: t)) eqn:L.
    + injection H as ->. destruct n; [|discriminate]. exists [], (c :: t).
      repeat split; auto. constructor.
    + destruct (cmem p c) eqn:Hc; [|discriminate].
      apply IH in H as (cs & l' & -> & Hall & Hn & Hk).
      exists (c :: cs), l'. repeat split; auto.
      * constructor; auto.
      * simpl. lia.
Qed.

Lemma rep_greedy_complete p k g cs :
  forall l' n pv,
    all_in p cs -> (n <= length cs)%nat ->
    k {| prev := prev_after cs pv; rest := l'; cap := g |} <> None ->
    rep_greedy p k g n pv (cs ++ l') <> None.
Proof.
  induction cs as [|c cs IH]; intros l' n pv Hall Hn Hk.
  - simpl in Hn. assert (n = 0%nat) as -> by lia. simpl.
    destruct l' as [|d t]; simpl; auto.
    destruct (cmem p d); auto.
    destruct (rep_greedy p k g 0 (Some d) t); [discriminate|auto].
  - inversion Hall as [|? ? Hc Hall']; subst. simpl. rewrite Hc.
    specialize (IH l' (Nat.pred n) (Some c) Hall').
    destruct (rep_greedy p k g (Nat.pred n) (Some c) (cs ++ l')); [discriminate|].
    exfalso. apply IH; auto. simpl in Hn. lia.
Qed.

Lemma rep_lazy_complete p k g cs :
  forall l' n pv,
    all_in p cs -> (n <= length cs)%nat ->
    k {| prev := prev_after cs pv; rest := l'; cap := g |} <> None ->
    rep_lazy p k g n pv (cs ++ l') <> None.
Proof.
  induction cs as [|c cs IH]; intros l' n pv Hall Hn Hk.
  - simpl in Hn. assert (n = 0%nat) as -> by lia. simpl.
    destruct l' as [|d t]; simpl.
    + destruct (k _); [discriminate|]. now elim Hk.
    + destruct (k _) eqn:E; [discriminate|]. now elim Hk.
  - inversion Hall as [|? ? Hc Hall']; subst. simpl. rewrite Hc.
    destruct (leave k g n pv (c :: cs ++ l')); [discriminate|].
    apply IH; auto. simpl in Hn. lia.
Qed.

(** The matcher finds a match only where the pattern can read one, and
    finds one wherever the pattern can read one that the continuation
    accepts. *)
Lemma m_sound_complete (r : regex) :
  (forall k s x, m ci r k s = Some x -> exists s', reads ci r s s' /\ k s' = Some x)
  /\ (forall k s s', reads ci r s s' -> k s' <> None -> m ci r k s <> None).
Proof.
  induction r as [ |c|p|a [IHa1 IHa2] b [IHb1 IHb2]|a [IHa1 IHa2] b [IHb1 IHb2]
                  |g n p|a [IHa1 IHa2]|a [IHa1 IHa2]|a [IHa1 IHa2]|a [IHa1 IHa2]| | | ];
    (split; [intros k s x H | intros k s s' R Hk]); simpl in *.
  - eauto.
  - now subst.
  - destruct s as [pv [|y t] g]; simpl in *; [discriminate|].
    destruct (same ci c y) eqn:E; [|discriminate].
    eexists. split; [|exact H]. exists y. simpl. auto.
  - destruct R as (y & E & Hr & Hp & Hc).
    destruct s as [pv l g], s' as [pv' l' g']; simpl in *. subst. now rewrite E.
  - destruct s as [pv [|y t] g]; simpl in *; [discriminate|].
    destruct (cmem p y) eqn:E; [|discriminate].
    eexists. split; [|exact H]. exists y. simpl. auto.
  - destruct R as (y & E & Hr & Hp & Hc).
    destruct s as [pv l g], s' as [pv' l' g']; simpl in *. subst. now rewrite E.
  - apply IHa1 in H as (s1 & R1 & H). apply IHb1 in H as (s2 & R2 & H). eauto.
  - destruct R as (s1 & R1 & R2). eapply IHa2; eauto.
  - destruct (m ci a k s) eqn:E.
    + injection H as ->. apply IHa1 in E as (s' & R & E). eauto.
    + apply IHb1 in H as (s' & R & E'). eauto.
  - destruct R as [R|R].
    + specialize (IHa2 k s s' R Hk). now destruct (m ci a k s).
    + destruct (m ci a k s); [discriminate|]. eapply IHb2; eauto.
  - destruct g.
    + apply rep_greedy_sound in H as (cs & l' & E & Hall & Hn & Hk).
      eexists. split; [|exact Hk]. exists cs. simpl. auto.
    + apply rep_lazy_sound in H as (cs & l' & E & Hall & Hn & Hk).
      eexists. split; [|exact Hk]. exists cs. simpl. auto.
  - destruct R as (cs & Hall & Hn & E & Hp & Hc). rewrite E.
    destruct s' as [pv' l' g']; simpl in *; subst.
    destruct g; [apply rep_greedy_complete|apply rep_lazy_complete]; auto.
  - destruct (m ci a k s) eqn:E.
    + injection H as ->. apply IHa1 in E as (s' & R & E). eauto.
    + exists s. auto.
  - destruct R as [R| ->].
    + specialize (IHa2 k s s' R Hk). now destruct (m ci a k s).
    + now destruct (m ci a k s).
  - apply IHa1 in H as (s1 & R & H). eauto.
  - destruct R as (s1 & R & ->). eapply IHa2; eauto.
  - destruct (m ci a Some s) eqn:E; [|discriminate].
    apply IHa1 in E as (s1 & R & _). eauto.
  - destruct R as (-> & s1 & R).
    specialize (IHa2 Some s s1 R). destruct (m ci a Some s); [auto|].
    now elim IHa2.
  - destruct (m ci a Some s) eqn:E; [discriminate|].
    exists s. repeat split; auto.
    intros s1 R. now apply (IHa2 Some s s1 R).
  - destruct R as (-> & N). destruct (m ci a Some s) eqn:E; [|auto].
    apply IHa1 in E as (s1 & R & _). now elim (N s1).
  - destruct (xorb _ _) eqn:E; [|discriminate]. eauto.
  - destruct R as (-> & E). now rewrite E.
  - destruct (prev s) eqn:E; [discriminate|]. eauto.
  - destruct R as (-> & E). now rewrite E.
  - destruct (rest s) eqn:E; [|discriminate]. eauto.
  - destruct R as (-> & E). now rewrite E.
Qed.

Lemma m_sound r k s x :
  m ci r k s = Some x -> exists s', reads ci r s s' /\ k s' = Some x.
Proof. apply m_sound_complete. Qed.

Lemma m_complete r k s s' :
  reads ci r s s' -> k s' <> None -> m ci r k s <> None.
Proof. apply m_sound_complete. Qed.

(** Reading only moves forward: what is left afterwards is a suffix. *)
Lemma reads_suffix r : forall s s', reads ci r s s' -> exists cs, rest s = cs ++ rest s'.
Proof.
  induction r; intros s s' R; simpl in R.
  - subst. now exists [].
  - destruct R as (x & _ & E & _). exists [x]. now rewrite E.
  - destruct R as (x & _ & E & _). exists [x]. now rewrite E.
  - destruct R as (s1 & R1 & R2).
    apply IHr1 in R1 as (c1 & E1). apply IHr2 in R2 as (c2 & E2).
    exists (c1 ++ c2). now rewrite E1, E2, app_assoc.
  - destruct R as [R|R]; auto.
  - destruct R as (cs & _ & _ & E & _). now exists cs.
  - destruct R as [R| ->]; auto. now exists [].
  - destruct R as (s1 & R & ->). simpl. auto.
  - destruct R as (-> & _). now exists [].
  - destruct R as (-> & _). now exists [].
  - destruct R as (-> & _). now exists [].
  - destruct R as (-> & _). now exists [].
  - destruct R as (-> & _). now exists [].
Qed.

Lemma consumed_app (s s' : cursor) cs : rest s = cs ++ rest s' -> consumed s s' = cs.
Proof.
  intros E. unfold consumed. rewrite E, length_app.
  replace (length cs + length (rest s') - length (rest s'))%nat with (length cs) by lia.
  now rewrite firstn_app, Nat.sub_diag, firstn_all, app_nil_r.
Qed.

Lemma attempt_sound r pv l mt g :
  attempt ci r pv l = Some (mt, g) ->
  exists s', reads ci r (start pv l) s' /\ l = mt ++ rest s' /\ g = cap s'.
Proof.
  unfold attempt. intros H.
  destruct (m ci r Some (start pv l)) as [s'|] eqn:E; [|discriminate].
  injection H as <- <-.
  apply m_sound in E as (s1 & R & [= ->]).
  exists s'. split; auto.
  destruct (reads_suffix _ _ _ R) as (cs & Hcs).
  rewrite (consumed_app _ _ _ Hcs). auto.
Qed.

Lemma attempt_complete r pv l s' :
  reads ci r (start pv l) s' -> attempt ci r pv l <> None.
Proof.
  intros R. unfold attempt.
  pose proof (m_complete r Some _ _ R) as H.
  destruct (m ci r Some (start pv l)); [discriminate|]. now elim H.
Qed.

Lemma attempt_none r pv l :
  (forall s', ~ reads ci r (start pv l) s') -> attempt ci r pv l = None.
Proof.
  intros H. destruct (attempt ci r pv l) as [[mt g]|] eqn:E; auto.
  apply attempt_sound in E as (s' & R & _). now elim (H s').
Qed.

Lemma reads_rep g n p cs pv l c :
  all_in p cs -> (n <= length cs)%nat ->
  reads ci (Rep g n p) {| prev := pv; rest := cs ++ l; cap := c |}
                       {| prev := prev_after cs pv; rest := l; cap := c |}.
Proof. intros H N. exists cs. simpl. auto. Qed.

Lemma reads_chr a x pv l c :
  same ci a x = true ->
  reads ci (Chr a) {| prev := pv; rest := x :: l; cap := c |}
                   {| prev := Some x; rest := l; cap := c |}.
Proof. intros H. exists x. simpl. auto. Qed.

Lemma reads_cls p x pv l c :
  cmem p x = true ->
  reads ci (Cls p) {| prev := pv; rest := x :: l; cap := c |}
                   {| prev := Some x; rest := l; cap := c |}.
Proof. intros H. exists x. simpl. auto. Qed.

(** *** The continuation only sees the end of a match *)

Lemma rep_greedy_ext p k k' g l :
  (forall s, k s = k' s) ->
  forall n pv, rep_greedy p k g n pv l = rep_greedy p k' g n pv l.
Proof.
  intros E. induction l as [|c t IH]; intros n pv; simpl.
  - destruct n; simpl; auto.
  - rewrite IH. unfold leave. now rewrite E.
Qed.

Lemma rep_lazy_ext p k k' g l :
  (forall s, k s = k' s) ->
  forall n pv, rep_lazy p k g n pv l = rep_lazy p k' g n pv l.
Proof.
  intros E. induction l as [|c t IH]; intros n pv; simpl.
  - unfold leave. now rewrite E.
  - rewrite IH. unfold leave. now rewrite E.
Qed.

Lemma m_ext r : forall k k' s,
  (forall s', k s' = k' s') -> m ci r k s = m ci r k' s.
Proof.
  induction r; intros k k' s E; simpl.
  - apply E.
  - destruct (rest s); auto. destruct (same ci c c0); auto.
  - destruct (rest s); auto. destruct (cmem p c); auto.
  - apply IHr1. intros s1. now apply IHr2.
  - rewrite (IHr1 k k' s E), (IHr2 k k' s E). reflexivity.
  - destruct greedy; [now apply rep_greedy_ext|now apply rep_lazy_ext].
  - rewrite (IHr k k' s E), E. reflexivity.
  - apply IHr. intros s1. apply E.
  - destruct (m ci r Some s); auto.
  - destruct (m ci r Some s); auto.
  - destruct (xorb _ _); auto.
  - destruct (prev s); auto.
  - destruct (rest s); auto.
Qed.

Lemma rep_greedy_map p k g (F : cursor -> cursor) l : forall n pv,
  rep_greedy p (fun s => option_map F (k s)) g n pv l
  = option_map F (rep_greedy p k g n pv l).
Proof.
  induction l as [|c t IH]; intros n pv; simpl.
  - now destruct n.
  - destruct (cmem p c); [|now destruct n].
    rewrite IH. destruct (rep_greedy p k g (Nat.pred n) (Some c) t); simpl; auto.
    now destruct n.
Qed.

Lemma rep_lazy_map p k g (F : cursor -> cursor) l : forall n pv,
  rep_lazy p (fun s => option_map F (k s)) g n pv l
  = option_map F (rep_lazy p k g n pv l).
Proof.
  induction l as [|c t IH]; intros n pv; simpl.
  - destruct n; simpl; auto. now destruct (k _).
  - destruct n; simpl.
    + destruct (k _); simpl; auto. destruct (cmem p c); auto.
    + destruct (cmem p c); auto.
Qed.

Lemma m_map (F : cursor -> cursor) r : forall k s,
  m ci r (fun s' => option_map F (k s')) s = option_map F (m ci r k s).
Proof.
  induction r; intros k s; simpl.
  - reflexivity.
  - destruct (rest s); auto. destruct (same ci c c0); auto.
  - destruct (rest s); auto. destruct (cmem p c); auto.
  - rewrite <- IHr1. apply m_ext. intros s1. apply IHr2.
  - rewrite IHr1. destruct (m ci r1 k s); simpl; auto.
  - destruct greedy; [apply rep_greedy_map|apply rep_lazy_map].
  - rewrite IHr. destruct (m ci r k s); simpl; auto.
  - apply (IHr (fun s1 => k {| prev := prev s1; rest := rest s1; cap := Some (consumed s s1) |})).
  - destruct (m ci r Some s); auto.
  - destruct (m ci r Some s); auto.
  - destruct (xorb _ _); auto.
  - destruct (prev s); auto.
  - destruct (rest s); auto.
Qed.

(** *** A pattern without a group hands group 1 on *)

Lemma rep_greedy_recap p k g g' l : forall n pv,
  rep_greedy p k g n pv l = rep_greedy p (fun s => k (recap g s)) g' n pv l.
Proof.
  induction l as [|c t IH]; intros n pv; simpl.
  - now destruct n.
  - now rewrite IH.
Qed.

Lemma rep_lazy_recap p k g g' l : forall n pv,
  rep_lazy p k g n pv l = rep_lazy p (fun s => k (recap g s)) g' n pv l.
Proof.
  induction l as [|c t IH]; intros n pv; simpl.
  - now destruct n.
  - now rewrite IH.
Qed.

Lemma m_recap r : groupless r = true ->
  forall k g s, m ci r k (recap g s) = m ci r (fun s' => k (recap g s')) s.
Proof.
  induction r; simpl; intros G k g s; try discriminate.
  - reflexivity.
  - destruct (rest s); auto.
  - destruct (rest s); auto.
  - apply andb_true_iff in G as [G1 G2].
    rewrite (IHr1 G1). apply m_ext. intros s1. now apply IHr2.
  - apply andb_true_iff in G as [G1 G2]. now rewrite (IHr1 G1), (IHr2 G2).
  - destruct greedy; [apply rep_greedy_recap|apply rep_lazy_recap].
  - now rewrite (IHr G).
  - assert (H : m ci r Some (recap g s) = option_map (recap g) (m ci r Some s)).
    { rewrite (IHr G), <- (m_map (recap g) r Some s). now apply m_ext. }
    rewrite H. now destruct (m ci r Some s).
  - assert (H : m ci r Some (recap g s) = option_map (recap g) (m ci r Some s)).
    { rewrite (IHr G), <- (m_map (recap g) r Some s). now apply m_ext. }
    rewrite H. now destruct (m ci r Some s).
  - reflexivity.
  - reflexivity.
  - reflexivity.
Qed.

(** A match of a groupless pattern from a cursor holding a group text is
    the match from the same cursor without it, the text put back. *)
Lemma m_groupless r pv l g :
  groupless r = true ->
  m ci r Some {| prev := pv; rest := l; cap := g |}
  = option_map (recap g) (m ci r Some (start pv l)).
Proof.
  intros G. change {| prev := pv; rest := l; cap := g |} with (recap g (start pv l)).
  rewrite (m_recap r G), <- (m_map (recap g) r Some). now apply m_ext.
Qed.

(** A greedy run over units of the class, when whatever follows the run
    cannot begin with one: only the whole run is handed on. *)
Lemma rep_greedy_run p k g cs l :
  all_in p cs -> stops (cmem p) l ->
  (forall s c t, rest s = c :: t -> cmem p c = true -> k s = None) ->
  forall n pv, (n <= length cs)%nat ->
  rep_greedy p k g n pv (cs ++ l) = k {| prev := prev_after cs pv; rest := l; cap := g |}.
Proof.
  intros Hall Hl Hk. induction Hall as [|c cs Hc Hcs IH]; intros n pv Hn.
  - simpl in Hn. assert (n = 0%nat) as -> by lia. simpl.
    destruct l as [|d t]; simpl; auto.
    simpl in Hl. now rewrite Hl.
  - simpl. rewrite Hc, IH by (simpl in Hn; lia).
    change (prev_after (c :: cs) pv) with (prev_after cs (Some c)).
    destruct (k {| prev := prev_after cs (Some c); rest := l; cap := g |}); auto.
    destruct n; simpl; auto.
    apply (Hk _ c (cs ++ l)); auto.
Qed.

(** *** Where a match can begin, and what it has to contain *)

Lemma reads_first r : forall s s',
  reads ci r s s' ->
  (nullable r = true /\ rest s' = rest s)
  \/ exists c t, rest s = c :: t /\ first ci r c = true.
Proof.
  induction r; intros s s' R; simpl in R |- *.
  - subst. auto.
  - destruct R as (x & H & E & _). right. eauto.
  - destruct R as (x & H & E & _). right. eauto.
  - destruct R as (s1 & R1 & R2).
    destruct (IHr1 _ _ R1) as [[N1 E1]|(c & t & E & F)].
    + destruct (IHr2 _ _ R2) as [[N2 E2]|(c & t & E & F)].
      * left. rewrite N1, N2, E2, E1. auto.
      * right. exists c, t. rewrite <- E1, N1, F. split; auto. apply orb_true_r.
    + right. exists c, t. rewrite F. auto.
  - destruct R as [R|R].
    + destruct (IHr1 _ _ R) as [[N E]|(c & t & E & F)].
      * left. rewrite N. auto.
      * right. exists c, t. rewrite F. auto.
    + destruct (IHr2 _ _ R) as [[N E]|(c & t & E & F)].
      * left. rewrite N. split; auto. apply orb_true_r.
      * right. exists c, t. rewrite F. split; auto. apply orb_true_r.
  - destruct R as (cs & Hall & Hn & E & _).
    destruct cs as [|c cs].
    + left. simpl in Hn, E. destruct min; [auto|lia].
    + right. inversion Hall; subst. exists c, (cs ++ rest s'). auto.
  - destruct R as [R| ->]; auto.
    destruct (IHr _ _ R) as [[N E]|(c & t & E & F)]; auto. right. eauto.
  - destruct R as (s1 & R & ->). simpl. auto.
  - destruct R as (-> & _). auto.
  - destruct R as (-> & _). auto.
  - destruct R as (-> & _). auto.
  - destruct R as (-> & _). auto.
  - destruct R as (-> & _). auto.
Qed.

Lemma attempt_rejected r pv c l :
  nullable r = false -> first ci r c = false -> attempt ci r pv (c :: l) = None.
Proof.
  intros N F. apply attempt_none. intros s' R.
  destruct (reads_first _ _ _ R) as [[N' _]|(c' & t & E & F')]; [congruence|].
  simpl in E. injection E as <- _. congruence.
Qed.

Lemma m_rejected r k s c l :
  rest s = c :: l -> nullable r = false -> first ci r c = false -> m ci r k s = None.
Proof.
  intros E N F. destruct (m ci r k s) eqn:H; auto.
  apply m_sound in H as (s' & R & _).
  destruct (reads_first _ _ _ R) as [[N' _]|(c' & t & E' & F')]; [congruence|].
  rewrite E in E'. injection E' as <- _. congruence.
Qed.

(** *** Scanning a subject *)

Lemma replace_from_skip r f a : forall pv l,
  replace_from ci r f (length a) pv (a ++ l) = replace_from ci r f 0 (prev_after a pv) l.
Proof.
  induction a as [|c a IH]; intros pv l; simpl.
  - now destruct l.
  - apply IH.
Qed.

Lemma replace_from_hit r f mt g pv l :
  attempt ci r pv (mt ++ l) = Some (mt, g) -> mt <> [] ->
  replace_from ci r f 0 pv (mt ++ l) = f mt g ++ replace_from ci r f 0 (prev_after mt pv) l.
Proof.
  intros A N. destruct mt as [|c mt]; [congruence|].
  change (replace_from ci r f 0 pv ((c :: mt) ++ l))
    with (match attempt ci r pv ((c :: mt) ++ l) with
          | Some (mt0, g0) =>
              f mt0 g0 ++
              match length mt0 with
              | O => c :: replace_from ci r f 0 (Some c) (mt ++ l)
              | S n => replace_from ci r f n (Some c) (mt ++ l)
              end
          | None => c :: replace_from ci r f 0 (Some c) (mt ++ l)
          end).
  rewrite A. change (length (c :: mt)) with (S (length mt)). cbv iota beta.
  now rewrite replace_from_skip.
Qed.

Lemma replace_from_miss r f a : forall pv l,
  (forall a1 a2, a = a1 ++ a2 -> a2 <> [] -> attempt ci r (prev_after a1 pv) (a2 ++ l) = None) ->
  replace_from ci r f 0 pv (a ++ l) = a ++ replace_from ci r f 0 (prev_after a pv) l.
Proof.
  induction a as [|c a IH]; intros pv l H; [reflexivity|].
  change (replace_from ci r f 0 pv ((c :: a) ++ l))
    with (match attempt ci r pv ((c :: a) ++ l) with
          | Some (mt0, g0) =>
              f mt0 g0 ++
              match length mt0 with
              | O => c :: replace_from ci r f 0 (Some c) (a ++ l)
              | S n => replace_from ci r f n (Some c) (a ++ l)
              end
          | None => c :: replace_from ci r f 0 (Some c) (a ++ l)
          end).
  pose proof (H [] (c :: a) eq_refl ltac:(discriminate)) as H0.
  change (attempt ci r pv ((c :: a) ++ l) = None) in H0. rewrite H0.
  simpl. f_equal. apply IH. intros a1 a2 -> N.
  apply (H (c :: a1) a2 eq_refl N).
Qed.

Lemma replace_from_none r f : forall l pv,
  (forall a1 a2, l = a1 ++ a2 -> attempt ci r (prev_after a1 pv) a2 = None) ->
  replace_from ci r f 0 pv l = l.
Proof.
  intros l pv H.
  rewrite <- (app_nil_r l) at 1. rewrite replace_from_miss.
  - simpl. rewrite (H l [] (eq_sym (app_nil_r l))). now rewrite app_nil_r.
  - intros a1 a2 E N. rewrite app_nil_r. now apply H.
Qed.

Lemma match_from_skip r a : forall pv l,
  match_from ci r (length a) pv (a ++ l) = match_from ci r 0 (prev_after a pv) l.
Proof.
  induction a as [|c a IH]; intros pv l; simpl.
  - now destruct l.
  - apply IH.
Qed.

Lemma match_from_hit r mt g pv l :
  attempt ci r pv (mt ++ l) = Some (mt, g) -> mt <> [] ->
  match_from ci r 0 pv (mt ++ l) = mt :: match_from ci r 0 (prev_after mt pv) l.
Proof.
  intros A N. destruct mt as [|c mt]; [congruence|].
  change (match_from ci r 0 pv ((c :: mt) ++ l))
    with (match attempt ci r pv ((c :: mt) ++ l) with
          | Some (mt0, _) => mt0 :: match_from ci r (Nat.pred (length mt0)) (Some c) (mt ++ l)
          | None => match_from ci r 0 (Some c) (mt ++ l)
          end).
  rewrite A. change (Nat.pred (length (c :: mt))) with (length mt).
  now rewrite match_from_skip.
Qed.

Lemma match_from_miss r a : forall pv l,
  (forall a1 a2, a = a1 ++ a2 -> a2 <> [] -> attempt ci r (prev_after a1 pv) (a2 ++ l) = None) ->
  match_from ci r 0 pv (a ++ l) = match_from ci r 0 (prev_after a pv) l.
Proof.
  induction a as [|c a IH]; intros pv l H; [reflexivity|].
  change (match_from ci r 0 pv ((c :: a) ++ l))
    with (match attempt ci r pv ((c :: a) ++ l) with
          | Some (mt0, _) => mt0 :: match_from ci r (Nat.pred (length mt0)) (Some c) (a ++ l)
          | None => match_from ci r 0 (Some c) (a ++ l)
          end).
  pose proof (H [] (c :: a) eq_refl ltac:(discriminate)) as H0.
  change (attempt ci r pv ((c :: a) ++ l) = None) in H0. rewrite H0.
  apply IH. intros a1 a2 -> N.
  apply (H (c :: a1) a2 eq_refl N).
Qed.

(** A prefix none of whose units can begin a match is copied. *)
Lemma replace_from_rejected r f a l pv :
  nullable r = false -> (forall c, In c a -> first ci r c = false) ->
  replace_from ci r f 0 pv (a ++ l) = a ++ replace_from ci r f 0 (prev_after a pv) l.
Proof.
  intros N F. apply replace_from_miss. intros a1 a2 -> Ha.
  destruct a2 as [|c a2]; [congruence|]. apply attempt_rejected; auto.
  apply F. apply in_or_app. right. now left.
Qed.

End Facts.

Lemma reads_must r c : forall s s',
  reads false r s s' -> must r c = true -> In c (rest s).
Proof.
  induction r; intros s s' R M; simpl in R, M; try discriminate.
  - destruct R as (x & H & E & _). unfold same, canon in H. simpl in H.
    apply N.eqb_eq in H. apply N.eqb_eq in M. rewrite E. left. congruence.
  - destruct R as (s1 & R1 & R2). apply orb_true_iff in M as [M|M].
    + eapply IHr1; eauto.
    + destruct (reads_suffix _ _ _ _ R1) as (cs & E). rewrite E.
      apply in_or_app. right. eapply IHr2; eauto.
  - apply andb_true_iff in M as [M1 M2]. destruct R as [R|R]; eauto.
  - destruct R as (s1 & R & _). eauto.
Qed.

(** A subject without a unit the pattern has to contain is left as it is. *)
Lemma replaceAll_without r f c l :
  must r c = true -> ~ In c l -> replaceAll false r f l = l.
Proof.
  intros M H. apply replace_from_none. intros a1 a2 -> .
  apply attempt_none. intros s' R. apply (reads_must _ c) in R; auto.
  apply H. apply in_or_app. now right.
Qed.

Section Split.

Variable ci : bool.

Lemma split_from_skip r a : forall pv l cur,
  split_from ci r (length a) pv (a ++ l) cur = split_from ci r 0 (prev_after a pv) l cur.
Proof.
  induction a as [|c a IH]; intros pv l cur; simpl.
  - now destruct l.
  - apply IH.
Qed.

(** The pieces of [s.split(/r/)], with the separators put back between
    them, are the subject; [Q sep post] is what is known of a separator and
    of the text behind it. *)
Lemma split_from_weave r (Q : jsstring -> jsstring -> Prop) :
  (forall pv l mt g, attempt ci r pv l = Some (mt, g) ->
     mt <> [] /\ exists post, l = mt ++ post /\ Q mt post) ->
  forall n l, (length l <= n)%nat -> forall pv cur,
    exists seps,
      weave (split_from ci r 0 pv l cur) seps = rev cur ++ l
      /\ length (split_from ci r 0 pv l cur) = S (length seps)
      /\ breaks_ok Q (split_from ci r 0 pv l cur) seps.
Proof.
  intros HQ. induction n as [|n IH]; intros l Hl pv cur.
  - destruct l; [|simpl in Hl; lia]. exists []. simpl. now rewrite app_nil_r.
  - destruct l as [|c t].
    + exists []. simpl. now rewrite app_nil_r.
    + cbn [split_from].
      destruct (attempt ci r pv (c :: t)) as [[mt g]|] eqn:A.
      * destruct (HQ _ _ _ _ A) as (Hne & post & E & Hq).
        destruct mt as [|c' mt']; [congruence|].
        simpl in E. injection E as <- ->. cbn [length].
        rewrite split_from_skip.
        destruct (IH post) with (pv := prev_after mt' (Some c)) (cur := @nil char)
          as (seps & W & L & B).
        { simpl in Hl. rewrite length_app in Hl. lia. }
        exists ((c :: mt') :: seps). simpl in W. cbn [weave breaks_ok length].
        rewrite W, L. split; [reflexivity|]. split; [reflexivity|].
        split; [exact Hq|exact B].
      * destruct (IH t) with (pv := Some c) (cur := c :: cur) as (seps & W & L & B).
        { simpl in Hl. lia. }
        exists seps. rewrite W. simpl. rewrite <- app_assoc. auto.
Qed.

End Split.

Section Context.

Variable ci : bool.

(** Every element of [s.match(/r/g)] stands somewhere in the subject;
    [P mt post] is what is known of a match and of the text behind it. *)
Lemma match_from_context r (P : jsstring -> jsstring -> Prop) subject :
  (forall pv l mt g, attempt ci r pv l = Some (mt, g) ->
     exists post, l = mt ++ post /\ P mt post) ->
  forall l n pv pre, subject = pre ++ l ->
    Forall (fun mt => exists pre' post, subject = pre' ++ mt ++ post /\ P mt post)
           (match_from ci r n pv l).
Proof.
  intros HP. induction l as [|c t IH]; intros n pv pre E.
  - destruct n; simpl; [|constructor].
    destruct (attempt ci r pv []) as [[mt g]|] eqn:A; constructor; auto.
    destruct (HP _ _ _ _ A) as (post & El & Hp). exists pre, post. now rewrite <- El.
  - assert (E' : subject = (pre ++ [c]) ++ t) by now rewrite <- app_assoc.
    destruct n; simpl; [|now apply (IH _ _ (pre ++ [c]))].
    destruct (attempt ci r pv (c :: t)) as [[mt g]|] eqn:A;
      [constructor|]; try now apply (IH _ _ (pre ++ [c])).
    destruct (HP _ _ _ _ A) as (post & El & Hp). exists pre, post. now rewrite <- El.
Qed.

End Context.

End RegexFacts.

(* ================================================================= *)
(** * Properties of strings *)

Module JSFacts.

Definition all_digits (s : jsstring) : Prop := Forall (fun c => is_digit c = true) s.
Definition no_digit (s : jsstring) : Prop := Forall (fun c => is_digit c = false) s.

Lemma eqb_eq (a b : jsstring) : eqb a b = true -> a = b.
Proof. unfold eqb. now destruct (list_eq_dec N.eq_dec a b). Qed.

Lemma is_digit_cases c :
  is_digit c = true -> In c [48; 49; 50; 51; 52; 53; 54; 55; 56; 57].
Proof.
  unfold is_digit, between. rewrite andb_true_iff, !N.leb_le. intros [H1 H2].
  assert (c = 48 \/ c = 49 \/ c = 50 \/ c = 51 \/ c = 52 \/ c = 53 \/ c = 54
          \/ c = 55 \/ c = 56 \/ c = 57) as H by lia.
  simpl. intuition auto.
Qed.

Lemma digit_not_space c : is_digit c = true -> is_space c = false.
Proof.
  intros H. apply is_digit_cases in H. simpl in H.
  repeat (destruct H as [<-|H]; [reflexivity|]). contradiction.
Qed.

Lemma space_not_digit c : is_space c = true -> is_digit c = false.
Proof.
  intros H. destruct (is_digit c) eqn:E; auto.
  apply digit_not_space in E. congruence.
Qed.

Lemma dropWhile_all p ws u :
  Forall (fun c => p c = true) ws -> dropWhile p (ws ++ u) = dropWhile p u.
Proof. induction 1 as [|c ws Hc _ IH]; simpl; auto. now rewrite Hc. Qed.

Lemma dropWhile_Forall (P : char -> Prop) p s : Forall P s -> Forall P (dropWhile p s).
Proof.
  induction 1 as [|c s Hc Hs IH]; simpl; auto.
  destruct (p c); auto.
Qed.

Lemma dropWhile_stop p s :
  match s with c :: _ => p c = false | [] => True end -> dropWhile p s = s.
Proof. destruct s as [|c s]; simpl; auto. now intros ->. Qed.

Lemma trim_leading ws u :
  Forall (fun c => is_space c = true) ws -> trim (ws ++ u) = trim u.
Proof. intros H. unfold trim, trimStart. now rewrite dropWhile_all. Qed.

Lemma trim_Forall (P : char -> Prop) s : Forall P s -> Forall P (trim s).
Proof.
  intros H. unfold trim, trimEnd, trimStart.
  apply Forall_rev, dropWhile_Forall, Forall_rev, dropWhile_Forall, H.
Qed.

(** A run of units of one kind, followed by the end or by a unit of
    another kind, is determined by the text. *)

Lemma run_unique p a : forall b u v,
  Forall (fun c => p c = true) a -> Forall (fun c => p c = true) b ->
  stops p u -> stops p v -> a ++ u = b ++ v -> a = b /\ u = v.
Proof.
  induction a as [|x a IH]; intros b u v Ha Hb Hu Hv E.
  - destruct b as [|y b]; auto. simpl in E. subst u. simpl in Hu.
    inversion Hb; subst. congruence.
  - inversion Ha as [|? ? Hx Ha']; subst.
    destruct b as [|y b].
    + simpl in E. subst v. simpl in Hv. congruence.
    + simpl in E. injection E as -> E. inversion Hb; subst.
      destruct (IH b u v) as [-> ->]; auto.
Qed.

End JSFacts.

(* ================================================================= *)
(** * getInstructionSteps *)

Module StepsFacts.

Import RegexFacts JSFacts.

Lemma same_exact a x : same false a x = true -> x = a.
Proof. unfold same, canon. simpl. intros H. apply N.eqb_eq in H. auto. Qed.

Lemma all_in_digit cs : all_in Digit cs -> all_digits cs.
Proof. exact (fun H => H). Qed.

Lemma all_in_space_no_digit cs : all_in Space cs -> no_digit cs.
Proof.
  intros H. eapply Forall_impl; [|exact H]. simpl. intros c. apply space_not_digit.
Qed.

Lemma all_in_neg_digit cs : all_in (Neg Digit) cs -> no_digit cs.
Proof.
  intros H. eapply Forall_impl; [|exact H]. simpl. intros c Hc.
  now destruct (is_digit c).
Qed.

(** What one match of [numbered] looks like: a number, a period, and text
    without any digit, up to the end or to a digit. *)
Lemma reads_numbered s s' :
  reads false numbered s s' ->
  exists n t,
    rest s = n ++ 46 :: t ++ rest s' /\ n <> [] /\ all_digits n /\ no_digit t
    /\ stops (fun c => negb (is_digit c)) (rest s') /\ cap s' = cap s.
Proof.
  unfold numbered. simpl. 
  intros (s1 & (n & Hn & Ln & E1 & P1 & C1) & s2 & (x & Hx & E2 & P2 & C2)
          & s3 & (sp & Hsp & _ & E3 & P3 & C3) & s4 & (t & Ht & _ & E4 & P4 & C4) & -> & s5 & H5).
  apply same_exact in Hx. subst x.
  exists n, (sp ++ t). repeat split.
  - now rewrite E1, E2, E3, E4, <- app_assoc.
  - intros ->. simpl in Ln. lia.
  - auto.
  - apply Forall_app. split; [now apply all_in_space_no_digit|now apply all_in_neg_digit].
  - destruct H5 as [(s6 & (d & Hd & Ld & E6 & _) & _)|(_ & E)].
    + rewrite E6. inversion Hd as [|c d' Hc]; subst; simpl in *; [lia|]. now rewrite Hc.
    + now rewrite E.
  - congruence.
Qed.

Lemma attempt_numbered_no_digit pv c l :
  is_digit c = false -> attempt false numbered pv (c :: l) = None.
Proof.
  intros Hc. apply attempt_none. intros s' R.
  apply reads_numbered in R as (n & t & E & N & Hn & _).
  destruct n as [|d n]; [congruence|]. simpl in E. injection E as <- _.
  inversion Hn; subst. congruence.
Qed.

Lemma attempt_numbered_end pv : attempt false numbered pv [] = None.
Proof.
  apply attempt_none. intros s' R.
  apply reads_numbered in R as (n & t & E & N & _).
  destruct n; [congruence|discriminate].
Qed.

(** Where the next thing is a marker or the end: the look-ahead holds. *)
Definition at_marker (l : jsstring) : Prop :=
  l = [] \/ exists n u, l = n ++ 46 :: u /\ n <> [] /\ all_digits n.

Lemma at_marker_stops l : at_marker l -> stops (fun c => negb (is_digit c)) l.
Proof.
  intros [->|(n & u & -> & N & Hn)]; simpl; auto.
  destruct n as [|d n]; [congruence|]. inversion Hn; subst. simpl. now rewrite H1.
Qed.

Lemma attempt_numbered_segment pv n t l :
  n <> [] -> all_digits n -> no_digit t -> at_marker l ->
  attempt false numbered pv (n ++ 46 :: t ++ l) = Some (n ++ 46 :: t, None).
Proof.
  intros N Hn Ht Hl.
  destruct (attempt false numbered pv (n ++ 46 :: t ++ l)) as [[mt g]|] eqn:A.
  - apply attempt_sound in A as (s' & R & E & ->).
    apply reads_numbered in R as (n' & t' & E' & N' & Hn' & Ht' & Hs & C).
    simpl in E', C. rewrite C.
    assert (Hd : stops is_digit (46 :: t ++ l)) by reflexivity.
    assert (Hd' : stops is_digit (46 :: t' ++ rest s')) by reflexivity.
    destruct (run_unique is_digit n n' _ _ Hn Hn' Hd Hd' E') as [<- E2].
    injection E2 as E2.
    assert (Hp : forall u, no_digit u -> Forall (fun c => negb (is_digit c) = true) u).
    { intros u Hu. eapply Forall_impl; [|exact Hu]. simpl. now intros c ->. }
    destruct (run_unique (fun c => negb (is_digit c)) t t' l (rest s')
                (Hp _ Ht) (Hp _ Ht') (at_marker_stops _ Hl) Hs E2) as [<- El].
    rewrite <- El in E.
    change (n ++ 46 :: t ++ l) with (n ++ (46 :: t) ++ l) in E.
    rewrite app_assoc in E. apply app_inv_tail in E. now rewrite <- E.
  - exfalso. revert A. 
    apply attempt_complete with (s' := {| prev := prev_after (n ++ 46 :: t) pv; rest := l; cap := None |}).
    assert (Hp : all_in (Neg Digit) t).
    { eapply Forall_impl; [|exact Ht]. simpl. now intros c ->. }
    assert (Ln : forall u : jsstring, u <> [] -> (1 <= length u)%nat).
    { intros [|? ?] Hu; [congruence|simpl; lia]. }
    unfold numbered. simpl.
    exists {| prev := prev_after n pv; rest := 46 :: t ++ l; cap := None |}.
    split; [apply (reads_rep false true); [exact Hn|exact (Ln n N)]|].
    exists {| prev := Some 46; rest := t ++ l; cap := None |}.
    split; [now apply reads_chr|].
    exists {| prev := prev_after [] (Some 46); rest := t ++ l; cap := None |}.
    split; [apply (reads_rep false true 0 Space []); [constructor|simpl; lia]|].
    exists {| prev := prev_after t (Some 46); rest := l; cap := None |}.
    split; [apply (reads_rep false false); [exact Hp|lia]|].
    split.
    { f_equal. unfold prev_after. now rewrite fold_left_app. }
    destruct Hl as [->|(n2 & u & -> & N2 & Hn2)].
    + eexists. right. split; reflexivity.
    + exists {| prev := Some 46; rest := u; cap := None |}. left.
      exists {| prev := prev_after n2 (prev_after t (Some 46)); rest := 46 :: u; cap := None |}.
      split; [apply (reads_rep false true); [exact Hn2|exact (Ln n2 N2)]|now apply reads_chr].
Qed.

Lemma reads_marker s s' :
  reads false marker s s' ->
  exists n sp,
    rest s = n ++ 46 :: sp ++ rest s' /\ n <> [] /\ all_digits n
    /\ Forall (fun c => is_space c = true) sp.
Proof.
  unfold marker. simpl.
  intros (s0 & (-> & _) & s1 & (n & Hn & Ln & E1 & _) & s2 & (x & Hx & E2 & _)
          & (sp & Hsp & _ & E3 & _)).
  apply same_exact in Hx. subst x.
  exists n, sp. repeat split; auto.
  - now rewrite E1, E2, E3.
  - intros ->. simpl in Ln. lia.
Qed.

Lemma replace_first_from_eq r by_ pv l :
  replace_first_from false r by_ pv l =
  match attempt false r pv l with
  | Some (mt, _) => by_ ++ skipn (length mt) l
  | None =>
      match l with
      | c :: t => c :: replace_first_from false r by_ (Some c) t
      | [] => []
      end
  end.
Proof. now destruct l. Qed.

(** Removing the marker leaves the text, up to white space in front. *)
Lemma strip_marker n t :
  n <> [] -> all_digits n ->
  trim (replaceFirst false marker [] (n ++ 46 :: t)) = trim t.
Proof.
  intros N Hn. unfold replaceFirst. rewrite replace_first_from_eq.
  destruct (attempt false marker None (n ++ 46 :: t)) as [[mt g]|] eqn:A.
  - apply attempt_sound in A as (s' & R & E & _).
    apply reads_marker in R as (n' & sp & E' & N' & Hn' & Hsp). simpl in E'.
    assert (Hd : stops is_digit (46 :: t)) by reflexivity.
    assert (Hd' : stops is_digit (46 :: sp ++ rest s')) by reflexivity.
    destruct (run_unique is_digit n n' _ _ Hn Hn' Hd Hd' E') as [<- E2].
    injection E2 as E2. rewrite E at 1.
    rewrite skipn_app, skipn_all, Nat.sub_diag. simpl.
    rewrite E2. now rewrite trim_leading.
  - exfalso. revert A.
    apply attempt_complete with (s' := {| prev := Some 46; rest := t; cap := None |}).
    unfold marker. simpl.
    exists (start None (n ++ 46 :: t)). split; [now split|].
    exists {| prev := prev_after n None; rest := 46 :: t; cap := None |}.
    split; [apply (reads_rep false true); [exact Hn|]|].
    { destruct n; [congruence|simpl; lia]. }
    exists {| prev := Some 46; rest := t; cap := None |}.
    split; [now apply reads_chr|].
    apply (reads_rep false true 0 Space []); [constructor|simpl; lia].
Qed.

Lemma digit_free_Forall s : digit_free s = true <-> no_digit s.
Proof.
  unfold digit_free, no_digit. rewrite forallb_forall, Forall_forall.
  split; intros H c Hc; specialize (H c Hc); now destruct (is_digit c).
Qed.

Lemma digits_only_Forall s : digits_only s = true <-> all_digits s.
Proof. unfold digits_only, all_digits. now rewrite forallb_forall, Forall_forall. Qed.

Lemma attempt_numbered_match pv l mt g :
  attempt false numbered pv l = Some (mt, g) ->
  exists post, l = mt ++ post /\ numbered_match mt post.
Proof.
  intros A. apply attempt_sound in A as (s' & R & E & _).
  apply reads_numbered in R as (n & t & E' & N & Hn & Ht & Hs & _). simpl in E'.
  rewrite E in E'.
  change (n ++ 46 :: t ++ rest s') with (n ++ (46 :: t) ++ rest s') in E'.
  rewrite app_assoc in E'. apply app_inv_tail in E'. subst mt.
  exists (rest s'). split; [exact E|].
  exists n, t. split; [reflexivity|]. split; [exact N|].
  split; [now apply digits_only_Forall|]. split; [now apply digit_free_Forall|].
  split.
  - destruct (rest s') as [|d u]; [now left|right].
    exists d, u. split; auto. simpl in Hs. now destruct (is_digit d).
  - now apply strip_marker.
Qed.

Lemma reads_sentence_break s s' :
  reads false sentence_break s s' ->
  exists sep, rest s = sep ++ rest s' /\ is_break sep (rest s').
Proof.
  unfold sentence_break. simpl.
  intros [(s1 & (x & Hx & E1 & _) & s2 & (ws & Hws & Lws & E2 & _) & -> & s3
           & (u & Hu & E3 & _))
         |(s1 & (x & Hx & E1 & _) & (nl & Hnl & Lnl & E2 & _))];
    apply same_exact in Hx; subst x.
  - exists (46 :: ws). split; [now rewrite E1, E2|]. left.
    exists ws, u, (rest s3). repeat split; auto.
    intros ->. simpl in Lws. lia.
  - exists (10 :: nl). split; [now rewrite E1, E2|]. right.
    exists nl. repeat split.
    + intros ->. simpl in Lnl. lia.
    + eapply Forall_impl; [|exact Hnl]. simpl. intros c Hc. now apply N.eqb_eq.
Qed.

Lemma attempt_sentence_break pv l mt g :
  attempt false sentence_break pv l = Some (mt, g) ->
  mt <> [] /\ exists post, l = mt ++ post /\ is_break mt post.
Proof.
  intros A. apply attempt_sound in A as (s' & R & E & _).
  apply reads_sentence_break in R as (sep & E' & B). simpl in E'.
  rewrite E in E'. apply app_inv_tail in E'. subst sep.
  split; [|eauto].
  destruct B as [(ws & u & t & -> & _)|(nl & -> & _)]; discriminate.
Qed.

(** The pieces the fall-back trims: put back together with the breaks
    between them they are the instructions, and each break is a period,
    white space and then an upper-case letter in front of the next piece, or
    two or more line feeds. *)
Lemma split_sentences instructions :
  exists seps,
    weave (Regex.split false sentence_break instructions) seps = instructions
    /\ length (Regex.split false sentence_break instructions) = S (length seps)
    /\ breaks_ok is_break (Regex.split false sentence_break instructions) seps.
Proof.
  destruct instructions as [|c t].
  - exists []. unfold Regex.split.
    destruct (attempt false sentence_break None []) as [[mt g]|] eqn:A.
    + apply attempt_sentence_break in A as (N & post & E & _).
      destruct mt; [congruence|discriminate].
    + simpl. auto.
  - unfold Regex.split.
    destruct (split_from_weave false sentence_break is_break attempt_sentence_break
                (length (c :: t)) (c :: t) (le_n _) None [])
      as (seps & W & L & B).
    exists seps. auto.
Qed.

End StepsFacts.

(* ================================================================= *)
(** * Claims about the instruction splitter *)

Module StepsClaims.

Import RegexFacts JSFacts StepsFacts.

Lemma numbered_segment_parts seg :
  numbered_segment seg = true ->
  fst seg <> [] /\ all_digits (fst seg) /\ no_digit (snd seg).
Proof.
  unfold numbered_segment. rewrite !andb_true_iff, negb_true_iff.
  intros [[H1 H2] H3]. repeat split.
  - intros E. rewrite E in H1. discriminate.
  - now apply digits_only_Forall.
  - now apply digit_free_Forall.
Qed.

Lemma render_at_marker segs :
  Forall (fun seg => numbered_segment seg = true) segs -> at_marker (render segs).
Proof.
  intros H. destruct H as [|seg segs Hs _]; [now left|right].
  apply numbered_segment_parts in Hs as (N & Hn & _).
  exists (fst seg), (snd seg ++ render segs). repeat split; auto.
  change (render (seg :: segs)) with ((fst seg ++ 46 :: snd seg) ++ render segs).
  now rewrite <- app_assoc.
Qed.

Lemma match_from_segments segs : forall pv,
  Forall (fun seg => numbered_segment seg = true) segs ->
  match_from false numbered 0 pv (render segs) = map (fun seg => fst seg ++ 46 :: snd seg) segs.
Proof.
  induction segs as [|seg segs IH]; intros pv H.
  - change (render []) with (@nil char). cbn [match_from map].
    now rewrite attempt_numbered_end.
  - inversion H as [|? ? Hs Hr]; subst.
    pose proof (numbered_segment_parts _ Hs) as (N & Hn & Ht).
    change (render (seg :: segs)) with ((fst seg ++ 46 :: snd seg) ++ render segs).
    rewrite match_from_hit with (g := None).
    + simpl. f_equal. now apply IH.
    + rewrite <- app_assoc. simpl.
      apply attempt_numbered_segment; auto. now apply render_at_marker.
    + destruct (fst seg); [congruence|discriminate].
Qed.

Lemma match_from_preamble pre l : forall pv,
  no_digit pre ->
  match_from false numbered 0 pv (pre ++ l) = match_from false numbered 0 (prev_after pre pv) l.
Proof.
  intros pv H. apply match_from_miss. intros a1 a2 -> N.
  apply Forall_app in H as [_ H]. destruct a2 as [|c a2]; [congruence|].
  inversion H; subst. now apply attempt_numbered_no_digit.
Qed.

Lemma getInstructionSteps_numbered instructions steps :
  match_from false numbered 0 None instructions = steps ->
  (2 <= length steps)%nat ->
  getInstructionSteps instructions =
    filter (fun step => (0 <? length step)%nat)
           (map (fun step => trim (replaceFirst false marker [] step)) steps).
Proof.
  intros <- H. unfold getInstructionSteps, matchAll.
  destruct (match_from false numbered 0 None instructions) as [|x [|y l]];
    simpl in H; try lia. reflexivity.
Qed.

(** C1 (as amended): on instructions made of a digit-free preamble and
    two or more numbered segments, each a number, a period and a text
    without digits, [getInstructionSteps] returns the text of each segment,
    trimmed, the empty ones dropped.  A number followed by a period inside
    the prose is itself such a marker. *)
Theorem numbered_segments_are_the_steps (pre : jsstring) (segs : list segment) :
  digit_free pre = true ->
  forallb numbered_segment segs = true ->
  (2 <= length segs)%nat ->
  getInstructionSteps (pre ++ render segs) =
    filter (fun step => (0 <? length step)%nat) (map (fun seg => trim (snd seg)) segs).
Proof.
  intros Hpre Hsegs Hlen.
  apply digit_free_Forall in Hpre.
  assert (Hall : Forall (fun seg => numbered_segment seg = true) segs).
  { apply Forall_forall. now apply forallb_forall. }
  rewrite (getInstructionSteps_numbered _ (map (fun seg => fst seg ++ 46 :: snd seg) segs)).
  - f_equal. rewrite map_map. apply map_ext_in.
    intros seg Hin. rewrite Forall_forall in Hall.
    destruct (numbered_segment_parts _ (Hall seg Hin)) as (N & Hn & _).
    now apply strip_marker.
  - now rewrite match_from_preamble, match_from_segments.
  - now rewrite length_map.
Qed.

Lemma numbered_segments_are_the_steps_witness :
  getInstructionSteps (js "1. Mix flour. 2. Bake at 350.") = [js "Mix flour."; js "Bake at"].
Proof.
  exact (numbered_segments_are_the_steps []
           [(js "1", js " Mix flour. "); (js "2", js " Bake at "); (js "350", [])]
           eq_refl eq_refl (le_S _ _ (le_n 2))).
Defined.

(** C1, as stated, fails on its own example: "350." is a marker too, its
    segment is empty, and the step before it ends at "Bake at". *)
Lemma segment_example_differs :
  getInstructionSteps (js "1. Mix flour. 2. Bake at 350.")
    <> [js "Mix flour."; js "Bake at 350."].
Proof. vm_compute. discriminate. Qed.

(** C10: on the numbered path, no step contains a decimal digit: every
    match of the numbered pattern is a number, a period and a text without
    digits that runs to the end of the instructions or to the first digit
    behind the marker, and the steps are these texts, trimmed. *)
Theorem numbered_steps_have_no_digit (instructions : jsstring) (steps : list jsstring) :
  matchAll false numbered instructions = Some steps ->
  (1 < length steps)%nat ->
  Forall (fun step => digit_free step = true) (getInstructionSteps instructions)
  /\ Forall (fun mt => exists pre post,
                         instructions = pre ++ mt ++ post /\ numbered_match mt post)
            steps
  /\ (forall step, In step (getInstructionSteps instructions) ->
        exists mt n t,
          In mt steps /\ mt = n ++ js "." ++ t /\ digit_free t = true /\ step = trim t).
Proof.
  intros Hm Hlen.
  assert (Hsteps : steps = match_from false numbered 0 None instructions).
  { unfold matchAll in Hm. destruct (match_from false numbered 0 None instructions);
      [discriminate|now injection Hm]. }
  assert (Hall : Forall (fun mt => exists pre post,
                           instructions = pre ++ mt ++ post /\ numbered_match mt post)
                        steps).
  { rewrite Hsteps.
    apply (match_from_context false numbered numbered_match instructions
             attempt_numbered_match instructions 0%nat None []). reflexivity. }
  assert (Hsrc : forall step, In step (getInstructionSteps instructions) ->
            exists mt n t,
              In mt steps /\ mt = n ++ js "." ++ t /\ digit_free t = true /\ step = trim t).
  { intros step Hin. unfold getInstructionSteps in Hin. rewrite Hm in Hin.
    apply Nat.ltb_lt in Hlen. rewrite Hlen in Hin.
    apply filter_In in Hin as [Hin _]. apply in_map_iff in Hin as (mt & <- & Hin).
    rewrite Forall_forall in Hall.
    destruct (Hall mt Hin) as (pre & post & _ & n & t & E & _ & _ & Ht & _ & Hs).
    exists mt, n, t. auto. }
  split; [|split; auto].
  apply Forall_forall. intros step Hin.
  destruct (Hsrc step Hin) as (mt & n & t & _ & _ & Ht & ->).
  apply digit_free_Forall, trim_Forall. now apply digit_free_Forall.
Qed.

Lemma numbered_steps_have_no_digit_witness :
  Forall (fun step => digit_free step = true)
         (getInstructionSteps (js "1. Mix 2 eggs. 2. Bake. 3. Eat.")).
Proof.
  apply (numbered_steps_have_no_digit _ [js "2. Bake. "; js "3. Eat."]).
  - vm_compute. reflexivity.
  - simpl. lia.
Defined.

Lemma with_period_ends step : endsWith (js ".") (with_period step) = true.
Proof.
  unfold with_period. destruct (endsWith (js ".") step) eqn:E; auto.
  unfold endsWith. rewrite rev_app_distr. simpl. reflexivity.
Qed.

Lemma fallback_taken instructions :
  (length (numberedMatches instructions) <= 1)%nat ->
  getInstructionSteps instructions = bySentences instructions.
Proof.
  unfold numberedMatches, getInstructionSteps.
  destruct (matchAll false numbered instructions) as [[|x [|y l]]|]; simpl; auto. lia.
Qed.

(** C2 (as amended): when the numbered strategy finds at most one match,
    the instructions are cut at the breaks (a period, white space and an
    upper-case letter ahead; or two or more line feeds), the pieces are
    trimmed, and the steps are the trimmed pieces of more than 20 units (21
    or more), in order, each ending in a period, one being appended where it
    was missing; a candidate of 20 units or fewer is dropped. *)
Theorem fallback_keeps_candidates_over_20 (instructions : jsstring) :
  (length (numberedMatches instructions) <= 1)%nat ->
  getInstructionSteps instructions =
    map with_period (filter (fun c => (21 <=? length c)%nat) (candidates instructions))
  /\ (exists pieces seps,
        candidates instructions = map trim pieces
        /\ weave pieces seps = instructions
        /\ breaks_ok is_break pieces seps)
  /\ (forall c, In c (candidates instructions) -> (21 <= length c)%nat ->
        In (with_period c) (getInstructionSteps instructions))
  /\ (forall step, In step (getInstructionSteps instructions) ->
        endsWith (js ".") step = true
        /\ exists c, In c (candidates instructions) /\ (21 <= length c)%nat
                     /\ step = with_period c).
Proof.
  intros H. rewrite (fallback_taken _ H).
  assert (E : bySentences instructions =
              map with_period (filter (fun c => (21 <=? length c)%nat) (candidates instructions))).
  { unfold bySentences, candidates. f_equal. }
  rewrite E. split; [reflexivity|]. split; [|split].
  - destruct (split_sentences instructions) as (seps & W & _ & B).
    exists (Regex.split false sentence_break instructions), seps. auto.
  - intros c Hc Hlen. apply in_map, filter_In. split; auto. now apply Nat.leb_le.
  - intros step Hin. apply in_map_iff in Hin as (c & <- & Hin).
    apply filter_In in Hin as [Hin Hlen]. split; [apply with_period_ends|].
    exists c. repeat split; auto. now apply Nat.leb_le.
Qed.

Lemma fallback_keeps_candidates_over_20_witness :
  getInstructionSteps (js "Mix the flour gently. Bake it for a very long time. Eat")
    = [js "Bake it for a very long time."]
  /\ candidates (js "Mix the flour gently. Bake it for a very long time. Eat")
      = [js "Mix the flour gently"; js "Bake it for a very long time"; js "Eat"].
Proof.
  split; [|reflexivity].
  destruct (fallback_keeps_candidates_over_20
              (js "Mix the flour gently. Bake it for a very long time. Eat")
              (le_S _ _ (le_n 0))) as [E _].
  exact E.
Defined.

(** C2, as stated, fails at 20: a candidate of exactly 20 units is
    dropped, the test being [step.length > 20]. *)
Lemma candidate_of_20_is_dropped :
  let instructions := js "Mix the flour gently. Bake it for a very long time. Eat" in
  let c := js "Mix the flour gently" in
  numberedMatches instructions = []
  /\ In c (candidates instructions)
  /\ length c = 20%nat
  /\ ~ In (with_period c) (getInstructionSteps instructions).
Proof.
  vm_compute. repeat split; auto.
  intros [H|[]]. discriminate.
Qed.

End StepsClaims.

(* ================================================================= *)
(** * expandUnits on measures that begin with a number *)

Module UnitsFacts.

Import RegexFacts JSFacts.

Lemma digit_units_spec c : is_digit c = true <-> In c digit_units.
Proof.
  split; [apply is_digit_cases|].
  unfold digit_units. simpl. intros H.
  repeat (destruct H as [<-|H]; [reflexivity|]). contradiction.
Qed.

Lemma last_digit ds : forall pv,
  ds <> [] -> all_digits ds -> exists d, prev_after ds pv = Some d /\ In d digit_units.
Proof.
  induction ds as [|c ds IH]; intros pv N H; [congruence|].
  inversion H as [|? ? Hc Hds]; subst.
  destruct ds as [|c' ds].
  - exists c. split; auto. now apply digit_units_spec.
  - apply (IH (Some c)); [discriminate|auto].
Qed.

Lemma prev_after_app a b pv : prev_after (a ++ b) pv = prev_after b (prev_after a pv).
Proof. unfold prev_after. apply fold_left_app. Qed.

(** One abbreviation pass. *)
Lemma run_pass_number p tail ds :
  pass_ok p tail = true -> ds <> [] -> all_digits ds ->
  run_pass (ds ++ tail) p = ds ++ pass_tail 48 tail p.
Proof.
  destruct p as [[ci r] w]. unfold pass_ok, run_pass, replaceAll.
  rewrite andb_true_iff, negb_true_iff, forallb_forall. intros [N F] Hne Hds.
  rewrite replace_from_rejected; auto.
  - f_equal. destruct (last_digit ds None Hne Hds) as (d & -> & Hd).
    pose proof (F d Hd) as E. apply andb_true_iff in E as [_ E]. now apply eqb_eq in E.
  - intros c Hc. unfold all_digits in Hds. rewrite Forall_forall in Hds.
    assert (E : In c digit_units) by now apply digit_units_spec, Hds.
    apply F, andb_true_iff in E as [E _]. now apply negb_true_iff.
Qed.

Lemma run_passes_number ps : forall tail ds,
  passes_ok ps tail = true -> ds <> [] -> all_digits ds ->
  fold_left run_pass ps (ds ++ tail) = ds ++ passes_tail ps tail.
Proof.
  induction ps as [|p ps IH]; intros tail ds H Hne Hds; [reflexivity|].
  simpl in H. apply andb_true_iff in H as [H1 H2].
  simpl. rewrite run_pass_number by auto. now apply IH.
Qed.

Lemma abbreviations_number tail ds :
  passes_ok abbreviation_passes tail = true -> ds <> [] -> all_digits ds ->
  abbreviations (ds ++ tail) = ds ++ abbreviations_tail tail.
Proof. apply (run_passes_number abbreviation_passes). Qed.

(** The fractions stage leaves a text without a slash as it is. *)
Lemma fractions_without_slash s : ~ In 47 s -> fractions s = s.
Proof.
  intros H. unfold fractions.
  rewrite (replaceAll_without (lit "1/2") _ 47 s) by (try reflexivity; exact H).
  rewrite (replaceAll_without (lit "1/3") _ 47 s) by (try reflexivity; exact H).
  rewrite (replaceAll_without (lit "2/3") _ 47 s) by (try reflexivity; exact H).
  rewrite (replaceAll_without (lit "1/4") _ 47 s) by (try reflexivity; exact H).
  rewrite (replaceAll_without (lit "3/4") _ 47 s) by (try reflexivity; exact H).
  now rewrite (replaceAll_without (lit "1/8") _ 47 s) by (try reflexivity; exact H).
Qed.

Lemma existsb_slash tail ds :
  all_digits ds -> existsb (N.eqb 47) tail = false -> ~ In 47 (ds ++ tail).
Proof.
  intros Hds Ht Hin. apply in_app_or in Hin as [Hin|Hin].
  - unfold all_digits in Hds. rewrite Forall_forall in Hds.
    specialize (Hds _ Hin). discriminate.
  - assert (existsb (N.eqb 47) tail = true); [|congruence].
    apply existsb_exists. exists 47. split; auto.
Qed.

(** One attempt of a plural pattern on a run of digits and what follows. *)
Lemma attempt_counted x pv ds d tail :
  nullable (counted_after x) = false -> groupless (counted_after x) = true ->
  (forall c, is_digit c = true -> first true (counted_after x) c = false) ->
  ds <> [] -> all_digits ds -> prev_after ds pv = Some d -> stops is_digit tail ->
  attempt true (counted x) pv (ds ++ tail) =
    match m true (counted_after x) Some (start (Some d) tail) with
    | Some s0 => Some (ds ++ consumed (start (Some d) tail) s0, Some ds)
    | None => None
    end.
Proof.
  intros N G F Hne Hds Hd Ht. unfold attempt.
  change (counted x) with (Seq (Grp (Rep true 1 Digit)) (counted_after x)).
  unfold start at 1. cbn [m prev rest cap].
  rewrite rep_greedy_run; auto.
  - rewrite Hd. cbn [prev rest cap].
    rewrite (consumed_app {| prev := pv; rest := ds ++ tail; cap := None |}
               {| prev := Some d; rest := tail; cap := None |} ds) by reflexivity.
    rewrite m_groupless by exact G.
    destruct (m true (counted_after x) Some (start (Some d) tail)) as [s0|] eqn:E; auto.
    cbn [option_map].
    apply m_sound in E as (s1 & R & [= ->]).
    destruct (reads_suffix _ _ _ _ R) as (cs & Hcs). simpl in Hcs.
    rewrite (consumed_app (start (Some d) tail) s0 cs Hcs).
    match goal with |- Some (?c, _) = _ => assert (Hc : c = ds ++ cs) end.
    { apply consumed_app. simpl. now rewrite Hcs at 1; rewrite app_assoc. }
    now rewrite Hc.
  - intros s c t E Hc. apply (m_rejected true _ _ _ c t); auto.
  - destruct ds; [congruence|simpl; lia].
Qed.

(** One plural pass. *)
Lemma counted_number x one tail ds :
  counted_ok x one tail = true -> ds <> [] -> all_digits ds ->
  (parseInt ds =? 1) = one ->
  replaceAll true (counted x) plural (ds ++ tail) = ds ++ counted_tail x one 48 tail.
Proof.
  unfold counted_ok.
  rewrite !andb_true_iff, negb_true_iff, forallb_forall.
  intros [[[N G] B] F] Hne Hds Hone.
  assert (Ht : stops is_digit tail).
  { destruct tail; simpl in *; auto. now apply negb_true_iff. }
  assert (Hf : forall c, is_digit c = true -> first true (counted_after x) c = false).
  { intros c Hc. apply digit_units_spec in Hc.
    apply F, andb_true_iff in Hc as [E _]. now apply negb_true_iff. }
  destruct (last_digit ds None Hne Hds) as (d & Hd & Hin).
  pose proof (F d Hin) as E. apply andb_true_iff in E as [_ E].
  apply eqb_eq in E. rewrite <- E.
  unfold counted_tail, replaceAll.
  destruct (m true (counted_after x) Some (start (Some d) tail)) as [s0|] eqn:M.
  - pose proof (attempt_counted x None ds d tail N G Hf Hne Hds Hd Ht) as A.
    rewrite M in A.
    assert (Hs : tail = consumed (start (Some d) tail) s0 ++ rest s0).
    { apply m_sound in M as (s1 & R & [= ->]).
      destruct (reads_suffix _ _ _ _ R) as (cs & Hcs). simpl in Hcs.
      now rewrite (consumed_app (start (Some d) tail) s0 cs Hcs). }
    set (a := consumed (start (Some d) tail) s0) in *.
    rewrite Hs at 1. rewrite Hs in A at 1. rewrite app_assoc in *.
    rewrite (replace_from_hit true _ plural _ _ _ _ A).
    + unfold plural. rewrite Hone, prev_after_app, Hd.
      destruct one; now rewrite <- !app_assoc.
    + destruct ds; [congruence|discriminate].
  - rewrite replace_from_miss.
    + now rewrite Hd.
    + intros a1 a2 -> Ha2. apply Forall_app in Hds as [_ H2].
      rewrite (attempt_counted x _ a2 d tail N G Hf Ha2 H2); [now rewrite M| |auto].
      now rewrite <- prev_after_app.
Qed.

Lemma plurals_number one tail ds :
  counted_ok "teaspoon" one tail = true ->
  counted_ok "tablespoon" one (counted_tail "teaspoon" one 48 tail) = true ->
  counted_ok "ounce" one
    (counted_tail "tablespoon" one 48 (counted_tail "teaspoon" one 48 tail)) = true ->
  ds <> [] -> all_digits ds -> (parseInt ds =? 1) = one ->
  plurals (ds ++ tail) = ds ++ plurals_tail one tail.
Proof.
  intros H1 H2 H3 Hne Hds Hone. unfold plurals, plurals_tail.
  rewrite (counted_number "teaspoon" one tail ds) by auto.
  rewrite (counted_number "tablespoon" one _ ds) by auto.
  now rewrite (counted_number "ounce" one _ ds) by auto.
Qed.

Lemma dropWhile_app_stop p a b :
  stops p b -> dropWhile p (a ++ b) = dropWhile p a ++ b.
Proof.
  intros Hb. induction a as [|c a IH]; simpl.
  - now apply dropWhile_stop.
  - now destruct (p c).
Qed.

Lemma trim_number ds tail :
  ds <> [] -> all_digits ds -> trim (ds ++ tail) = ds ++ trimEnd tail.
Proof.
  intros Hne Hds. unfold trim, trimStart, trimEnd.
  destruct ds as [|c ds]; [congruence|].
  inversion Hds as [|? ? Hc Hds']; subst.
  simpl dropWhile at 2. rewrite (digit_not_space c Hc).
  change (c :: ds ++ tail) with ((c :: ds) ++ tail).
  rewrite rev_app_distr, dropWhile_app_stop.
  - now rewrite rev_app_distr, rev_involutive.
  - destruct (last_digit (c :: ds) None Hne Hds) as (d & Hd & Hin).
    apply digit_units_spec in Hin.
    unfold prev_after in Hd. rewrite <- fold_left_rev_right in Hd.
    destruct (rev (c :: ds)) as [|e l]; simpl in *; auto.
    injection Hd as ->. now apply digit_not_space.
Qed.

(** [expandUnits] on a number followed by [tail]. *)
Theorem expandUnits_number one tail ds :
  measure_ok one tail = true -> ds <> [] -> all_digits ds ->
  (parseInt ds =? 1) = one ->
  expandUnits (ds ++ tail) = ds ++ measure_tail one tail.
Proof.
  unfold measure_ok. rewrite !andb_true_iff, negb_true_iff.
  intros [[Hs Hp] [[H1 H2] H3]] Hne Hds Hone.
  unfold expandUnits. destruct (ds ++ tail) eqn:E.
  - destruct ds; [congruence|discriminate].
  - rewrite <- E. clear E.
    rewrite fractions_without_slash by now apply existsb_slash.
    rewrite abbreviations_number by auto.
    rewrite (plurals_number one) by auto.
    now rewrite trim_number.
Qed.

End UnitsFacts.

(* ================================================================= *)
(** * Claims about expandUnits *)

Module UnitsClaims.

Import RegexFacts JSFacts StepsFacts UnitsFacts.


(** *** The number in front *)









Lemma representative_measures_checked :
  forallb (fun x => eqb (expandUnits (expandUnits x)) (expandUnits x))
          representative_measures = true.
Proof. vm_compute. reflexivity. Qed.

Lemma representative_tails_checked :
  forallb idempotent_tail representative_tails = true.
Proof. vm_compute. reflexivity. Qed.

Lemma expanded_tails_checked : forallb fixed_tail expanded_tails = true.
Proof. vm_compute. reflexivity. Qed.

Lemma idempotent_tail_sound tail ds :
  idempotent_tail tail = true -> ds <> [] -> all_digits ds ->
  expandUnits (expandUnits (ds ++ tail)) = expandUnits (ds ++ tail).
Proof.
  unfold idempotent_tail. rewrite forallb_forall. intros H N Hds.
  assert (Hb : In (parseInt ds =? 1) [true; false])
    by (destruct (parseInt ds =? 1); simpl; auto).
  apply H in Hb. apply andb_true_iff in Hb as [Hb H3].
  apply andb_true_iff in Hb as [H1 H2].
  rewrite (expandUnits_number _ tail ds H1 N Hds eq_refl).
  rewrite (expandUnits_number _ _ ds H2 N Hds eq_refl).
  now rewrite (eqb_eq _ _ H3).
Qed.

Lemma fixed_tail_sound tail ds :
  fixed_tail tail = true -> ds <> [] -> all_digits ds ->
  expandUnits (ds ++ tail) = ds ++ tail.
Proof.
  unfold fixed_tail. rewrite forallb_forall. intros H N Hds.
  assert (Hb : In (parseInt ds =? 1) [true; false])
    by (destruct (parseInt ds =? 1); simpl; auto).
  apply H in Hb. apply andb_true_iff in Hb as [H1 H2].
  rewrite (expandUnits_number _ tail ds H1 N Hds eq_refl).
  now rewrite (eqb_eq _ _ H2).
Qed.

(** C8: on the representative measures, expanding twice is expanding once:
    on each measure of [representative_measures], and on every number
    followed by one of [representative_tails]; and a number followed by an
    expanded word ([expanded_tails]) is left exactly as it is, so nothing is
    pluralized twice or expanded again. *)
Theorem expandUnits_idempotent_on_representatives :
  (forall x, In x representative_measures ->
     expandUnits (expandUnits x) = expandUnits x)
  /\ (forall ds tail, ds <> [] -> digits_only ds = true -> In tail representative_tails ->
        expandUnits (expandUnits (ds ++ tail)) = expandUnits (ds ++ tail))
  /\ (forall ds tail, ds <> [] -> digits_only ds = true -> In tail expanded_tails ->
        expandUnits (ds ++ tail) = ds ++ tail).
Proof.
  split; [|split].
  - intros x Hx. pose proof representative_measures_checked as H.
    rewrite forallb_forall in H. now apply eqb_eq, H.
  - intros ds tail N Hds Hin. pose proof representative_tails_checked as H.
    rewrite forallb_forall in H.
    apply idempotent_tail_sound; auto. now apply digits_only_Forall.
  - intros ds tail N Hds Hin. pose proof expanded_tails_checked as H.
    rewrite forallb_forall in H.
    apply fixed_tail_sound; auto. now apply digits_only_Forall.
Qed.

Lemma expandUnits_idempotent_on_representatives_witness :
  expandUnits (expandUnits (js "1/2 cup")) = expandUnits (js "1/2 cup")
  /\ expandUnits (expandUnits (js "2 tsp")) = expandUnits (js "2 tsp")
  /\ expandUnits (js "2 teaspoons") = js "2 teaspoons".
Proof.
  destruct expandUnits_idempotent_on_representatives as (H1 & H2 & H3).
  split; [|split].
  - apply H1. simpl. auto.
  - apply (H2 (js "2") (js " tsp")); [discriminate|reflexivity|simpl; auto].
  - apply (H3 (js "2") (js " teaspoons")); [discriminate|reflexivity|simpl; auto].
Defined.

(** *** Fractions *)

(** [/p\/q/] for single units [p] and [q]. *)
Definition lit3 (p q : char) : regex := Seq (Chr p) (Seq (Chr 47) (Chr q)).

Lemma reads_lit3 p q s s' :
  reads false (lit3 p q) s s' -> rest s = p :: 47 :: q :: rest s'.
Proof.
  simpl. intros (s1 & (x & Hx & E1 & _) & s2 & (y & Hy & E2 & _) & (z & Hz & E3 & _)).
  apply same_exact in Hx, Hy, Hz. subst. now rewrite E1, E2, E3.
Qed.

Lemma attempt_lit3 p q pv t :
  attempt false (lit3 p q) pv (p :: 47 :: q :: t) = Some ([p; 47; q], None).
Proof.
  unfold attempt.
  assert (H : m false (lit3 p q) Some (start pv (p :: 47 :: q :: t))
              = Some {| prev := Some q; rest := t; cap := None |}).
  { unfold lit3. cbn [m start rest prev cap].
    unfold same, canon. simpl andb. cbv iota. now rewrite !N.eqb_refl. }
  rewrite H.
  now rewrite (consumed_app (start pv (p :: 47 :: q :: t)) _ [p; 47; q]) by reflexivity.
Qed.

Lemma slash_free_not_in s : slash_free s = true <-> ~ In 47 s.
Proof.
  unfold slash_free. rewrite negb_true_iff. split.
  - intros H Hin. assert (existsb (N.eqb 47) s = true); [|congruence].
    apply existsb_exists. exists 47. auto.
  - intros H. destruct (existsb (N.eqb 47) s) eqn:E; auto.
    apply existsb_exists in E as (c & Hc & E). apply N.eqb_eq in E. subst. contradiction.
Qed.

(** The only slash of [a ++ x :: 47 :: y :: b]. *)
Lemma only_slash a : forall a1 c0 t1 x y b,
  ~ In 47 a -> x <> 47 -> y <> 47 -> ~ In 47 b ->
  a1 ++ c0 :: 47 :: t1 = a ++ x :: 47 :: y :: b ->
  a1 = a /\ c0 = x /\ t1 = y :: b.
Proof.
  induction a as [|h a IH]; intros a1 c0 t1 x y b Ha Hx Hy Hb E.
  - destruct a1 as [|e a1]; simpl in E.
    + injection E as -> ->. auto.
    + injection E as -> E. destruct a1 as [|e' a1]; simpl in E.
      * injection E as -> E. congruence.
      * injection E as -> E. exfalso.
        assert (Hin : In 47 (y :: b)).
        { rewrite <- E. apply in_or_app. right. right. now left. }
        destruct Hin as [Hin|Hin]; auto.
  - destruct a1 as [|e a1]; simpl in E.
    + injection E as -> E. exfalso. destruct a as [|h' a]; simpl in E.
      * injection E as E _. auto.
      * injection E as E _. apply Ha. right. left. auto.
    + injection E as -> E.
      destruct (IH a1 c0 t1 x y b) as (-> & -> & ->); auto.
      intros Hin. apply Ha. now right.
Qed.

Lemma fraction_pass_other p q f a x y b :
  p <> x \/ q <> y ->
  ~ In 47 a -> x <> 47 -> y <> 47 -> ~ In 47 b ->
  replaceAll false (lit3 p q) f (a ++ x :: 47 :: y :: b) = a ++ x :: 47 :: y :: b.
Proof.
  intros D Ha Hx Hy Hb. apply replace_from_none. intros a1 a2 E.
  apply attempt_none. intros s' R. apply reads_lit3 in R. simpl in R.
  rewrite R in E.
  destruct (only_slash a a1 p (q :: rest s') x y b Ha Hx Hy Hb (eq_sym E))
    as (_ & -> & [= -> _]).
  destruct D; congruence.
Qed.

Lemma fraction_pass_hit x y g a b :
  ~ In 47 a -> x <> 47 -> y <> 47 -> ~ In 47 b ->
  replaceAll false (lit3 x y) (by_ [g]) (a ++ x :: 47 :: y :: b) = a ++ g :: b.
Proof.
  intros Ha Hx Hy Hb. unfold replaceAll. rewrite replace_from_miss.
  - f_equal. change (x :: 47 :: y :: b) with ([x; 47; y] ++ b).
    rewrite (replace_from_hit false _ _ _ None) by (try apply attempt_lit3; discriminate).
    unfold by_. simpl. f_equal. apply replace_from_none. intros b1 b2 ->.
    apply attempt_none. intros s' R. apply reads_lit3 in R. simpl in R.
    apply Hb. rewrite R. apply in_or_app. right. right. now left.
  - intros a1 a2 -> N. apply attempt_none. intros s' R.
    apply reads_lit3 in R. simpl in R.
    destruct a2 as [|c a2]; [congruence|]. simpl in R. injection R as -> R.
    destruct a2 as [|c' a2]; simpl in R; injection R as R _.
    + congruence.
    + apply Ha. apply in_or_app. right. right. left. auto.
Qed.

Lemma fraction_pass_after p q f s :
  ~ In 47 s -> replaceAll false (lit3 p q) f s = s.
Proof. intros H. apply (replaceAll_without _ _ 47); auto. simpl. apply orb_true_r. Qed.

Ltac fraction_pass Hg :=
  match goal with
  | |- context [replaceAll false (lit3 ?p ?q) (by_ [?g]) (?a ++ ?x :: 47 :: ?y :: ?b)] =>
      first
        [ rewrite (fraction_pass_hit p q g a b) by (auto; discriminate)
        | rewrite (fraction_pass_other p q (by_ [g]) a x y b)
            by (auto; try discriminate; (left; discriminate) || (right; discriminate)) ]
  | |- context [replaceAll false (lit3 ?p ?q) ?f (?a ++ ?g :: ?b)] =>
      rewrite (fraction_pass_after p q f (a ++ g :: b)) by (apply Hg; simpl; auto 10)
  end.

Lemma fractions_at x y g a b :
  In (x, y, g) [ (49, 50, ONE_HALF); (49, 51, ONE_THIRD); (50, 51, TWO_THIRDS);
                 (49, 52, ONE_QUARTER); (51, 52, THREE_QUARTERS); (49, 56, ONE_EIGHTH) ] ->
  ~ In 47 a -> ~ In 47 b ->
  fractions (a ++ x :: 47 :: y :: b) = a ++ g :: b.
Proof.
  intros Hin Ha Hb.
  assert (Hg : forall g', In g' [ONE_HALF; ONE_THIRD; TWO_THIRDS; ONE_QUARTER;
                                 THREE_QUARTERS; ONE_EIGHTH] -> ~ In 47 (a ++ g' :: b)).
  { intros g' Hg' H. apply in_app_or in H as [H|[H|H]]; auto.
    subst g'. simpl in Hg'. repeat (destruct Hg' as [Hg'|Hg']; [discriminate|]). auto. }
  unfold fractions.
  change (lit "1/2") with (lit3 49 50). change (lit "1/3") with (lit3 49 51).
  change (lit "2/3") with (lit3 50 51). change (lit "1/4") with (lit3 49 52).
  change (lit "3/4") with (lit3 51 52). change (lit "1/8") with (lit3 49 56).
  simpl in Hin.
  repeat (destruct Hin as [Hin|Hin]; [injection Hin as <- <- <-; repeat fraction_pass Hg; reflexivity|]).
  contradiction.
Qed.

Lemma fractions_of_table f g a b :
  In (f, g) fraction_table -> slash_free a = true -> slash_free b = true ->
  fractions (a ++ f ++ b) = a ++ g :: b.
Proof.
  intros Hin Ha Hb. apply slash_free_not_in in Ha, Hb.
  simpl in Hin.
  repeat (destruct Hin as [Hin|Hin];
          [injection Hin as <- <-; apply (fractions_at _ _ _ a b); simpl; auto 10|]).
  contradiction.
Qed.

(** C9: the six ASCII fractions become their glyphs, in the first stage of
    [expandUnits], before the abbreviations and the plurals are looked at;
    the empty measure is returned as it is. *)
Theorem fractions_become_glyphs :
  expandUnits [] = []
  /\ expandUnits (js "1/2 cup") = ONE_HALF :: js " cup"
  /\ (forall f g, In (f, g) fraction_table -> expandUnits f = [g])
  /\ (forall f g a b,
        In (f, g) fraction_table -> slash_free a = true -> slash_free b = true ->
        fractions (a ++ f ++ b) = a ++ g :: b)
  /\ (forall c s,
        expandUnits (c :: s) = trim (plurals (abbreviations (fractions (c :: s)))))
  /\ expandUnits (js "1/2 tsp") = ONE_HALF :: js " teaspoon".
Proof.
  split; [reflexivity|].
  split; [vm_compute; reflexivity|].
  split.
  { intros f g Hin. simpl in Hin.
    repeat (destruct Hin as [Hin|Hin]; [injection Hin as <- <-; vm_compute; reflexivity|]).
    contradiction. }
  split; [exact fractions_of_table|].
  split; [reflexivity|vm_compute; reflexivity].
Qed.

Lemma fractions_become_glyphs_witness :
  expandUnits (js "3/4") = [THREE_QUARTERS]
  /\ fractions (js "about 1/2 cup") = js "about " ++ ONE_HALF :: js " cup".
Proof.
  destruct fractions_become_glyphs as (_ & _ & H3 & H4 & _).
  split.
  - apply H3. simpl. auto 10.
  - apply (H4 (js "1/2") ONE_HALF (js "about ") (js " cup")); [simpl; auto|reflexivity|reflexivity].
Defined.

End UnitsClaims.

(* ================================================================= *)
(** * Claims about the recipe service *)

Module ServiceClaims.

Import JSFacts.

(** *** The random index *)

Lemma denom_positive (r : unit_interval) : 0 < denom r.
Proof. unfold denom. apply N.neq_0_lt_0, N.pow_nonzero. discriminate. Qed.

(** Floors of a number by a unit and by a multiple of the unit. *)
Lemma between_floors q c t j y hi x :
  q = c * t * j + y -> y < c * t -> q = t * hi + x -> x < t ->
  j * c <= hi /\ hi + 1 <= (j + 1) * c.
Proof.
  intros Eq Hy Et Hx. split.
  - assert (t * (j * c) < t * (hi + 1)) by lia.
    apply N.mul_lt_mono_pos_l in H; lia.
  - assert (t * hi < t * ((j + 1) * c)) by lia.
    apply N.mul_lt_mono_pos_l in H; lia.
Qed.

Lemma floor_of_multiple R d i z k t c :
  R = d * i + z -> z < d -> R = k * t -> d = c * t -> k + 1 <= (i + 1) * c.
Proof.
  intros E Hz Ek Ed.
  assert (t * k < t * ((i + 1) * c)) by lia.
  apply N.mul_lt_mono_pos_l in H; lia.
Qed.

Lemma floor_between R d i z j :
  R = d * i + z -> z < d -> j * d <= R -> R <= (j + 1) * d ->
  j <= i <= j + 1 /\ (i = j + 1 <-> R = (j + 1) * d).
Proof.
  intros E Hz L U.
  assert (d * j < d * (i + 1)) by lia.
  apply N.mul_lt_mono_pos_l in H; [|lia].
  assert (i <= j + 1).
  { destruct (N.le_gt_cases i (j + 1)); auto.
    assert (d * (j + 2) <= d * i) by (apply N.mul_le_mono_l; lia). lia. }
  split; [lia|]. split.
  - intros ->. lia.
  - intros ->. assert (d * i <= d * (j + 1)) by lia.
    assert (d <> 0) by lia.
    assert (d * (j + 1) < d * (i + 1)) by lia.
    apply N.mul_lt_mono_pos_l in H3; lia.
Qed.

(** The bits beyond 53: how many there are, by the size of the number. *)
Lemma size_beyond q :
  N.size q - 53 <> 0 ->
  2 ^ (N.size q - 53) = 2 * 2 ^ (N.size q - 53 - 1)
  /\ 2 ^ (N.size q - 53 - 1) * 2 ^ 53 <= q < 2 ^ (N.size q - 53) * 2 ^ 53.
Proof.
  intros Hs. set (s := N.size q - 53) in *.
  assert (E : N.size q = s - 1 + 54) by lia.
  assert (q <> 0) by (intros ->; simpl in *; lia).
  split.
  - replace s with (N.succ (s - 1)) at 1 by lia. now rewrite N.pow_succ_r'.
  - pose proof (N.size_gt q) as G. pose proof (N.size_log2 q ltac:(auto)) as L.
    pose proof (N.log2_spec q ltac:(lia)) as [Lo _].
    replace (N.log2 q) with (s - 1 + 53) in Lo by lia.
    rewrite N.pow_add_r in Lo.
    replace (N.size q) with (s + 53) in G by lia.
    rewrite N.pow_add_r in G. lia.
Qed.

(** The rounded number is a multiple of [2^s] next to [q], at most half of
    [2^s] away from it. *)
Lemma round53_spec q :
  let s := N.size q - 53 in
  (round53 q = q / 2 ^ s * 2 ^ s \/ round53 q = (q / 2 ^ s + 1) * 2 ^ s)
  /\ 2 * round53 q <= 2 * q + 2 ^ s
  /\ 2 * q <= 2 * round53 q + 2 ^ s
  /\ (q mod 2 ^ s = 0 -> round53 q = q).
Proof.
  intros s. unfold round53. fold s.
  assert (P : 2 ^ s <> 0) by (apply N.pow_nonzero; discriminate).
  pose proof (N.div_mod q (2 ^ s) P) as D.
  pose proof (N.mod_lt q (2 ^ s) P) as L.
  destruct (N.eqb_spec s 0) as [Z|Z].
  - rewrite Z in *. simpl in *. rewrite N.div_1_r. lia.
  - destruct (size_beyond q Z) as [E _]. fold s in E.
    set (h := 2 ^ (s - 1)) in *. set (hi := q / 2 ^ s) in *.
    set (lo := q mod 2 ^ s) in *.
    destruct (N.ltb_spec lo h); [lia|].
    destruct (N.ltb_spec h lo); [lia|].
    destruct (N.even hi); lia.
Qed.

Lemma round53_small q : N.size q <= 53 -> round53 q = q.
Proof.
  intros H. unfold round53. replace (N.size q - 53) with 0 by lia. reflexivity.
Qed.

Lemma size_below q k : q < 2 ^ k -> N.size q <= k.
Proof.
  intros H. pose proof (N.size_le q) as L. rewrite N.succ_double_spec in L.
  assert (2 ^ N.size q < 2 ^ N.succ k) by (rewrite N.pow_succ_r'; lia).
  apply N.pow_lt_mono_r_iff in H0; lia.
Qed.

(** The index is in range: the rounded product stays below [n]. *)
Lemma floor_mul_lt (r : unit_interval) (n : nat) :
  (0 < n)%nat -> (floor_mul r n < n)%nat.
Proof.
  intros Hn. unfold floor_mul, denom.
  pose proof (significand r) as Hm. pose proof (below_one r) as Hb.
  set (m := numer r) in *. set (d := 2 ^ expo r) in *.
  set (q := m * N.of_nat n).
  enough (round53 q / d < N.of_nat n) by lia.
  apply N.Div0.div_lt_upper_bound.
  assert (Q1 : q + N.of_nat n <= d * N.of_nat n).
  { unfold q. assert ((m + 1) * N.of_nat n <= d * N.of_nat n)
      by (apply N.mul_le_mono_r; lia). lia. }
  destruct (round53_spec q) as (_ & Up & _ & _).
  destruct (N.eq_dec (N.size q - 53) 0) as [Z|Z].
  - rewrite round53_small by lia. lia.
  - destruct (size_beyond q Z) as [E [Lo Hi]].
    set (h := 2 ^ (N.size q - 53 - 1)) in *. rewrite E in Up.
    assert (h < N.of_nat n).
    { assert (Q2 : (m + 1) * N.of_nat n <= 2 ^ 53 * N.of_nat n)
        by (apply N.mul_le_mono_r; lia).
      assert (h * 2 ^ 53 < N.of_nat n * 2 ^ 53) by (unfold q in Lo; lia).
      apply N.mul_lt_mono_pos_r in H; lia. }
    lia.
Qed.

(** The index is [i] exactly when the rounded product lies from [i] to
    [i + 1]. *)
Lemma floor_mul_spec (r : unit_interval) (n i : nat) :
  floor_mul r n = i <->
  N.of_nat i * denom r <= round53 (numer r * N.of_nat n) < (N.of_nat i + 1) * denom r.
Proof.
  unfold floor_mul. pose proof (denom_positive r) as D.
  pose proof (N.div_mod (round53 (numer r * N.of_nat n)) (denom r) ltac:(lia)) as E.
  pose proof (N.mod_lt (round53 (numer r * N.of_nat n)) (denom r) ltac:(lia)) as L.
  remember (round53 (numer r * N.of_nat n)) as a eqn:Ha.
  remember (a / denom r) as q eqn:Hq.
  remember (a mod denom r) as x eqn:Hx.
  clear Ha Hq Hx.
  split.
  - intros <-. rewrite N2Nat.id. nia.
  - intros [H1 H2]. assert (q = N.of_nat i) by nia. subst q. lia.
Qed.

(** Where the product needs no rounding, the index is the exact floor. *)
Lemma floor_mul_exact (r : unit_interval) (n i : nat) :
  round53 (numer r * N.of_nat n) = numer r * N.of_nat n ->
  (floor_mul r n = i <->
   N.of_nat i * denom r <= numer r * N.of_nat n < (N.of_nat i + 1) * denom r).
Proof. intros R. rewrite <- R. apply floor_mul_spec. Qed.

(** A product by 4 is exact. *)
Lemma round53_times_4 m : m < 2 ^ 53 -> round53 (m * 4) = m * 4.
Proof.
  intros Hm. destruct (round53_spec (m * 4)) as (_ & _ & _ & Ex). apply Ex.
  set (s := N.size (m * 4) - 53).
  assert (Hs : s <= 2).
  { assert (N.size (m * 4) <= 55); [|lia].
    apply size_below. change (2 ^ 55) with (2 ^ 53 * 4). lia. }
  assert (C : s = 0 \/ s = 1 \/ s = 2) by lia.
  destruct C as [-> | [-> | ->]].
  - apply N.mod_1_r.
  - change (2 ^ 1) with 2. replace (m * 4) with (2 * m * 2) by lia. apply N.Div0.mod_mul.
  - change (2 ^ 2) with 4. apply N.Div0.mod_mul.
Qed.

Lemma floor_mul_4 (r : unit_interval) (i : nat) :
  floor_mul r 4 = i <->
  N.of_nat i * denom r <= numer r * 4 < (N.of_nat i + 1) * denom r.
Proof.
  apply (floor_mul_exact r 4 i). apply round53_times_4, significand.
Qed.

(** The index against the exact product [numer * n / 2^expo], for a length
    a binary64 number holds exactly: it is the exact floor or the integer
    above it, the latter when the product is rounded up to that integer. *)
Lemma floor_mul_near (r : unit_interval) (n : nat) :
  N.of_nat n <= 2 ^ 53 ->
  let q := numer r * N.of_nat n in
  let i := N.of_nat (floor_mul r n) in
  q / denom r <= i <= q / denom r + 1
  /\ i * denom r * 2 ^ 53 <= q * (2 ^ 53 + 1)
  /\ q < (i + 1) * denom r
  /\ (i = q / denom r + 1 <-> round53 q = (q / denom r + 1) * denom r).
Proof.
  intros Hn q i. subst i. unfold floor_mul. fold q. rewrite N2Nat.id.
  set (i := round53 q / denom r).
  pose proof (below_one r) as Hb. unfold denom in *.
  set (d := 2 ^ expo r) in *. set (s := N.size q - 53).
  assert (Hd : d <> 0) by (apply N.pow_nonzero; discriminate).
  assert (Hq : q < d * 2 ^ 53).
  { assert ((numer r + 1) * N.of_nat n <= d * N.of_nat n)
      by (apply N.mul_le_mono_r; lia).
    assert (d * N.of_nat n <= d * 2 ^ 53) by (apply N.mul_le_mono_l; exact Hn).
    assert (0 < d * 2 ^ 53) by (apply N.mul_pos_pos; lia).
    unfold q. destruct (N.eq_dec (N.of_nat n) 0) as [Z|Z]; [rewrite Z, N.mul_0_r|]; lia. }
  assert (Hs : s <= expo r).
  { assert (N.size q <= expo r + 53); [|lia].
    apply size_below. rewrite N.pow_add_r. exact Hq. }
  set (t := 2 ^ s). set (c := 2 ^ (expo r - s)).
  assert (Ed : d = c * t).
  { unfold d, c, t. rewrite <- N.pow_add_r. f_equal. lia. }
  assert (Ht : t <> 0) by (apply N.pow_nonzero; discriminate).
  destruct (round53_spec q) as (K & Up & Lo & _). fold s t in K, Up, Lo.
  pose proof (N.div_mod q t Ht) as Dt. pose proof (N.mod_lt q t Ht) as Lt.
  pose proof (N.div_mod q d Hd) as Dd. pose proof (N.mod_lt q d Hd) as Ld.
  pose proof (N.div_mod (round53 q) d Hd) as Di.
  pose proof (N.mod_lt (round53 q) d Hd) as Li.
  fold i in Di.
  set (R := round53 q) in *. set (hi := q / t) in *. set (j := q / d) in *.
  set (x := q mod t) in *. set (y := q mod d) in *. set (z := R mod d) in *.
  destruct (between_floors q c t j y hi x) as [B1 B2]; try lia.
  assert (exists k, R = k * t /\ hi <= k <= hi + 1) as (k & Ek & Hk).
  { destruct K as [K|K]; [exists hi|exists (hi + 1)]; split; auto; lia. }
  assert (J1 : j * d <= R).
  { rewrite Ek, Ed. assert (j * c * t <= k * t) by (apply N.mul_le_mono_r; lia). lia. }
  assert (J2 : R <= (j + 1) * d).
  { rewrite Ek, Ed.
    assert (k * t <= (j + 1) * c * t) by (apply N.mul_le_mono_r; lia). lia. }
  destruct (floor_between R d i z j Di Li J1 J2) as [I E].
  split; [exact I|]. split; [|split; [|exact E]].
  - assert (R * 2 ^ 53 <= q * (2 ^ 53 + 1)).
    { destruct (N.eq_dec s 0) as [Z|Z].
      - unfold t in *. rewrite Z in *. change (2 ^ 0) with 1 in *. lia.
      - destruct (size_beyond q Z) as [E' [L _]]. fold s t in E', L.
        set (h := 2 ^ (s - 1)) in *. lia. }
    assert (i * d * 2 ^ 53 <= R * 2 ^ 53) by (apply N.mul_le_mono_r; lia).
    lia.
  - pose proof (floor_of_multiple R d i z k t c Di Li Ek Ed) as F.
    assert ((k + 1) * t <= (i + 1) * c * t) by (apply N.mul_le_mono_r; exact F).
    rewrite Ed. lia.
Qed.

(** *** Draws at which the rounding shows *)

(** 4226455034916927 / 2^52, about 0.93846: 65 times it is just below 61. *)
Definition near_61_of_65 : unit_interval :=
  {| numer := 4226455034916927; expo := 52;
     significand := eq_refl; in_range := eq_refl; below_one := eq_refl |}.

(** 6004799503160661 / 2^54, the binary64 number just below one third. *)
Definition below_a_third : unit_interval :=
  {| numer := 6004799503160661; expo := 54;
     significand := eq_refl; in_range := eq_refl; below_one := eq_refl |}.

(** The greatest binary64 number below 1, the least above 0, and two
    more. *)
Definition just_below_one : unit_interval :=
  {| numer := 9007199254740991; expo := 53;
     significand := eq_refl; in_range := eq_refl; below_one := eq_refl |}.

Definition least_subnormal : unit_interval :=
  {| numer := 1; expo := 1074;
     significand := eq_refl; in_range := eq_refl; below_one := eq_refl |}.

Definition three_quarters : unit_interval :=
  {| numer := 3; expo := 2;
     significand := eq_refl; in_range := eq_refl; below_one := eq_refl |}.

Definition a_seventh : unit_interval :=
  {| numer := 5146971002709138; expo := 55;
     significand := eq_refl; in_range := eq_refl; below_one := eq_refl |}.

(** With 65 entries the first draw gives index 61, though the exact
    product is below 61; with 3 entries the second gives index 1. *)
Lemma rounding_reaches_the_next_index :
  floor_mul near_61_of_65 65 = 61%nat
  /\ numer near_61_of_65 * 65 / denom near_61_of_65 = 60
  /\ floor_mul below_a_third 3 = 1%nat
  /\ numer below_a_third * 3 / denom below_a_third = 0.
Proof. repeat split; vm_compute; reflexivity. Qed.

(** On these draws and lengths [floor_mul] is the floor of the product
    that [SpecFloat.SFmul] computes. *)
Lemma floor_mul_agrees_with_SFmul :
  forallb
    (fun x =>
       forallb
         (fun n =>
            match floor_mul64 x n with
            | Some i => (i =? floor_mul x n)%nat
            | None => false
            end)
         [1; 2; 3; 4; 5; 6; 7; 9; 10; 11; 13; 33; 65; 100; 127; 1000]%nat)
    [near_61_of_65; below_a_third; just_below_one; least_subnormal;
     three_quarters; a_seventh]
  = true.
Proof. vm_compute. reflexivity. Qed.

(** *** The image search *)

Ltac crack H :=
  repeat
    match type of H with
    | (Ok _, _) = (Ok _, _) => injection H as H; try subst
    | (Throw _, _) = (Ok _, _) => discriminate H
    | (Ok _, _) = (Throw _, _) => discriminate H
    | context [match ?x with _ => _ end] => destruct x eqn:?; try discriminate H
    end.

Section Search.

Variable w : world.

Lemma tryResults_url results : forall st u st',
  tryResults w results st = (Ok (Some u), st') -> u <> [].
Proof.
  induction results as [|result more IH]; intros st u st' H; simpl in H.
  - discriminate.
  - unfold bind, ret, throw, parse, fetch, encodeURIComponent in H.
    crack H; eauto; try discriminate.
    all: try (injection H as <- _; discriminate).
Qed.

Lemma bind_Ok (A B : Type) (c : M A) (f : A -> M B) st b st' :
  bind c f st = (Ok b, st') ->
  exists a st1, c st = (Ok a, st1) /\ f a st1 = (Ok b, st').
Proof. unfold bind. destruct (c st) as [[a|e] st1]; [eauto|discriminate]. Qed.

Lemma trySearches_url searches : forall st u st',
  trySearches w searches st = (Ok (Some u), st') -> u <> [].
Proof.
  induction searches as [|search more IH]; intros st u st' H; cbn [trySearches] in H.
  - discriminate.
  - apply bind_Ok in H as (? & st1 & _ & H).
    apply bind_Ok in H as (response & st2 & _ & H).
    apply bind_Ok in H as (data & st3 & _ & H).
    apply bind_Ok in H as (found & st4 & F & H).
    destruct found as [imageUrl|]; [|eauto].
    injection H as <- <-.
    destruct (Commons.search_query data) as [[[[|r rs]|]]|]; try discriminate F.
    eapply tryResults_url; eauto.
Qed.

Lemma searchImage_url recipeName st u st' :
  searchImage w recipeName st = (Ok (Some u), st') -> u <> [].
Proof. apply trySearches_url. Qed.

Lemma fallbackImages_nonempty url : In url fallbackImages -> url <> [].
Proof.
  unfold fallbackImages. simpl.
  intros H. repeat (destruct H as [<-|H]; [discriminate|]). contradiction.
Qed.

(** The index into the pool is in range, and the entry there is a URL. *)
Lemma fallback_entry (r : unit_interval) :
  let i := floor_mul r (length fallbackImages) in
  (i < length fallbackImages)%nat
  /\ nth_error fallbackImages i = Some (nth i fallbackImages [])
  /\ nth i fallbackImages [] <> [].
Proof.
  intros i. assert (Hi : (i < length fallbackImages)%nat).
  { apply floor_mul_lt. simpl. lia. }
  split; [exact Hi|]. split.
  - now apply nth_error_nth'.
  - apply fallbackImages_nonempty. now apply nth_In.
Qed.

(** What [getWikimediaImage] returns, by the outcome of the search. *)
Lemma getWikimediaImage_outcome (recipeName : jsstring) (st : state) :
  exists url st',
    getWikimediaImage w recipeName st = (Ok url, st')
    /\ url <> []
    /\ match searchImage w recipeName st with
       | (Ok (Some found), st1) => url = found /\ st' = st1
       | (_, st1) =>
           let i := floor_mul (random w (draws st1)) (length fallbackImages) in
           (i < length fallbackImages)%nat
           /\ nth_error fallbackImages i = Some url
           /\ st' = {| log := log st1; draws := S (draws st1) |}
       end.
Proof.
  unfold getWikimediaImage, bind, try_catch, ret, Math_random.
  destruct (searchImage w recipeName st) as [[[found|]|e] st1] eqn:S.
  - exists found, st1. repeat split; auto. eapply searchImage_url; eauto.
  - destruct (fallback_entry (random w (draws st1))) as (H1 & H2 & H3).
    eexists _, _. split; [reflexivity|]. repeat split; auto.
  - destruct (fallback_entry (random w (draws st1))) as (H1 & H2 & H3).
    eexists _, _. split; [reflexivity|]. repeat split; auto.
Qed.

(** C7: [getWikimediaImage] returns, for every recipe name and every
    behaviour of the network, a URL that is not empty, and raises nothing.
    When the search finds no acceptable URL, fails or is cut short by an
    exception, the URL is the entry of the pool of four at the index
    [Math.floor(Math.random() * 4)]; that index is [i] exactly when the
    random value lies in the quarter from [i/4] to [(i+1)/4], so each entry
    is as likely as any other under a uniform source. *)
Theorem getWikimediaImage_always_returns_a_url (recipeName : jsstring) (st : state) :
  (4 <= length fallbackImages)%nat
  /\ (exists url st',
        getWikimediaImage w recipeName st = (Ok url, st')
        /\ url <> []
        /\ match searchImage w recipeName st with
           | (Ok (Some found), st1) => url = found /\ st' = st1
           | (_, st1) =>
               let i := floor_mul (random w (draws st1)) (length fallbackImages) in
               (i < length fallbackImages)%nat
               /\ nth_error fallbackImages i = Some url
               /\ st' = {| log := log st1; draws := S (draws st1) |}
           end)
  /\ (forall (r : unit_interval) (i : nat),
        floor_mul r (length fallbackImages) = i <->
        N.of_nat i * denom r <= numer r * 4 < (N.of_nat i + 1) * denom r).
Proof.
  split; [simpl; lia|].
  split; [apply getWikimediaImage_outcome|].
  intros r i. exact (floor_mul_4 r i).
Qed.

(** *** The ingredient list *)

Lemma named_spec (o : option jsstring) :
  named o = if negb (JS.eqb (trim (text o)) []) then o else None.
Proof.
  destruct o as [[|c t]|]; simpl; auto.
  destruct (JS.eqb (trim (c :: t)) []); auto.
Qed.

Lemma collect_spec meal n : forall i acc,
  collect meal n i acc = acc ++ map (slot_entry meal) (filter (slot_named meal) (seq i n)).
Proof.
  induction n as [|n IH]; intros i acc.
  - simpl. now rewrite app_nil_r.
  - cbn [collect]. rewrite IH, named_spec.
    change (seq i (S n)) with (i :: seq (S i) n). cbn [filter].
    unfold slot_named at 2.
    destruct (MealDetail.strIngredient meal i) as [x|] eqn:Ex; cbn [text]; [|reflexivity].
    destruct (JS.eqb (trim x) []); cbn [negb map]; [reflexivity|].
    rewrite <- app_assoc. cbn [app]. do 2 f_equal.
    unfold slot_entry, measure_text. rewrite Ex. cbn [text].
    destruct (MealDetail.strMeasure meal i); reflexivity.
Qed.

Lemma collect_slots meal :
  collect meal 20 1 [] = map (slot_entry meal) (named_slots meal 20).
Proof. unfold named_slots. now rewrite (collect_spec meal 20 1 []). Qed.

Lemma named_slots_sorted meal n : StronglySorted lt (named_slots meal n).
Proof.
  unfold named_slots. generalize 1%nat.
  induction n as [|n IH]; intros a; simpl; [constructor|].
  destruct (slot_named meal a); [|apply IH].
  constructor; [apply IH|].
  apply Forall_forall. intros x Hx. apply filter_In in Hx as [Hx _].
  apply in_seq in Hx. lia.
Qed.

Lemma named_slots_spec meal n i :
  In i (named_slots meal n) <-> (1 <= i <= n)%nat /\ slot_named meal i = true.
Proof. unfold named_slots. rewrite filter_In, in_seq. intuition lia. Qed.

Lemma slot_named_entry meal i :
  slot_named meal i = true ->
  exists ingredient,
    MealDetail.strIngredient meal i = Some ingredient
    /\ trim ingredient <> []
    /\ slot_entry meal i
       = {| Ingredient.name := trim ingredient;
            Ingredient.measure := expandUnits (trim (text (MealDetail.strMeasure meal i))) |}.
Proof.
  unfold slot_named, slot_entry. intros Hn.
  destruct (MealDetail.strIngredient meal i) as [x|]; [|discriminate].
  exists x. split; [reflexivity|]. split; [|reflexivity].
  intros Ht. rewrite Ht in Hn. discriminate.
Qed.

(** *** fetchRecipeDetails *)

Definition sent (rq : request) (st : state) : state :=
  {| log := rq :: log st; draws := draws st |}.

Lemma recipeImage_found (meal : MealDetail.t) (st : state) :
  exists image st',
    match named (MealDetail.strMealThumb meal) with
    | Some strMealThumb => ret strMealThumb
    | None => getWikimediaImage w (MealDetail.strMeal meal)
    end st = (Ok image, st')
    /\ image <> [].
Proof.
  destruct (named (MealDetail.strMealThumb meal)) as [thumb|] eqn:E.
  - exists thumb, st. split; auto.
    destruct (MealDetail.strMealThumb meal) as [[|c t]|]; simpl in E; try discriminate.
    destruct (JS.eqb (trim (c :: t)) []); [discriminate|]. injection E as <-. discriminate.
  - destruct (getWikimediaImage_outcome (MealDetail.strMeal meal) st)
      as (url & st' & H & N & _).
    eauto.
Qed.

(** What [fetchRecipeDetails] does, by the answer of the API. *)
Lemma fetchRecipeDetails_rejected (mealId : jsstring) (st : state) :
  meal_api w mealId (length (log st)) = None ->
  fetchRecipeDetails w mealId st = (Throw TypeError, sent (GetMeal mealId) st).
Proof.
  intros A. unfold fetchRecipeDetails, bind, fetch. now rewrite A.
Qed.

Lemma fetchRecipeDetails_refused (mealId : jsstring) (st : state) r :
  meal_api w mealId (length (log st)) = Some r -> ok r = false ->
  fetchRecipeDetails w mealId st
  = (Throw (detailsFailed (statusText r)), sent (GetMeal mealId) st).
Proof.
  intros A Hok. unfold fetchRecipeDetails, bind, fetch. now rewrite A, Hok.
Qed.

Lemma fetchRecipeDetails_unparsed (mealId : jsstring) (st : state) r :
  meal_api w mealId (length (log st)) = Some r -> ok r = true -> json r = None ->
  fetchRecipeDetails w mealId st = (Throw SyntaxError, sent (GetMeal mealId) st).
Proof.
  intros A Hok J. unfold fetchRecipeDetails, bind, fetch, parse. now rewrite A, Hok, J.
Qed.

Lemma fetchRecipeDetails_null (mealId : jsstring) (st : state) r data :
  meal_api w mealId (length (log st)) = Some r -> ok r = true -> json r = Some data ->
  MealDetailResponse.meals data = None ->
  fetchRecipeDetails w mealId st = (Throw TypeError, sent (GetMeal mealId) st).
Proof.
  intros A Hok J Hm. unfold fetchRecipeDetails, bind, fetch, parse, ret.
  now rewrite A, Hok, J, Hm.
Qed.

Lemma fetchRecipeDetails_no_record (mealId : jsstring) (st : state) r data :
  meal_api w mealId (length (log st)) = Some r -> ok r = true -> json r = Some data ->
  MealDetailResponse.meals data = Some [] ->
  fetchRecipeDetails w mealId st = (Throw recipeNotFound, sent (GetMeal mealId) st).
Proof.
  intros A Hok J Hm. unfold fetchRecipeDetails, bind, fetch, parse, ret.
  now rewrite A, Hok, J, Hm.
Qed.

Lemma fetchRecipeDetails_built (mealId : jsstring) (st : state) r data meal others :
  meal_api w mealId (length (log st)) = Some r -> ok r = true -> json r = Some data ->
  MealDetailResponse.meals data = Some (meal :: others) ->
  exists recipe st',
    fetchRecipeDetails w mealId st = (Ok recipe, st') /\ built_from meal recipe.
Proof.
  intros A Hok J Hm.
  destruct (recipeImage_found meal (sent (GetMeal mealId) st)) as (image & st' & E & N).
  exists {| Recipe.id := MealDetail.idMeal meal;
            Recipe.name := MealDetail.strMeal meal;
            Recipe.image := image;
            Recipe.instructions := MealDetail.strInstructions meal;
            Recipe.ingredients := collect meal 20 1 [];
            Recipe.category := MealDetail.strCategory meal;
            Recipe.area := MealDetail.strArea meal;
            Recipe.youtubeUrl := nonempty (MealDetail.strYoutube meal);
            Recipe.tags :=
              match nonempty (MealDetail.strTags meal) with
              | Some strTags => Some (map trim (splitChar (ch ",") [] strTags))
              | None => None
              end |}, st'.
  split.
  - unfold fetchRecipeDetails, bind, fetch, parse, ret.
    rewrite A, Hok, J, Hm. cbn [negb].
    unfold sent, ret in E. now rewrite E.
  - unfold built_from.
    cbn [Recipe.id Recipe.name Recipe.image Recipe.instructions Recipe.ingredients
         Recipe.category Recipe.area Recipe.youtubeUrl Recipe.tags].
    rewrite collect_slots. repeat split; auto.
Qed.

(** C6: the ingredient list of the recipe built from a detail record is made
    of the slots 1 to 20 whose ingredient name is not blank once trimmed, in
    slot order, the others skipped; each entry has the name trimmed and the
    measure (empty when missing) run through [expandUnits].  With exactly
    three such slots the list has length three. *)
Theorem ingredients_are_the_named_slots
    (mealId : jsstring) (st : state) (r : response MealDetailResponse.t)
    (data : MealDetailResponse.t) (meal : MealDetail.t) (others : list MealDetail.t) :
  meal_api w mealId (length (log st)) = Some r ->
  ok r = true -> json r = Some data ->
  MealDetailResponse.meals data = Some (meal :: others) ->
  exists recipe st',
    fetchRecipeDetails w mealId st = (Ok recipe, st')
    /\ Recipe.ingredients recipe = map (slot_entry meal) (named_slots meal 20)
    /\ StronglySorted lt (named_slots meal 20)
    /\ (forall i, In i (named_slots meal 20) <->
                  (1 <= i <= 20)%nat /\ slot_named meal i = true)
    /\ (forall i, slot_named meal i = true ->
          exists ingredient,
            MealDetail.strIngredient meal i = Some ingredient
            /\ trim ingredient <> []
            /\ slot_entry meal i
               = {| Ingredient.name := trim ingredient;
                    Ingredient.measure :=
                      expandUnits (trim (text (MealDetail.strMeasure meal i))) |})
    /\ (length (named_slots meal 20) = 3%nat ->
        length (Recipe.ingredients recipe) = 3%nat).
Proof.
  intros A Hok J Hm.
  destruct (fetchRecipeDetails_built mealId st r data meal others A Hok J Hm)
    as (recipe & st' & E & B).
  exists recipe, st'.
  destruct B as (_ & _ & _ & _ & Hi & _).
  split; [exact E|]. split; [exact Hi|].
  split; [apply named_slots_sorted|]. split; [intros i; apply named_slots_spec|].
  split; [apply slot_named_entry|].
  intros L. rewrite Hi, length_map. exact L.
Qed.


(** C5: on an empty listing, [getRandomDessertRecipe] raises "No dessert
    recipes found" and the only request sent is the listing; on a listing of
    [n > 0] meals it goes on as [fetchRecipeDetails] for the id of the meal
    at index [Math.floor(Math.random() * n)].  That index is below [n]; it
    is [j] exactly when the product, rounded as a binary64 multiplication
    rounds it, lies from [j] to [j + 1]; it is the floor of the exact
    product or, when the product is rounded up to the integer above, that
    integer, so that the draws giving [j] lie between [j/n], less one part
    in [2^53], and [(j+1)/n]: stretches as long as one another, under a
    uniform source each index is as likely as any other up to rounding. *)
Theorem getRandomDessertRecipe_picks_by_index (st : state) (r : response MealResponse.t) :
  dessert_api w (length (log st)) = Some r -> ok r = true ->
  (json r = Some {| MealResponse.meals := None |}
   \/ json r = Some {| MealResponse.meals := Some [] |} ->
   getRandomDessertRecipe w st = (Throw noDesserts, sent GetDesserts st))
  /\ (forall meal meals, json r = Some {| MealResponse.meals := Some (meal :: meals) |} ->
        let n := length (meal :: meals) in
        let x := random w (draws st) in
        let i := floor_mul x n in
        (i < n)%nat
        /\ (forall j, i = j <->
                       N.of_nat j * denom x
                       <= round53 (numer x * N.of_nat n)
                       < (N.of_nat j + 1) * denom x)
        /\ (N.of_nat n <= 2 ^ 53 ->
            let q := numer x * N.of_nat n in
            q / denom x <= N.of_nat i <= q / denom x + 1
            /\ N.of_nat i * denom x * 2 ^ 53 <= q * (2 ^ 53 + 1)
            /\ q < (N.of_nat i + 1) * denom x
            /\ (N.of_nat i = q / denom x + 1 <->
                round53 q = (q / denom x + 1) * denom x))
        /\ exists randomMeal,
             nth_error (meal :: meals) i = Some randomMeal
             /\ getRandomDessertRecipe w st
                = fetchRecipeDetails w (Meal.idMeal randomMeal)
                    {| log := GetDesserts :: log st; draws := S (draws st) |}).
Proof.
  intros A Hok.
  assert (L : fetchDessertRecipes w st
              = parse r (sent GetDesserts st)).
  { unfold fetchDessertRecipes, bind, fetch. rewrite A, Hok. reflexivity. }
  split.
  - intros J. unfold getRandomDessertRecipe, bind. rewrite L. unfold parse.
    destruct J as [-> | ->]; reflexivity.
  - intros meal meals J n x i.
    assert (Hi : (i < n)%nat) by (apply floor_mul_lt; unfold n; simpl; lia).
    split; [exact Hi|]. split; [intros j; apply floor_mul_spec|].
    split; [intros Hn; exact (floor_mul_near x n Hn)|].
    destruct (nth_error (meal :: meals) i) as [randomMeal|] eqn:E.
    + exists randomMeal. split; auto.
      unfold getRandomDessertRecipe, bind. rewrite L. unfold parse. rewrite J.
      unfold ret, Math_random, sent. cbn [MealResponse.meals log draws].
      cbv beta iota. cbn [log draws]. unfold i, x, n in E. now rewrite E.
    + apply nth_error_None in E. fold n in E. lia.
Qed.

End Search.

(** *** A sample world *)

Definition answered {B : Type} (status : jsstring) (body : B) : fetched B :=
  Some {| ok := true; statusText := status; json := Some body |}.

Definition refused {B : Type} (status : jsstring) : fetched B :=
  Some {| ok := false; statusText := status; json := None |}.

(** The draw 0.5. *)
Definition half : unit_interval :=
  {| numer := 1; expo := 1;
     significand := eq_refl; in_range := eq_refl; below_one := eq_refl |}.

Definition crumble : MealDetail.t :=
  {| MealDetail.idMeal := js "52893";
     MealDetail.strMeal := js "Apple & Blackberry Crumble";
     MealDetail.strMealThumb := Some (js "https://www.themealdb.com/images/media/meals/xvsurr1511719182.jpg");
     MealDetail.strInstructions := js "1. Heat oven. 2. Rub the butter into the flour.";
     MealDetail.strCategory := js "Dessert";
     MealDetail.strArea := Some (js "British");
     MealDetail.strYoutube := Some (js "https://www.youtube.com/watch?v=4vhcOwVBDO4");
     MealDetail.strTags := Some (js "Pudding, Fruity");
     MealDetail.strIngredient :=
       (fun i => match i with
                 | 1 => Some (js "Plain Flour")
                 | 2 => Some (js "  ")
                 | 3 => Some (js " Caster Sugar ")
                 | 4 => None
                 | 7 => Some (js "Butter")
                 | _ => Some []
                 end)%nat;
     MealDetail.strMeasure :=
       (fun i => match i with
                 | 1 => Some (js "120g")
                 | 3 => Some (js " 2 tbsp ")
                 | 7 => None
                 | _ => Some (js " ")
                 end)%nat |}.

Definition listing : list Meal.t :=
  [ {| Meal.idMeal := js "52893"; Meal.strMeal := js "Apple & Blackberry Crumble";
       Meal.strMealThumb := [] |};
    {| Meal.idMeal := js "52768"; Meal.strMeal := js "Apple Frangipan Tart";
       Meal.strMealThumb := [] |};
    {| Meal.idMeal := js "52767"; Meal.strMeal := js "Bakewell tart";
       Meal.strMealThumb := [] |} ].

(** The catalogue answers; the image search is unreachable. *)
Definition bakery : world :=
  {| dessert_api := fun _ =>
       answered (js "OK") {| MealResponse.meals := Some listing |};
     meal_api := fun mealId _ =>
       if JS.eqb mealId (js "52893")
       then answered (js "OK") {| MealDetailResponse.meals := Some [crumble] |}
       else if JS.eqb mealId (js "0")
       then refused (js "Service Unavailable")
       else if JS.eqb mealId (js "null")
       then answered (js "OK") {| MealDetailResponse.meals := None |}
       else answered (js "OK") {| MealDetailResponse.meals := Some [] |};
     commons_search := fun _ _ => None;
     commons_imageinfo := fun _ _ => None;
     random := fun _ => half |}.

(** The catalogue is empty, and no lookup gets through. *)
Definition closed_bakery : world :=
  {| dessert_api := fun _ => answered (js "OK") {| MealResponse.meals := Some [] |};
     meal_api := fun _ _ => None;
     commons_search := fun _ _ => None;
     commons_imageinfo := fun _ _ => None;
     random := fun _ => half |}.

Definition fresh : state := {| log := []; draws := 0 |}.

Lemma ingredients_are_the_named_slots_witness :
  exists recipe st',
    fetchRecipeDetails bakery (js "52893") fresh = (Ok recipe, st')
    /\ Recipe.ingredients recipe
       = [ {| Ingredient.name := js "Plain Flour"; Ingredient.measure := js "120g" |};
           {| Ingredient.name := js "Caster Sugar"; Ingredient.measure := js "2 tablespoons" |};
           {| Ingredient.name := js "Butter"; Ingredient.measure := [] |} ].
Proof.
  destruct (ingredients_are_the_named_slots bakery (js "52893") fresh _ _ crumble []
              eq_refl eq_refl eq_refl eq_refl)
    as (recipe & st' & E & _).
  exists recipe, st'. split; [exact E|].
  vm_compute in E. injection E as <- _. vm_compute. reflexivity.
Defined.



Lemma getRandomDessertRecipe_picks_by_index_witness :
  getRandomDessertRecipe closed_bakery fresh
    = (Throw (Error (js "No dessert recipes found")), {| log := [GetDesserts]; draws := 0 |})
  /\ getRandomDessertRecipe bakery fresh
     = fetchRecipeDetails bakery (js "52768") {| log := [GetDesserts]; draws := 1 |}.
Proof.
  split.
  - exact (proj1 (getRandomDessertRecipe_picks_by_index closed_bakery fresh _ eq_refl eq_refl)
             (or_intror eq_refl)).
  - destruct (proj2 (getRandomDessertRecipe_picks_by_index bakery fresh _ eq_refl eq_refl)
                _ _ eq_refl) as (_ & _ & _ & randomMeal & E & H).
    vm_compute in E. injection E as <-. exact H.
Defined.

End ServiceClaims.

(* ================================================================= *)
(** * Further properties of expandUnits *)

Module UnitsMore.

Import RegexFacts JSFacts StepsFacts UnitsFacts UnitsClaims.

(** *** Trimming *)

Lemma dropWhile_spec p s :
  exists ws, s = ws ++ dropWhile p s /\ Forall (fun c => p c = true) ws
             /\ stops p (dropWhile p s).
Proof.
  induction s as [|c s IH]; simpl.
  - exists []. repeat split; auto.
  - destruct (p c) eqn:E.
    + destruct IH as (ws & E1 & F & S). exists (c :: ws). repeat split; auto.
      simpl. now f_equal.
    + exists []. repeat split; auto.
Qed.

(** [s.trim()] is what is left of [s] between two runs of white space; it
    neither begins nor ends with white space. *)
Lemma trim_spec s :
  exists a b,
    s = a ++ trim s ++ b
    /\ Forall (fun c => is_space c = true) a /\ Forall (fun c => is_space c = true) b
    /\ stops is_space (trim s) /\ stops is_space (rev (trim s)).
Proof.
  unfold trim, trimStart, trimEnd.
  destruct (dropWhile_spec is_space s) as (a & Ea & Fa & Sa).
  destruct (dropWhile_spec is_space (rev (dropWhile is_space s))) as (b & Eb & Fb & Sb).
  set (u := dropWhile is_space s) in *.
  set (v := dropWhile is_space (rev u)) in *.
  exists a, (rev b). repeat split; auto.
  - rewrite <- rev_app_distr, <- Eb, rev_involutive. exact Ea.
  - apply Forall_rev. exact Fb.
  - assert (Eu : u = rev v ++ rev b) by (rewrite <- rev_app_distr, <- Eb; now rewrite rev_involutive).
    destruct (rev v) as [|x t] eqn:Ev; simpl; auto.
    rewrite Eu in Sa. exact Sa.
  - now rewrite rev_involutive.
Qed.

Lemma trim_fixed s :
  stops is_space s -> stops is_space (rev s) -> trim s = s.
Proof.
  intros H1 H2. unfold trim, trimStart, trimEnd.
  rewrite (dropWhile_stop is_space s) by (destruct s; auto).
  rewrite (dropWhile_stop is_space (rev s)) by (destruct (rev s); auto).
  apply rev_involutive.
Qed.

Lemma trim_idempotent s : trim (trim s) = trim s.
Proof.
  destruct (trim_spec s) as (a & b & _ & _ & _ & H1 & H2). now apply trim_fixed.
Qed.

Lemma stops_last s c : stops is_space (rev (s ++ [c])) -> is_space c = false.
Proof. rewrite rev_app_distr. simpl. auto. Qed.

Lemma trim_stops s : stops is_space (trim s) /\ stops is_space (rev (trim s)).
Proof. destruct (trim_spec s) as (a & b & _ & _ & _ & H1 & H2). now split. Qed.

Lemma expandUnits_stops measure :
  stops is_space (expandUnits measure) /\ stops is_space (rev (expandUnits measure)).
Proof.
  unfold expandUnits. destruct measure as [|c s]; [split; exact I|apply trim_stops].
Qed.

(** X1: whatever the measure, what [expandUnits] returns neither begins
    nor ends with white space: trimming it again changes nothing. *)
Theorem expandUnits_is_trimmed (measure : jsstring) :
  trim (expandUnits measure) = expandUnits measure
  /\ (forall c t, expandUnits measure = c :: t -> is_space c = false)
  /\ (forall t c, expandUnits measure = t ++ [c] -> is_space c = false).
Proof.
  pose proof (expandUnits_stops measure) as H.
  generalize dependent (expandUnits measure). intros out [H1 H2].
  split; [now apply trim_fixed|]. split.
  - intros c t E. rewrite E in H1. exact H1.
  - intros t c E. rewrite E in H2. now apply stops_last in H2.
Qed.

(** *** Tables of measures behind a number *)

Lemma expands_to_sound tail out ds :
  expands_to tail out = true -> ds <> [] -> digits_only ds = true ->
  expandUnits (ds ++ tail) = ds ++ out.
Proof.
  unfold expands_to. rewrite forallb_forall. intros H N Hd.
  apply digits_only_Forall in Hd.
  assert (Hb : In (parseInt ds =? 1) [true; false])
    by (destruct (parseInt ds =? 1); simpl; auto).
  apply H in Hb. apply andb_true_iff in Hb as [H1 H2].
  rewrite (expandUnits_number _ tail ds H1 N Hd eq_refl).
  now rewrite (eqb_eq _ _ H2).
Qed.

Lemma glued_units_checked : forallb (fun u => expands_to u u) glued_units = true.
Proof. vm_compute. reflexivity. Qed.


Lemma fluid_ounces_checked :
  forallb (fun p => expands_to (fst p) (snd p)) fluid_ounces = true.
Proof. vm_compute. reflexivity. Qed.

(** X2: an abbreviation written right behind the number, as in "200g" or
    "6oz", is not expanded: there is no word boundary between a digit and a
    letter, so the measure is returned as it is. *)
Theorem glued_abbreviation_is_kept (ds u : jsstring) :
  ds <> [] -> digits_only ds = true -> In u glued_units ->
  expandUnits (ds ++ u) = ds ++ u.
Proof.
  intros N Hd Hin. pose proof glued_units_checked as H.
  rewrite forallb_forall in H. apply expands_to_sound; auto.
Qed.

Lemma glued_abbreviation_is_kept_witness :
  expandUnits (js "200g") = js "200g" /\ expandUnits (js "6oz") = js "6oz".
Proof.
  split.
  - apply (glued_abbreviation_is_kept (js "200") (js "g"));
      [discriminate|reflexivity|simpl; auto 20].
  - apply (glued_abbreviation_is_kept (js "6") (js "oz"));
      [discriminate|reflexivity|simpl; auto 20].
Defined.



(** X4: "fl oz" written with a space or a period in between never becomes
    "fluid ounce": the pass for "oz" runs first and leaves "fl ounce", which
    the pass for fluid ounces no longer matches; only the glued "floz"
    becomes "fluid ounce".  Neither gets a plural "s", whatever the number:
    the word is not right behind the digits. *)
Theorem fluid_ounce_needs_floz (ds tail out : jsstring) :
  ds <> [] -> digits_only ds = true -> In (tail, out) fluid_ounces ->
  expandUnits (ds ++ tail) = ds ++ out.
Proof.
  intros N Hd Hin. pose proof fluid_ounces_checked as H.
  rewrite forallb_forall in H. apply expands_to_sound; auto.
  exact (H _ Hin).
Qed.

Lemma fluid_ounce_needs_floz_witness :
  expandUnits (js "2 fl oz") = js "2 fl ounce"
  /\ expandUnits (js "2 floz") = js "2 fluid ounce".
Proof.
  split.
  - apply (fluid_ounce_needs_floz (js "2") (js " fl oz") (js " fl ounce"));
      [discriminate|reflexivity|simpl; auto 30].
  - apply (fluid_ounce_needs_floz (js "2") (js " floz") (js " fluid ounce"));
      [discriminate|reflexivity|simpl; auto 30].
Defined.

(** *** A fraction between the number and the unit *)

Lemma expandUnits_stages x :
  x <> [] -> expandUnits x = trim (plurals (abbreviations (fractions x))).
Proof. destruct x; [congruence|reflexivity]. Qed.

Lemma glyph_measures_checked :
  forallb (fun p => expands_to (fst p) (snd p)) glyph_measures = true.
Proof. vm_compute. reflexivity. Qed.

(** The entries of [mixed_measures], taken apart. *)
Lemma mixed_measure_parts tail out :
  In (tail, out) mixed_measures ->
  exists f g u v,
    In (f, g) fraction_table /\ slash_free (js " " ++ u) = true
    /\ tail = js " " ++ f ++ js " " ++ u
    /\ out = js " " ++ g :: js " " ++ v
    /\ In (js " " ++ g :: js " " ++ u, out) glyph_measures.
Proof.
  intros H. unfold mixed_measures in H. apply in_flat_map in H as ((f & g) & Hf & H).
  apply in_map_iff in H as ((u & v) & E & Hu).
  injection E as <- <-. cbn [fst snd].
  exists f, g, (js u), (js v). split; [exact Hf|].
  assert (Hg : In (js " " ++ g :: js " " ++ js u, js " " ++ g :: js " " ++ js v)
                  glyph_measures).
  { unfold glyph_measures. apply in_flat_map. exists g. split.
    - apply (in_map snd) in Hf. exact Hf.
    - apply in_map_iff. exists (u, v). auto. }
  repeat split; auto.
  simpl in Hu. repeat (destruct Hu as [E|Hu]; [injection E as <- <-; reflexivity|]).
  contradiction.
Qed.

(** X5: with a fraction between the number and the unit, as in "2 1/2 tsp",
    the unit is expanded and stays singular whatever the number: the
    fraction becomes its glyph first, and the plural passes only look for a
    number right before the word. *)
Theorem fraction_hides_the_number (ds tail out : jsstring) :
  ds <> [] -> digits_only ds = true -> In (tail, out) mixed_measures ->
  expandUnits (ds ++ tail) = ds ++ out.
Proof.
  intros N Hd Hin.
  destruct (mixed_measure_parts tail out Hin) as (f & g & u & v & Hf & Hu & -> & -> & Hg).
  pose proof glyph_measures_checked as C. rewrite forallb_forall in C.
  pose proof (expands_to_sound _ _ ds (C _ Hg) N Hd) as E. cbn [fst snd] in E.
  assert (Hds : slash_free (ds ++ js " ") = true).
  { apply slash_free_not_in. intros Hs. apply in_app_or in Hs as [Hs|Hs].
    - apply digits_only_Forall in Hd. unfold all_digits in Hd.
      rewrite Forall_forall in Hd. apply Hd in Hs. discriminate.
    - simpl in Hs. destruct Hs as [Hs|[]]. discriminate. }
  assert (F : fractions (ds ++ js " " ++ f ++ js " " ++ u)
              = ds ++ js " " ++ g :: js " " ++ u).
  { rewrite (app_assoc ds (js " ")).
    rewrite (fractions_of_table f g (ds ++ js " ") (js " " ++ u) Hf Hds Hu).
    now rewrite <- app_assoc. }
  rewrite expandUnits_stages by (destruct ds; [congruence|discriminate]).
  rewrite F. rewrite <- E.
  rewrite expandUnits_stages by (destruct ds; [congruence|discriminate]).
  rewrite fractions_without_slash; [reflexivity|].
  intros Hs. apply in_app_or in Hs as [Hs|Hs].
  - apply digits_only_Forall in Hd. unfold all_digits in Hd.
    rewrite Forall_forall in Hd. apply Hd in Hs. discriminate.
  - apply slash_free_not_in in Hu.
    change (js " " ++ g :: js " " ++ u) with (js " " ++ [g] ++ js " " ++ u) in Hs.
    apply in_app_or in Hs as [Hs|Hs]; [destruct Hs as [Hs|[]]; discriminate|].
    apply in_app_or in Hs as [Hs|Hs]; [|auto].
    destruct Hs as [Hs|[]]. subst g.
    unfold fraction_table in Hf. simpl in Hf.
    repeat (destruct Hf as [Hf|Hf]; [injection Hf as _ Hf; discriminate Hf|]).
    contradiction.
Qed.

Lemma fraction_hides_the_number_witness :
  expandUnits (js "2 1/2 tsp") = js "2 " ++ ONE_HALF :: js " teaspoon".
Proof.
  apply (fraction_hides_the_number (js "2") (js " 1/2 tsp")
           (js " " ++ ONE_HALF :: js " teaspoon"));
    [discriminate|reflexivity|simpl; auto 40].
Defined.

(** *** Measures without letters *)

Lemma reads_must_same ci r c : forall s s',
  reads ci r s s' -> must r c = true -> exists x, In x (rest s) /\ same ci c x = true.
Proof.
  induction r; intros s s' R M; simpl in R, M; try discriminate.
  - destruct R as (x & H & E & _). apply N.eqb_eq in M. subst c.
    exists x. rewrite E. split; [now left|exact H].
  - destruct R as (s1 & R1 & R2). apply orb_true_iff in M as [M|M].
    + eapply IHr1; eauto.
    + destruct (reads_suffix _ _ _ _ R1) as (cs & E).
      destruct (IHr2 _ _ R2 M) as (x & Hx & S). exists x. rewrite E.
      split; [apply in_or_app; now right|exact S].
  - apply andb_true_iff in M as [M1 M2]. destruct R as [R|R]; eauto.
  - destruct R as (s1 & R & _). eauto.
Qed.

Lemma letters_spec c : In c letters -> is_letter c = true.
Proof.
  intros H. assert (A : forallb is_letter letters = true) by (vm_compute; reflexivity).
  rewrite forallb_forall in A. auto.
Qed.

(** A letter of the pattern is only ever matched by a letter. *)
Lemma letter_same ci c x : is_letter c = true -> same ci c x = true -> is_letter x = true.
Proof.
  unfold same, canon, is_letter, is_upper, is_lower, JS.between.
  rewrite N.eqb_eq, !orb_true_iff, !andb_true_iff, !N.leb_le.
  intros Hc E.
  destruct ci; cbn [andb] in E;
    destruct ((97 <=? c) && (c <=? 122)) eqn:Lc, ((97 <=? x) && (x <=? 122)) eqn:Lx;
    try rewrite andb_true_iff, !N.leb_le in Lc;
    try rewrite andb_true_iff, !N.leb_le in Lx;
    try rewrite andb_false_iff, !N.leb_gt in Lc;
    try rewrite andb_false_iff, !N.leb_gt in Lx; lia.
Qed.

Lemma must_letter_pass ci r f l :
  must_letter r = true -> Forall (fun x => is_letter x = false) l ->
  replaceAll ci r f l = l.
Proof.
  unfold must_letter. rewrite existsb_exists. intros (c & Hc & M) Hl.
  apply replace_from_none. intros a1 a2 -> .
  apply attempt_none. intros s' R.
  destruct (reads_must_same _ _ c _ _ R M) as (x & Hx & S).
  apply letter_same in S; [|now apply letters_spec].
  rewrite Forall_forall in Hl. rewrite Hl in S; [discriminate|].
  apply in_or_app. now right.
Qed.

Lemma plain_parts measure :
  plain measure = true ->
  Forall (fun x => is_letter x = false) measure /\ ~ In 47 measure.
Proof.
  unfold plain. rewrite forallb_forall. intros H. split.
  - apply Forall_forall. intros x Hx. apply H in Hx.
    apply andb_true_iff in Hx as [Hx _]. now apply negb_true_iff in Hx.
  - intros Hx. apply H in Hx. apply andb_true_iff in Hx as [_ Hx]. discriminate.
Qed.

(** X6: a measure that holds no letter and no slash, such as "200", "2-3"
    or a glyph, is only trimmed: no pass of [expandUnits] finds anything in
    it. *)
Theorem plain_measure_is_only_trimmed (measure : jsstring) :
  plain measure = true -> expandUnits measure = trim measure.
Proof.
  intros H. destruct (plain_parts measure H) as [Hl Hs].
  destruct measure as [|c s]; [reflexivity|].
  rewrite expandUnits_stages by discriminate.
  rewrite fractions_without_slash by exact Hs.
  unfold abbreviations, plurals.
  repeat rewrite (must_letter_pass _ _ _ (c :: s)) by (exact Hl || reflexivity).
  reflexivity.
Qed.

Lemma plain_measure_is_only_trimmed_witness :
  expandUnits (js " 2-3 ") = js "2-3" /\ expandUnits (js "200") = js "200".
Proof.
  split.
  - exact (plain_measure_is_only_trimmed (js " 2-3 ") eq_refl).
  - exact (plain_measure_is_only_trimmed (js "200") eq_refl).
Defined.

End UnitsMore.

(* ================================================================= *)
(** * Further properties of getInstructionSteps *)

Module StepsMore.

Import RegexFacts JSFacts StepsFacts StepsClaims UnitsMore.

Lemma trim_shorter s : (length (trim s) <= length s)%nat.
Proof.
  destruct (trim_spec s) as (a & b & E & _).
  rewrite E at 2. rewrite !length_app. lia.
Qed.

Lemma trim_In x s : In x (trim s) -> In x s.
Proof.
  destruct (trim_spec s) as (a & b & E & _). intros H. rewrite E.
  apply in_or_app. right. apply in_or_app. now left.
Qed.

(** A period put behind a trimmed text leaves it trimmed. *)
Lemma trim_with_period z :
  stops is_space z -> trim (with_period z) = with_period z.
Proof.
  intros H. unfold with_period.
  destruct (endsWith (js ".") z) eqn:E.
  - unfold endsWith in E. apply trim_fixed; [exact H|].
    destruct (rev z) as [|c t]; [exact I|].
    change (startsWith (rev (js ".")) (c :: t)) with ((46 =? c) && true) in E.
    apply andb_true_iff in E as [E _]. apply N.eqb_eq in E. now subst c.
  - apply trim_fixed.
    + destruct z; [reflexivity|exact H].
    + rewrite rev_app_distr. reflexivity.
Qed.

Lemma with_period_nonempty z : with_period z <> [].
Proof.
  unfold with_period. destruct (endsWith (js ".") z) eqn:E.
  - destruct z; [discriminate E|discriminate].
  - destruct z; discriminate.
Qed.

(** X7: on either path, every step [getInstructionSteps] returns is
    non-empty and neither begins nor ends with white space. *)
Theorem steps_are_trimmed_and_nonempty (instructions step : jsstring) :
  In step (getInstructionSteps instructions) ->
  step <> [] /\ trim step = step.
Proof.
  assert (F : In step (bySentences instructions) -> step <> [] /\ trim step = step).
  { unfold bySentences. intros H.
    apply in_map_iff in H as (c & <- & H). apply filter_In in H as [H _].
    apply in_map_iff in H as (y & <- & _).
    split; [apply with_period_nonempty|].
    apply trim_with_period, trim_stops. }
  unfold getInstructionSteps.
  destruct (matchAll false numbered instructions) as [steps|]; [|exact F].
  destruct (1 <? length steps)%nat; [|exact F].
  intros H. apply filter_In in H as [H L].
  apply in_map_iff in H as (y & <- & _). split.
  - intros E. rewrite E in L. discriminate.
  - apply trim_idempotent.
Qed.

Lemma steps_are_trimmed_and_nonempty_witness :
  js "Bake it for a very long time." <> []
  /\ trim (js "Bake it for a very long time.") = js "Bake it for a very long time.".
Proof.
  apply (steps_are_trimmed_and_nonempty
           (js "Mix the flour gently. Bake it for a very long time. Eat")).
  vm_compute. auto.
Defined.

(** *** Texts without a digit *)

Lemma filter_none (A : Type) (f : A -> bool) l :
  (forall x, In x l -> f x = false) -> filter f l = [].
Proof.
  induction l as [|x l IH]; intros H; [reflexivity|].
  simpl. rewrite (H x) by now left. apply IH. intros y Hy. apply H. now right.
Qed.

Lemma no_digit_no_match s : no_digit s -> numberedMatches s = [].
Proof.
  intros H. unfold numberedMatches, matchAll.
  assert (E : match_from false numbered 0 None s = []).
  { rewrite <- (app_nil_r s). rewrite match_from_preamble by exact H.
    reflexivity. }
  now rewrite E.
Qed.

Lemma weave_piece pieces : forall seps p,
  length pieces = S (length seps) -> In p pieces ->
  (length p <= length (weave pieces seps))%nat.
Proof.
  induction pieces as [|x ps IH]; intros seps p L H; [contradiction|].
  destruct seps as [|s ss]; simpl in *.
  - destruct ps; [|discriminate]. destruct H as [->|[]]. lia.
  - rewrite !length_app. destruct H as [->|H]; [lia|].
    assert (length p <= length (weave ps ss))%nat by (apply IH; auto). lia.
Qed.

Lemma candidate_shorter instructions c :
  In c (candidates instructions) -> (length c <= length instructions)%nat.
Proof.
  unfold candidates. intros H. apply in_map_iff in H as (y & <- & H).
  destruct (split_sentences instructions) as (seps & W & L & _).
  pose proof (weave_piece _ seps y L H) as P. rewrite W in P.
  pose proof (trim_shorter y). lia.
Qed.

(** X8: instructions of at most 20 characters that hold no digit give no
    step at all; so do empty instructions. *)
Theorem short_instructions_give_no_step (instructions : jsstring) :
  digit_free instructions = true -> (length instructions <= 20)%nat ->
  getInstructionSteps instructions = [].
Proof.
  intros D L. apply digit_free_Forall in D.
  rewrite fallback_taken by (rewrite no_digit_no_match by exact D; simpl; lia).
  unfold bySentences. fold (candidates instructions).
  rewrite filter_none; [reflexivity|].
  intros c Hc. apply candidate_shorter in Hc. apply Nat.ltb_ge. lia.
Qed.

Lemma short_instructions_give_no_step_witness :
  getInstructionSteps (js "Mix. Bake. Eat.") = [] /\ getInstructionSteps [] = [].
Proof.
  split.
  - apply short_instructions_give_no_step; [reflexivity|simpl; lia].
  - apply short_instructions_give_no_step; [reflexivity|simpl; lia].
Defined.

(** *** A single sentence *)

Lemma split_from_none ci r : forall l pv cur,
  (forall a1 a2, l = a1 ++ a2 -> attempt ci r (prev_after a1 pv) a2 = None) ->
  split_from ci r 0 pv l cur = [rev cur ++ l].
Proof.
  induction l as [|c t IH]; intros pv cur H; cbn [split_from].
  - now rewrite app_nil_r.
  - pose proof (H [] (c :: t) eq_refl) as A. change (prev_after [] pv) with pv in A.
    rewrite A. rewrite IH.
    + cbn [rev]. now rewrite <- app_assoc.
    + intros a1 a2 E. apply (H (c :: a1) a2). simpl. now f_equal.
Qed.

Lemma one_sentence_parts s :
  one_sentence s = true -> no_digit s /\ ~ In 46 s /\ ~ In 10 s.
Proof.
  unfold one_sentence. rewrite forallb_forall. intros H. split; [|split].
  - apply Forall_forall. intros x Hx. apply H in Hx.
    rewrite !andb_true_iff, !negb_true_iff in Hx. tauto.
  - intros Hx. apply H in Hx. rewrite !andb_true_iff in Hx.
    destruct Hx as [[_ Hx] _]. discriminate.
  - intros Hx. apply H in Hx. rewrite !andb_true_iff in Hx.
    destruct Hx as [_ Hx]. discriminate.
Qed.

Lemma no_break s pv :
  ~ In 46 s -> ~ In 10 s -> attempt false sentence_break pv s = None.
Proof.
  intros P L. destruct (attempt false sentence_break pv s) as [[mt g]|] eqn:A; [|reflexivity].
  apply attempt_sentence_break in A as (N & post & -> & B). exfalso.
  destruct B as [(ws & u & rest & -> & _)|(nl & -> & _)].
  - apply P. now left.
  - apply L. now left.
Qed.

Lemma split_one_sentence s :
  ~ In 46 s -> ~ In 10 s -> Regex.split false sentence_break s = [s].
Proof.
  intros P L. unfold Regex.split. destruct s as [|c t].
  - now rewrite no_break.
  - apply (split_from_none false sentence_break (c :: t) None []).
    intros a1 a2 E. apply no_break.
    + intros H. apply P. rewrite E. apply in_or_app. now right.
    + intros H. apply L. rewrite E. apply in_or_app. now right.
Qed.

Lemma endsWith_period_In z : endsWith (js ".") z = true -> In 46 z.
Proof.
  unfold endsWith. intros E.
  destruct (rev z) as [|c t] eqn:R; [cbv in E; discriminate E|].
  change (startsWith (rev (js ".")) (c :: t)) with ((46 =? c) && true) in E.
  apply andb_true_iff in E as [E _]. apply N.eqb_eq in E.
  assert (Z : z = rev t ++ [c]) by (rewrite <- (rev_involutive z), R; reflexivity).
  rewrite Z. apply in_or_app. right. left. congruence.
Qed.

(** X9: a text without a digit, a period or a line feed is taken as one
    sentence: it comes back as a single step, trimmed and with a period put
    behind it, when what is left after trimming has more than 20
    characters, and gives no step otherwise. *)
Theorem one_sentence_gives_one_step (s : jsstring) :
  one_sentence s = true ->
  getInstructionSteps s =
    if (20 <? length (trim s))%nat then [trim s ++ js "."] else [].
Proof.
  intros H. destruct (one_sentence_parts s H) as (D & P & L).
  rewrite fallback_taken by (rewrite no_digit_no_match by exact D; simpl; lia).
  unfold bySentences. rewrite split_one_sentence by assumption.
  cbn [map filter].
  destruct (20 <? length (trim s))%nat; [|reflexivity].
  cbn [map]. destruct (endsWith (js ".") (trim s)) eqn:E; [|reflexivity].
  exfalso. apply P. apply trim_In. now apply endsWith_period_In.
Qed.

Lemma one_sentence_gives_one_step_witness :
  getInstructionSteps (js "  Whisk the eggs with the sugar until pale ")
    = [js "Whisk the eggs with the sugar until pale."].
Proof.
  exact (one_sentence_gives_one_step
           (js "  Whisk the eggs with the sugar until pale ") eq_refl).
Defined.

End StepsMore.

(* ================================================================= *)
(** * Further properties of the recipe service *)

Module ServiceMore.

Import Commons.
Import RegexFacts JSFacts StepsFacts UnitsMore StepsMore ServiceClaims.

Section Runs.

Variable w : world.

(** *** A failing listing *)

(** X10: when the listing request is rejected, answered with a non-success
    status, or answered with a body that is not JSON, [fetchDessertRecipes]
    and with it [getRandomDessertRecipe] raise a TypeError, the error
    "Failed to fetch dessert recipes: <statusText>" or a SyntaxError; the
    listing is the only request sent, no random number is drawn and no
    recipe is looked up. *)
Theorem listing_failure_ends_the_run (st : state) :
  let answer := dessert_api w (length (log st)) in
  (answer = None ->
     fetchDessertRecipes w st = (Throw TypeError, sent GetDesserts st)
     /\ getRandomDessertRecipe w st = (Throw TypeError, sent GetDesserts st))
  /\ (forall r, answer = Some r -> ok r = false ->
        fetchDessertRecipes w st
          = (Throw (dessertsFailed (statusText r)), sent GetDesserts st)
        /\ getRandomDessertRecipe w st
          = (Throw (dessertsFailed (statusText r)), sent GetDesserts st))
  /\ (forall r, answer = Some r -> ok r = true -> json r = None ->
        fetchDessertRecipes w st = (Throw SyntaxError, sent GetDesserts st)
        /\ getRandomDessertRecipe w st = (Throw SyntaxError, sent GetDesserts st))
  /\ (forall r body, answer = Some r -> ok r = true -> json r = Some body ->
        fetchDessertRecipes w st = (Ok body, sent GetDesserts st)).
Proof.
  intros answer. subst answer.
  unfold getRandomDessertRecipe, fetchDessertRecipes, bind, fetch, parse, throw, ret, sent.
  split; [intros A; split; now rewrite A|].
  split; [intros r A Hok; split; now rewrite A, Hok|].
  split; [intros r A Hok J; split; now rewrite A, Hok, J|].
  intros r body A Hok J. now rewrite A, Hok, J.
Qed.

(** *** The image that comes back *)

Lemma tryResults_photo results : forall st u st',
  tryResults w results st = (Ok (Some u), st') -> includes (js "svg") u = false.
Proof.
  induction results as [|result more IH]; intros st u st' H; simpl in H.
  - discriminate.
  - unfold bind, ret, throw, parse, fetch, encodeURIComponent in H.
    crack H; eauto; try discriminate.
    all: try (apply negb_true_iff; simpl; assumption).
Qed.

Lemma trySearches_photo searches : forall st u st',
  trySearches w searches st = (Ok (Some u), st') -> includes (js "svg") u = false.
Proof.
  induction searches as [|search more IH]; intros st u st' H; cbn [trySearches] in H.
  - discriminate.
  - apply bind_Ok in H as (? & st1 & _ & H).
    apply bind_Ok in H as (response & st2 & _ & H).
    apply bind_Ok in H as (data & st3 & _ & H).
    apply bind_Ok in H as (found & st4 & F & H).
    destruct found as [imageUrl|]; [|eauto].
    injection H as <- <-.
    destruct (Commons.search_query data) as [[[[|r rs]|]]|]; try discriminate F.
    eapply tryResults_photo; eauto.
Qed.

Lemma fallbackImages_photos url : In url fallbackImages -> includes (js "svg") url = false.
Proof.
  intros H. assert (A : forallb (fun u => negb (includes (js "svg") u)) fallbackImages = true)
    by (vm_compute; reflexivity).
  rewrite forallb_forall in A. apply A in H. now apply negb_true_iff.
Qed.

(** X11: whatever the network answers, the URL [getWikimediaImage] returns
    does not contain "svg": a found URL is only returned when it does not,
    and none of the four fall-back URLs does. *)
Theorem image_url_never_holds_svg (recipeName : jsstring) (st st' : state) (url : jsstring) :
  getWikimediaImage w recipeName st = (Ok url, st') ->
  includes (js "svg") url = false.
Proof.
  intros H.
  destruct (getWikimediaImage_outcome w recipeName st) as (url' & st1 & E & _ & O).
  rewrite E in H. injection H as <- <-.
  destruct (searchImage w recipeName st) as [[[found|]|e] st2] eqn:S.
  - destruct O as [-> _]. eapply trySearches_photo. exact S.
  - destruct O as (_ & N & _). apply nth_error_In in N. now apply fallbackImages_photos.
  - destruct O as (_ & N & _). apply nth_error_In in N. now apply fallbackImages_photos.
Qed.

(** *** The requests of the image search *)

(** From [st] to [st'] only requests of the image search were sent, the
    searches among them for [terms], in this order, and no random number
    was drawn. *)
Definition searched (st st' : state) (terms : list jsstring) : Prop :=
  exists new,
    log st' = new ++ log st /\ forallb image_request new = true
    /\ search_terms (rev new) = terms /\ draws st' = draws st.

Lemma search_terms_app a b : search_terms (a ++ b) = search_terms a ++ search_terms b.
Proof.
  induction a as [|rq a IH]; [reflexivity|].
  destruct rq; simpl; now rewrite IH.
Qed.

Lemma searched_refl st : searched st st [].
Proof. exists []. auto. Qed.

Lemma searched_trans st st1 st2 t1 t2 :
  searched st st1 t1 -> searched st1 st2 t2 -> searched st st2 (t1 ++ t2).
Proof.
  intros (n1 & L1 & Q1 & T1 & D1) (n2 & L2 & Q2 & T2 & D2).
  exists (n2 ++ n1). repeat split.
  - rewrite L2, L1. now rewrite app_assoc.
  - rewrite forallb_app, Q1, Q2. reflexivity.
  - rewrite rev_app_distr, search_terms_app. congruence.
  - congruence.
Qed.

Lemma searched_info st fileName :
  test true not_a_photo fileName = false ->
  searched st (sent (GetImageInfo fileName) st) [].
Proof.
  intros T. exists [GetImageInfo fileName]. repeat split.
  simpl. now rewrite T.
Qed.

Lemma searched_search st search :
  searched st (sent (SearchCommons search) st) [search].
Proof. exists [SearchCommons search]. repeat split. Qed.

Lemma tryResults_searched results : forall st,
  searched st (snd (tryResults w results st)) [].
Proof.
  induction results as [|result more IH]; intros st; cbn [tryResults].
  - apply searched_refl.
  - set (fileName := replaceString (js "File:") [] (title result)).
    destruct (test true not_a_photo fileName) eqn:T; [apply IH|].
    pose proof (searched_info st fileName T) as S1.
    pose proof (searched_trans _ _ _ _ _ S1 (IH (sent (GetImageInfo fileName) st))) as S2.
    unfold bind, encodeURIComponent, fetch, parse, ret, throw, sent in *.
    destruct (well_formed fileName); [|apply searched_refl].
    destruct (commons_imageinfo w fileName (length (log st))) as [r|]; [|exact S1].
    destruct (json r) as [d|]; [|exact S1].
    repeat match goal with
           | |- context [match ?x with _ => _ end] => destruct x
           end; first [exact S1 | exact S2].
Qed.

Lemma trySearches_searched searches : forall st,
  exists k, searched st (snd (trySearches w searches st)) (firstn k searches).
Proof.
  induction searches as [|search more IH]; intros st; cbn [trySearches].
  - exists 0%nat. apply searched_refl.
  - pose proof (searched_search st search) as S1.
    unfold bind, encodeURIComponent, fetch, parse, ret, throw in *.
    destruct (well_formed search); [|exists 0%nat; apply searched_refl].
    fold (sent (SearchCommons search) st).
    destruct (commons_search w search (length (log st))) as [r|];
      [|exists 1%nat; exact S1].
    destruct (json r) as [d|]; [|exists 1%nat; exact S1].
    set (st1 := sent (SearchCommons search) st) in *.
    destruct (search_query d) as [[[[|x rs]|]]|].
    + destruct (IH st1) as (k & S4). exists (S k).
      exact (searched_trans _ _ _ _ _ S1 S4).
    + pose proof (searched_trans _ _ _ _ _ S1 (tryResults_searched (x :: rs) st1)) as S3.
      destruct (tryResults w (x :: rs) st1) as [[[u|]|e] st3]; cbn [snd] in *.
      * exists 1%nat. exact S3.
      * destruct (IH st3) as (k & S4). exists (S k).
        exact (searched_trans _ _ _ _ _ S3 S4).
      * exists 1%nat. exact S3.
    + destruct (IH st1) as (k & S4). exists (S k).
      exact (searched_trans _ _ _ _ _ S1 S4).
    + destruct (IH st1) as (k & S4). exists (S k).
      exact (searched_trans _ _ _ _ _ S1 S4).
Qed.

(** X12: [getWikimediaImage] sends nothing but requests to the image
    search: searches, and image information for file names that do not end
    in .svg, .pdf or .txt.  The searches are, in this order, a beginning of
    the four variations of the search term ("<term> dessert", "<term>
    cake", "<term> food", "<term>"), and at most one random number is
    drawn. *)
Theorem image_search_requests (recipeName : jsstring) (st : state) :
  let st' := snd (getWikimediaImage w recipeName st) in
  exists new k,
    log st' = new ++ log st
    /\ forallb image_request new = true
    /\ search_terms (rev new) = firstn k (searchVariations recipeName)
    /\ (draws st' = draws st \/ draws st' = S (draws st)).
Proof.
  intros st'. subst st'.
  destruct (trySearches_searched (searchVariations recipeName) st)
    as (k & new & L & Q & T & D).
  exists new, k.
  unfold getWikimediaImage, bind, try_catch, ret, Math_random.
  change (searchImage w recipeName st)
    with (trySearches w (searchVariations recipeName) st).
  destruct (trySearches w (searchVariations recipeName) st) as [[[u|]|e] st1];
    cbn [snd log draws] in *;
    (split; [exact L|]); (split; [exact Q|]); (split; [exact T|]);
    first [left; exact D | right; now f_equal].
Qed.

(** *** The recipe that comes back *)

Lemma fetchRecipeDetails_Ok (mealId : jsstring) (st st' : state) (recipe : Recipe.t) :
  fetchRecipeDetails w mealId st = (Ok recipe, st') ->
  exists r data meal others,
    meal_api w mealId (length (log st)) = Some r /\ ok r = true /\ json r = Some data
    /\ MealDetailResponse.meals data = Some (meal :: others)
    /\ built_from meal recipe.
Proof.
  intros H.
  destruct (meal_api w mealId (length (log st))) as [r|] eqn:A;
    [|rewrite (fetchRecipeDetails_rejected w mealId st A) in H; discriminate].
  destruct (ok r) eqn:Hok;
    [|rewrite (fetchRecipeDetails_refused w mealId st r A Hok) in H; discriminate].
  destruct (json r) as [data|] eqn:J;
    [|rewrite (fetchRecipeDetails_unparsed w mealId st r A Hok J) in H; discriminate].
  destruct (MealDetailResponse.meals data) as [[|meal others]|] eqn:Hm;
    [rewrite (fetchRecipeDetails_no_record w mealId st r data A Hok J Hm) in H;
     discriminate| |
     rewrite (fetchRecipeDetails_null w mealId st r data A Hok J Hm) in H;
     discriminate].
  destruct (fetchRecipeDetails_built w mealId st r data meal others A Hok J Hm)
    as (recipe' & st1 & E & B).
  rewrite E in H. injection H as <- <-.
  exists r, data, meal, others. auto.
Qed.

(** X13: a record with a thumbnail that is not blank gives a recipe with
    that thumbnail as its image, exactly as it came (not trimmed), and the
    lookup is the only request sent: no image is searched for and no
    random number drawn.  Without a thumbnail, or with a blank one, the
    image is what [getWikimediaImage] returns for the name of the meal. *)
Theorem thumbnail_spares_the_image_search
    (mealId : jsstring) (st : state) (r : response MealDetailResponse.t)
    (data : MealDetailResponse.t) (meal : MealDetail.t) (others : list MealDetail.t) :
  meal_api w mealId (length (log st)) = Some r ->
  ok r = true -> json r = Some data ->
  MealDetailResponse.meals data = Some (meal :: others) ->
  (forall thumb,
     MealDetail.strMealThumb meal = Some thumb -> trim thumb <> [] ->
     exists recipe,
       fetchRecipeDetails w mealId st = (Ok recipe, sent (GetMeal mealId) st)
       /\ Recipe.image recipe = thumb)
  /\ (trim (text (MealDetail.strMealThumb meal)) = [] ->
      exists recipe st',
        fetchRecipeDetails w mealId st = (Ok recipe, st')
        /\ getWikimediaImage w (MealDetail.strMeal meal) (sent (GetMeal mealId) st)
           = (Ok (Recipe.image recipe), st')).
Proof.
  intros A Hok J Hm.
  assert (E : fetchRecipeDetails w mealId st
              = bind (match named (MealDetail.strMealThumb meal) with
                      | Some strMealThumb => ret strMealThumb
                      | None => getWikimediaImage w (MealDetail.strMeal meal)
                      end)
                     (fun recipeImage =>
                        ret {| Recipe.id := MealDetail.idMeal meal;
                               Recipe.name := MealDetail.strMeal meal;
                               Recipe.image := recipeImage;
                               Recipe.instructions := MealDetail.strInstructions meal;
                               Recipe.ingredients := collect meal 20 1 [];
                               Recipe.category := MealDetail.strCategory meal;
                               Recipe.area := MealDetail.strArea meal;
                               Recipe.youtubeUrl := nonempty (MealDetail.strYoutube meal);
                               Recipe.tags :=
                                 match nonempty (MealDetail.strTags meal) with
                                 | Some strTags =>
                                     Some (map trim (splitChar (ch ",") [] strTags))
                                 | None => None
                                 end |})
                     (sent (GetMeal mealId) st)).
  { unfold fetchRecipeDetails at 1. unfold bind at 1, fetch. rewrite A, Hok. cbn [negb].
    unfold bind at 1, parse. rewrite J. unfold ret at 1. rewrite Hm. reflexivity. }
  rewrite E. clear E. rewrite named_spec. split.
  - intros thumb T N. rewrite T. cbn [text].
    destruct (JS.eqb (trim thumb) []) eqn:B; [apply eqb_eq in B; contradiction|].
    cbn [negb]. eexists. unfold bind, ret. split; reflexivity.
  - intros B. rewrite B. change (negb (JS.eqb [] [])) with false. cbv iota.
    destruct (getWikimediaImage_outcome w (MealDetail.strMeal meal) (sent (GetMeal mealId) st))
      as (url & st' & G & _).
    unfold bind, ret. rewrite G. eexists _, st'. split; reflexivity.
Qed.

Lemma named_slots_length meal n : (length (named_slots meal n) <= n)%nat.
Proof.
  unfold named_slots. generalize 1%nat.
  induction n as [|n IH]; intros a; simpl; [lia|].
  destruct (slot_named meal a); simpl; specialize (IH (S a)); lia.
Qed.

(** X14: every ingredient of a recipe that [fetchRecipeDetails] returns has
    a name that is not empty, a name and a measure that neither begin nor
    end with white space, and there are at most 20 of them. *)
Theorem ingredients_are_well_formed
    (mealId : jsstring) (st st' : state) (recipe : Recipe.t) :
  fetchRecipeDetails w mealId st = (Ok recipe, st') ->
  (length (Recipe.ingredients recipe) <= 20)%nat
  /\ Forall (fun ing =>
               Ingredient.name ing <> []
               /\ trim (Ingredient.name ing) = Ingredient.name ing
               /\ trim (Ingredient.measure ing) = Ingredient.measure ing)
            (Recipe.ingredients recipe).
Proof.
  intros H. apply fetchRecipeDetails_Ok in H as (r & data & meal & others & _ & _ & _ & _ & B).
  destruct B as (_ & _ & _ & _ & -> & _). split.
  - rewrite length_map. apply named_slots_length.
  - apply Forall_forall. intros ing Hin.
    apply in_map_iff in Hin as (i & <- & Hi).
    apply named_slots_spec in Hi as [_ Hi].
    destruct (slot_named_entry meal i Hi) as (x & Ex & Nx & ->).
    cbn [Ingredient.name Ingredient.measure].
    split; [exact Nx|]. split; [apply trim_idempotent|].
    destruct (expandUnits_stops (trim (text (MealDetail.strMeasure meal i)))) as [S1 S2].
    now apply trim_fixed.
Qed.

(** *** Tags *)

Lemma splitChar_nonempty sep : forall s cur, splitChar sep cur s <> [].
Proof.
  induction s as [|c t IH]; intros cur; simpl; [discriminate|].
  destruct (c =? sep); [discriminate|apply IH].
Qed.

Lemma join_cons sep p more :
  more <> [] -> join sep (p :: more) = p ++ sep :: join sep more.
Proof. destruct more; [congruence|reflexivity]. Qed.

(** [s.split(sep)]: the pieces hold no separator, and joined by it they
    give [s] back. *)
Lemma splitChar_spec sep : forall s cur,
  ~ In sep cur ->
  join sep (splitChar sep cur s) = rev cur ++ s
  /\ Forall (fun p => ~ In sep p) (splitChar sep cur s)
  /\ length (splitChar sep cur s) = S (count_occ N.eq_dec s sep).
Proof.
  induction s as [|c t IH]; intros cur Hc; cbn [splitChar].
  - simpl. rewrite app_nil_r. repeat split; auto.
    constructor; [|constructor]. now rewrite <- in_rev.
  - destruct (N.eqb_spec c sep) as [->|Ne].
    + destruct (IH [] (fun F => F)) as (J & F & L).
      rewrite join_cons by apply splitChar_nonempty.
      rewrite J. cbn [rev app length]. rewrite L.
      rewrite count_occ_cons_eq by reflexivity.
      repeat split; auto. constructor; [now rewrite <- in_rev|exact F].
    + destruct (IH (c :: cur)) as (J & F & L).
      { intros [E|E]; [congruence|auto]. }
      rewrite J, L. cbn [rev]. rewrite <- app_assoc.
      rewrite count_occ_cons_neq by congruence. repeat split; auto.
Qed.

(** X15: the tags of the recipe are the pieces of [strTags] between its
    commas, each trimmed: as many as there are commas, and one more, an
    empty piece giving an empty tag.  An empty or missing [strTags] gives
    no tag list at all. *)
Theorem tags_are_the_pieces_between_commas
    (mealId : jsstring) (st : state) (r : response MealDetailResponse.t)
    (data : MealDetailResponse.t) (meal : MealDetail.t) (others : list MealDetail.t) :
  meal_api w mealId (length (log st)) = Some r ->
  ok r = true -> json r = Some data ->
  MealDetailResponse.meals data = Some (meal :: others) ->
  exists recipe st',
    fetchRecipeDetails w mealId st = (Ok recipe, st')
    /\ match MealDetail.strTags meal with
       | None | Some [] => Recipe.tags recipe = None
       | Some strTags =>
           exists pieces,
             Recipe.tags recipe = Some (map trim pieces)
             /\ join (ch ",") pieces = strTags
             /\ Forall (fun p => ~ In (ch ",") p) pieces
             /\ length pieces = S (count_occ N.eq_dec strTags (ch ","))
             /\ Forall (fun tag => trim tag = tag) (map trim pieces)
       end.
Proof.
  intros A Hok J Hm.
  destruct (fetchRecipeDetails_built w mealId st r data meal others A Hok J Hm)
    as (recipe & st' & E & B).
  exists recipe, st'. split; [exact E|].
  destruct B as (_ & _ & _ & _ & _ & _ & _ & _ & T). rewrite T. clear T.
  destruct (MealDetail.strTags meal) as [[|c t]|]; cbn [nonempty]; try reflexivity.
  exists (splitChar (ch ",") [] (c :: t)).
  destruct (splitChar_spec (ch ",") (c :: t) [] (fun F => F)) as (Jn & F & L).
  repeat split; auto.
  apply Forall_forall. intros tag Hin. apply in_map_iff in Hin as (p & <- & _).
  apply trim_idempotent.
Qed.

End Runs.

(** *** Another sample world *)

(** A record without a thumbnail. *)
Definition bakewell : MealDetail.t :=
  {| MealDetail.idMeal := js "52767";
     MealDetail.strMeal := js "Bakewell Tart!";
     MealDetail.strMealThumb := Some (js " ");
     MealDetail.strInstructions := js "Heat the oven.";
     MealDetail.strCategory := js "Dessert";
     MealDetail.strArea := None;
     MealDetail.strYoutube := Some [];
     MealDetail.strTags := Some (js "Tart, Baking,,Almond ");
     MealDetail.strIngredient := fun _ => None;
     MealDetail.strMeasure := fun _ => None |}.

(** Every search finds a drawing and a photograph of the tart. *)
Definition gallery : world :=
  {| dessert_api := fun _ => refused (js "Bad Gateway");
     meal_api := fun _ _ =>
       answered (js "OK") {| MealDetailResponse.meals := Some [bakewell] |};
     commons_search := fun _ _ =>
       answered (js "OK")
         {| search_query :=
              Some {| search := Some [ {| title := js "File:Bakewell tart.svg" |};
                                       {| title := js "File:Bakewell tart.jpg" |} ] |} |};
     commons_imageinfo := fun fileName _ =>
       answered (js "OK")
         {| info_query :=
              Some {| pages :=
                        Some [ (js "123",
                                {| imageinfo :=
                                     Some [ {| thumburl := Some (js "https://upload.wikimedia.org/800px-" ++ fileName);
                                               url := Some (js "https://upload.wikimedia.org/" ++ fileName) |} ] |}) ] |} |};
     random := fun _ => half |}.

Lemma image_url_never_holds_svg_witness :
  getWikimediaImage gallery (js "Bakewell Tart!") fresh
    = (Ok (js "https://upload.wikimedia.org/800px-Bakewell tart.jpg"),
       {| log := [GetImageInfo (js "Bakewell tart.jpg");
                  SearchCommons (js "bakewell tart dessert")];
          draws := 0 |})
  /\ includes (js "svg") (js "https://upload.wikimedia.org/800px-Bakewell tart.jpg") = false.
Proof.
  assert (E : getWikimediaImage gallery (js "Bakewell Tart!") fresh
              = (Ok (js "https://upload.wikimedia.org/800px-Bakewell tart.jpg"),
                 {| log := [GetImageInfo (js "Bakewell tart.jpg");
                            SearchCommons (js "bakewell tart dessert")];
                    draws := 0 |}))
    by (vm_compute; reflexivity).
  split; [exact E|].
  exact (image_url_never_holds_svg gallery _ _ _ _ E).
Defined.

Lemma thumbnail_spares_the_image_search_witness :
  (exists recipe,
     fetchRecipeDetails bakery (js "52893") fresh
       = (Ok recipe, {| log := [GetMeal (js "52893")]; draws := 0 |})
     /\ Recipe.image recipe
        = js "https://www.themealdb.com/images/media/meals/xvsurr1511719182.jpg")
  /\ (exists recipe st',
        fetchRecipeDetails gallery (js "52767") fresh = (Ok recipe, st')
        /\ getWikimediaImage gallery (js "Bakewell Tart!") (sent (GetMeal (js "52767")) fresh)
           = (Ok (Recipe.image recipe), st')).
Proof.
  split.
  - exact (proj1 (thumbnail_spares_the_image_search bakery (js "52893") fresh _ _ crumble []
                    eq_refl eq_refl eq_refl eq_refl)
             _ eq_refl ltac:(discriminate)).
  - exact (proj2 (thumbnail_spares_the_image_search gallery (js "52767") fresh _ _ bakewell []
                    eq_refl eq_refl eq_refl eq_refl)
             eq_refl).
Defined.

Lemma ingredients_are_well_formed_witness :
  exists recipe st',
    fetchRecipeDetails bakery (js "52893") fresh = (Ok recipe, st')
    /\ (length (Recipe.ingredients recipe) <= 20)%nat
    /\ Forall (fun ing =>
                 Ingredient.name ing <> []
                 /\ trim (Ingredient.name ing) = Ingredient.name ing
                 /\ trim (Ingredient.measure ing) = Ingredient.measure ing)
              (Recipe.ingredients recipe).
Proof.
  destruct (fetchRecipeDetails bakery (js "52893") fresh) as [[recipe|e] st'] eqn:E;
    [|vm_compute in E; discriminate E].
  exists recipe, st'. split; [reflexivity|].
  exact (ingredients_are_well_formed bakery (js "52893") fresh st' recipe E).
Defined.

Lemma tags_are_the_pieces_between_commas_witness :
  exists recipe st',
    fetchRecipeDetails gallery (js "52767") fresh = (Ok recipe, st')
    /\ Recipe.tags recipe = Some [js "Tart"; js "Baking"; []; js "Almond"].
Proof.
  destruct (tags_are_the_pieces_between_commas gallery (js "52767") fresh _ _ bakewell []
              eq_refl eq_refl eq_refl eq_refl)
    as (recipe & st' & E & T).
  exists recipe, st'. split; [exact E|].
  vm_compute in E. injection E as <- _. reflexivity.
Defined.


End ServiceMore.

(* ================================================================= *)
(** * The search term of the image search *)

Module SearchTermFacts.

Import RegexFacts JSFacts StepsFacts UnitsMore StepsMore ServiceClaims ServiceMore.

Lemma attempt_cls ci p pv c t :
  attempt ci (Cls p) pv (c :: t) = if cmem p c then Some ([c], None) else None.
Proof.
  unfold attempt. cbn [m start rest]. destruct (cmem p c); [|reflexivity].
  unfold consumed, start. cbn [rest cap length].
  replace (S (length t) - length t)%nat with 1%nat by lia. reflexivity.
Qed.

(** [s.replace(/[p]/g, '')] keeps the units outside [p]. *)
Lemma remove_class ci p s : forall pv,
  replace_from ci (Cls p) (by_ []) 0 pv s = filter (fun c => negb (cmem p c)) s.
Proof.
  induction s as [|c t IH]; intros pv; [reflexivity|].
  cbn [replace_from filter]. rewrite attempt_cls.
  destruct (cmem p c) eqn:E; cbn [negb length by_ app].
  - apply IH.
  - f_equal. apply IH.
Qed.

Lemma rep_greedy_all p g cs l : forall n pv,
  all_in p cs -> stops (cmem p) l -> (n <= length cs)%nat ->
  rep_greedy p Some g n pv (cs ++ l)
  = Some {| prev := prev_after cs pv; rest := l; cap := g |}.
Proof.
  induction cs as [|c cs IH]; intros n pv A S L.
  - simpl in L. replace n with 0%nat by lia. cbn [app prev_after fold_left].
    destruct l as [|x l]; [reflexivity|]. simpl in S. cbn [rep_greedy]. now rewrite S.
  - inversion A as [|? ? Hc A']; subst. cbn [app rep_greedy]. rewrite Hc.
    rewrite (IH (Nat.pred n) (Some c) A' S) by (simpl in L; lia).
    reflexivity.
Qed.

(** A run of white space, read as a whole by [/\s+/]. *)
Lemma attempt_blanks ws l pv :
  ws <> [] -> all_in Space ws -> stops is_space l ->
  attempt false (Rep true 1 Space) pv (ws ++ l) = Some (ws, None).
Proof.
  intros N A S. unfold attempt. cbn [m start cap prev rest].
  rewrite (rep_greedy_all Space None ws l 1 pv A S)
    by (destruct ws; [congruence|simpl; lia]).
  cbn [cap]. f_equal. f_equal. apply consumed_app. reflexivity.
Qed.

Definition blanks_collapsed (pv : option char) (l : jsstring) : jsstring :=
  replace_from false (Rep true 1 Space) (by_ (js " ")) 0 pv l.

(** What [s.replace(/\s+/g, ' ')] returns: single blanks only, and apart
    from them the units of [s] that are not white space. *)
Lemma collapse_blanks n : forall l pv,
  (length l <= n)%nat ->
  single_spaced false (blanks_collapsed pv l) = true
  /\ (stops is_space l -> single_spaced true (blanks_collapsed pv l) = true)
  /\ Forall (fun c => c = 32 \/ (In c l /\ is_space c = false)) (blanks_collapsed pv l).
Proof.
  induction n as [|n IH]; intros l pv L.
  - destruct l; [|simpl in L; lia]. repeat split; auto.
  - destruct l as [|c t]; [repeat split; auto|].
    destruct (is_space c) eqn:Sc.
    + destruct (dropWhile_spec is_space (c :: t)) as (ws & E & F & S).
      assert (Nw : ws <> []).
      { intros ->. cbn [app] in E. rewrite <- E in S. cbn [stops] in S. congruence. }
      set (u := dropWhile is_space (c :: t)) in *.
      assert (Lu : (length u <= n)%nat).
      { apply (f_equal (@length char)) in E. rewrite length_app in E.
        destruct ws; [congruence|]. simpl in E, L. lia. }
      unfold blanks_collapsed. rewrite E.
      rewrite (replace_from_hit false _ _ ws None pv u (attempt_blanks ws u pv Nw F S) Nw).
      destruct (IH u (prev_after ws pv) Lu) as (_ & T & Fa). specialize (T S).
      fold (blanks_collapsed (prev_after ws pv) u).
      split; [|split].
      * cbn. exact T.
      * intros St. destruct ws as [|x ws]; [congruence|]. cbn [app stops] in St.
        inversion F; subst. congruence.
      * constructor; [now left|].
        eapply Forall_impl; [|exact Fa]. intros a [->|[Ha Sa]]; [now left|right].
        split; [apply in_or_app; now right|exact Sa].
    + unfold blanks_collapsed. cbn [replace_from].
      rewrite (attempt_rejected false (Rep true 1 Space) pv c t eq_refl Sc).
      fold (blanks_collapsed (Some c) t).
      destruct (IH t (Some c) ltac:(simpl in L; lia)) as (T & _ & Fa).
      split; [|split].
      * cbn [single_spaced]. now rewrite Sc.
      * intros _. cbn [single_spaced]. now rewrite Sc.
      * constructor; [right; split; [now left|exact Sc]|].
        eapply Forall_impl; [|exact Fa]. intros a [->|[Ha Sa]]; [now left|right].
        split; [now right|exact Sa].
Qed.

Lemma single_spaced_weaken s : forall b, single_spaced b s = true -> single_spaced false s = true.
Proof.
  destruct s as [|c t]; intros b H; [reflexivity|]. cbn [single_spaced] in *.
  destruct (is_space c); [|exact H].
  rewrite !andb_true_iff in *. intuition.
Qed.

Lemma single_spaced_prefix x y : forall b,
  single_spaced b (x ++ y) = true -> single_spaced b x = true.
Proof.
  induction x as [|c x IH]; intros b H; [reflexivity|]. cbn [app single_spaced] in *.
  destruct (is_space c); [|now apply IH].
  rewrite !andb_true_iff in *. intuition.
Qed.

Lemma single_spaced_suffix x y : forall b,
  single_spaced b (x ++ y) = true -> single_spaced false y = true.
Proof.
  induction x as [|c x IH]; intros b H; [now apply (single_spaced_weaken y b)|].
  cbn [app single_spaced] in H. destruct (is_space c); [|now apply (IH false)].
  rewrite !andb_true_iff in H. now apply (IH true).
Qed.

Lemma toLowerCase_no_capital s : Forall (fun c => is_upper c = false) (toLowerCase s).
Proof.
  unfold toLowerCase. apply Forall_forall. intros c H.
  apply in_flat_map in H as (x & _ & H). unfold lowerUnit in H.
  destruct (is_upper x) eqn:U.
  - destruct H as [<-|[]]. unfold is_upper, JS.between in *.
    apply andb_true_iff in U as [U1 U2]. apply N.leb_le in U1, U2.
    apply andb_false_iff. right. apply N.leb_gt. lia.
  - destruct (x =? 304); [destruct H as [<-|[<-|[]]]; reflexivity|].
    destruct (x =? 8490); [destruct H as [<-|[]]; reflexivity|].
    destruct H as [<-|[]]. exact U.
Qed.

Lemma term_unit_ascii c : term_unit c = true -> c < 128.
Proof.
  unfold term_unit, is_lower, is_digit, JS.between.
  rewrite !orb_true_iff, !andb_true_iff, !N.leb_le, !N.eqb_eq. lia.
Qed.

Lemma ascii_well_formed s : Forall (fun c => c < 128) s -> well_formed s = true.
Proof.
  induction 1 as [|c s Hc F IH]; [reflexivity|]. cbn [well_formed].
  assert (is_high c = false /\ is_low c = false) as [-> ->].
  { unfold is_high, is_low, JS.between. split; apply andb_false_iff; left; apply N.leb_gt; lia. }
  exact IH.
Qed.

(** X16: the search term made of a recipe name holds only lower-case
    letters, digits, underscores and single blanks, with no blank at either
    end; so the four search variations are plain ASCII, and
    [encodeURIComponent] does not throw on them. *)
Theorem search_term_is_clean (recipeName : jsstring) :
  let term := searchTerm recipeName in
  Forall (fun c => term_unit c = true) term
  /\ single_spaced false term = true
  /\ trim term = term
  /\ (forall search, In search (searchVariations recipeName) -> well_formed search = true).
Proof.
  intros term. unfold term, searchTerm.
  set (lower := toLowerCase recipeName).
  set (kept := replaceAll false (Cls (Neg (Union Word Space))) (by_ []) lower).
  set (spaced := replaceAll false (Rep true 1 Space) (by_ (js " ")) kept).
  assert (K : Forall (fun c => is_upper c = false /\ (is_word c || is_space c) = true) kept).
  { unfold kept, replaceAll. rewrite remove_class. apply Forall_forall. intros c H.
    apply filter_In in H as [H C]. split.
    - pose proof (toLowerCase_no_capital recipeName) as U.
      rewrite Forall_forall in U. now apply U.
    - cbn [cmem] in C. now rewrite negb_involutive in C. }
  destruct (collapse_blanks (length kept) kept None (le_n _)) as (T & _ & Fa).
  change (blanks_collapsed None kept) with spaced in T, Fa.
  assert (U : Forall (fun c => term_unit c = true) spaced).
  { eapply Forall_impl; [|exact Fa]. intros c [->|[Hc Sc]]; [reflexivity|].
    rewrite Forall_forall in K. destruct (K c Hc) as [Uc Wc].
    rewrite Sc, orb_false_r in Wc. unfold term_unit. unfold is_word in Wc.
    rewrite Uc, orb_false_r in Wc. rewrite !orb_true_iff in *. tauto. }
  assert (U' : Forall (fun c => term_unit c = true) (trim spaced)) by now apply trim_Forall.
  split; [exact U'|]. split; [|split].
  - destruct (trim_spec spaced) as (a & b & E & _). rewrite E in T.
    apply single_spaced_suffix in T. now apply single_spaced_prefix in T.
  - apply trim_idempotent.
  - intros search H. apply ascii_well_formed.
    assert (A : Forall (fun c => c < 128) (trim spaced)).
    { eapply Forall_impl; [|exact U']. intros c. apply term_unit_ascii. }
    unfold searchVariations, searchTerm in H. fold lower kept spaced in H.
    assert (S : forall tail, Forall (fun c => c < 128) (js tail) ->
                             Forall (fun c => c < 128) (trim spaced ++ js tail)).
    { intros tail Ht. apply Forall_app. now split. }
    cbn [In] in H.
    destruct H as [<-|[<-|[<-|[<-|[]]]]]; try exact A; apply S;
      repeat constructor.
Qed.

Lemma search_term_example :
  searchTerm (js "  Apple &  Blackberry Crumble! ") = js "apple blackberry crumble".
Proof. vm_compute. reflexivity. Qed.

End SearchTermFacts.

(* ================================================================= *)
(** * Properties of the download name and of the checked steps *)

Module DisplayFacts.

Import RegexFacts JSFacts StepsFacts UnitsMore StepsMore ServiceClaims ServiceMore SearchTermFacts.

(** *** The download name *)

Lemma replace_class ci p x s : forall pv,
  replace_from ci (Cls p) (by_ [x]) 0 pv s = map (fun c => if cmem p c then x else c) s.
Proof.
  induction s as [|c t IH]; intros pv; [reflexivity|].
  cbn [replace_from map]. rewrite attempt_cls.
  destruct (cmem p c) eqn:E; cbn [length by_ app]; f_equal; apply IH.
Qed.

Lemma ranges c :
  (is_upper c = true <-> 65 <= c <= 90) /\ (is_lower c = true <-> 97 <= c <= 122)
  /\ (is_digit c = true <-> 48 <= c <= 57).
Proof.
  unfold is_upper, is_lower, is_digit, JS.between.
  rewrite !andb_true_iff, !N.leb_le. tauto.
Qed.

Lemma not_alnum_spec c :
  cmem not_alnum c = negb (is_upper c || is_lower c || is_digit c).
Proof.
  destruct (ranges c) as (U & L & D).
  unfold not_alnum. cbn [cmem]. unfold is_word.
  destruct (is_upper c), (is_lower c), (is_digit c); cbn [negb orb];
    destruct (N.eqb_spec c 95) as [E|E]; try reflexivity; exfalso;
    try (destruct U as [U _]; specialize (U eq_refl); lia);
    try (destruct L as [L _]; specialize (L eq_refl); lia);
    try (destruct D as [D _]; specialize (D eq_refl); lia).
Qed.

Lemma lowerUnit_name_unit c :
  lowerUnit (if cmem not_alnum c then 95 else c) = [name_unit c].
Proof.
  rewrite not_alnum_spec. destruct (ranges c) as (U & L & D).
  unfold name_unit, lowerUnit.
  destruct (is_upper c) eqn:Eu; cbn [negb orb]; [now rewrite Eu|].
  destruct (is_lower c || is_digit c) eqn:Ed; cbn [negb]; [|reflexivity].
  rewrite Eu.
  assert (c < 128).
  { apply orb_true_iff in Ed as [Ed|Ed]; [apply L in Ed|apply D in Ed]; lia. }
  destruct (N.eqb_spec c 304); [lia|]. destruct (N.eqb_spec c 8490); [lia|]. reflexivity.
Qed.

Lemma name_unit_plain c :
  (is_lower (name_unit c) || is_digit (name_unit c) || (name_unit c =? 95)) = true.
Proof.
  unfold name_unit.
  destruct (is_upper c) eqn:U.
  - unfold is_upper, is_lower, JS.between in *.
    apply andb_true_iff in U as [U1 U2]. apply N.leb_le in U1, U2.
    assert ((97 <=? c + 32) = true) as -> by (apply N.leb_le; lia).
    assert ((c + 32 <=? 122) = true) as -> by (apply N.leb_le; lia).
    reflexivity.
  - destruct (is_lower c || is_digit c) eqn:Ed; [now rewrite Ed|reflexivity].
Qed.

(** X17: the name of the downloaded file is the recipe name unit by unit,
    capitals put in lower case, lower-case letters and digits kept, every
    other unit made an underscore, followed by ".txt": before the
    extension it holds nothing but lower-case letters, digits and
    underscores, and it is as long as the recipe name. *)
Theorem download_name_is_plain (name : jsstring) :
  downloadName name = map name_unit name ++ js ".txt"
  /\ Forall (fun c => (is_lower c || is_digit c || (c =? 95)) = true) (map name_unit name)
  /\ length (downloadName name) = (length name + 4)%nat.
Proof.
  assert (E : downloadName name = map name_unit name ++ js ".txt").
  { unfold downloadName, replaceAll. change (js "_") with [95].
    rewrite replace_class. unfold toLowerCase.
    f_equal. induction name as [|c t IH]; [reflexivity|].
    cbn [map flat_map]. rewrite IH, lowerUnit_name_unit. reflexivity. }
  split; [exact E|]. split.
  - apply Forall_forall. intros c H. apply in_map_iff in H as (x & <- & _).
    apply name_unit_plain.
  - rewrite E, length_app, length_map. reflexivity.
Qed.

Lemma download_name_example :
  downloadName (js "Apple & Blackberry Crumble") = js "apple___blackberry_crumble.txt".
Proof. vm_compute. reflexivity. Qed.

(** *** The checked steps *)

Lemma has_In s x : has s x = true <-> In x s.
Proof.
  unfold has. rewrite existsb_exists. split.
  - intros (y & H & E). apply Nat.eqb_eq in E. now subst.
  - intros H. exists x. split; [exact H|apply Nat.eqb_refl].
Qed.

Lemma add_In s x y : In y (add s x) <-> y = x \/ In y s.
Proof.
  unfold add. destruct (has s x) eqn:H.
  - apply has_In in H. split; [auto|]. intros [->|]; auto.
  - rewrite in_app_iff. simpl. intuition.
Qed.

Lemma add_NoDup s x : NoDup s -> NoDup (add s x).
Proof.
  intros N. unfold add. destruct (has s x) eqn:H; [exact N|].
  assert (~ In x s) by (rewrite <- has_In; congruence).
  apply NoDup_app; [exact N|repeat constructor; auto|].
  intros a Ha [<-|[]]. contradiction.
Qed.

Lemma delete_In s x y : In y (delete s x) <-> In y s /\ y <> x.
Proof.
  unfold delete. rewrite filter_In, negb_true_iff, Nat.eqb_neq. intuition.
Qed.

Lemma fold_add elements : forall s,
  NoDup s ->
  NoDup (fold_left add elements s)
  /\ (forall y, In y (fold_left add elements s) <-> In y s \/ In y elements).
Proof.
  induction elements as [|x l IH]; intros s N; cbn [fold_left].
  - split; [exact N|]. simpl. intuition.
  - destruct (IH (add s x) (add_NoDup s x N)) as [N' I]. split; [exact N'|].
    intros y. rewrite I, add_In. simpl. intuition.
Qed.

Lemma fold_add_fixed elements : forall s,
  NoDup (s ++ elements) -> fold_left add elements s = s ++ elements.
Proof.
  induction elements as [|x l IH]; intros s N; cbn [fold_left].
  - now rewrite app_nil_r.
  - assert (H : has s x = false).
    { destruct (has s x) eqn:H; [|reflexivity]. apply has_In in H.
      apply NoDup_remove_2 in N. exfalso. apply N. apply in_or_app. now left. }
    unfold add at 2. rewrite H. rewrite IH; rewrite <- app_assoc; [reflexivity|exact N].
Qed.

(** [new Set] of the elements of a set is that set. *)
Lemma newSet_fixed s : NoDup s -> newSet s = s.
Proof. intros N. unfold newSet. now rewrite (fold_add_fixed s []). Qed.

Lemma newSet_spec elements :
  NoDup (newSet elements) /\ forall y, In y (newSet elements) <-> In y elements.
Proof.
  destruct (fold_add elements [] (NoDup_nil _)) as [N I]. split; [exact N|].
  intros y. rewrite (I y). simpl. intuition.
Qed.

Lemma toggleStep_In s i y :
  In y (toggleStep s i) <-> (y = i /\ ~ In i s) \/ (y <> i /\ In y s).
Proof.
  unfold toggleStep. destruct (newSet_spec s) as [_ I].
  destruct (has (newSet s) i) eqn:H.
  - apply has_In in H. rewrite delete_In, I. rewrite I in H.
    destruct (Nat.eq_dec y i); intuition congruence.
  - assert (~ In i s) by (rewrite <- I, <- has_In; congruence).
    rewrite add_In, I. destruct (Nat.eq_dec y i); intuition congruence.
Qed.

(** X18: [toggleStep] changes whether the step clicked is checked and
    nothing else; the set it hands on holds no index twice; and toggling
    the same step again gives back a set with the steps checked before. *)
Theorem toggleStep_flips_one_step (checkedSteps : NumberSet) (stepIndex : nat) :
  has (toggleStep checkedSteps stepIndex) stepIndex = negb (has checkedSteps stepIndex)
  /\ (forall other, other <> stepIndex ->
        has (toggleStep checkedSteps stepIndex) other = has checkedSteps other)
  /\ NoDup (toggleStep checkedSteps stepIndex)
  /\ (forall step,
        has (toggleStep (toggleStep checkedSteps stepIndex) stepIndex) step
        = has checkedSteps step).
Proof.
  assert (B : forall a b, (a = true <-> b = true) -> a = b).
  { intros [|] [|] H; auto; [symmetry|]; apply H; reflexivity. }
  split; [|split; [|split]].
  - apply B. rewrite negb_true_iff, has_In, toggleStep_In.
    rewrite <- not_true_iff_false, has_In. intuition.
  - intros other N. apply B. rewrite !has_In, toggleStep_In. intuition.
  - unfold toggleStep. destruct (newSet_spec checkedSteps) as [N _].
    destruct (has (newSet checkedSteps) stepIndex).
    + unfold delete. now apply NoDup_filter.
    + now apply add_NoDup.
  - intros step. apply B. rewrite !has_In, !toggleStep_In.
    destruct (Nat.eq_dec step stepIndex) as [->|Ne]; [|intuition].
    destruct (in_dec Nat.eq_dec stepIndex checkedSteps); intuition.
Qed.

(** *** The checked steps in localStorage *)

Lemma eqb_refl (a : jsstring) : JS.eqb a a = true.
Proof. unfold JS.eqb. destruct (list_eq_dec N.eq_dec a a); congruence. Qed.

Lemma eqb_neq (a b : jsstring) : a <> b -> JS.eqb a b = false.
Proof. unfold JS.eqb. destruct (list_eq_dec N.eq_dec a b); congruence. Qed.

Lemma numeral_digits d : Forall (fun c => is_digit c = true) (numeral d).
Proof. induction d; cbn [numeral]; constructor; auto. Qed.

Lemma number_of_numeral d : forall acc,
  fold_left (fun acc c => (10 * acc + N.to_nat (c - 48))%nat) (numeral d) acc
  = Nat.of_uint_acc d acc.
Proof.
  induction d; intros acc; cbn [numeral fold_left Nat.of_uint_acc]; [reflexivity| ..];
    rewrite IHd; f_equal; rewrite Nat.tail_mul_spec;
    change (N.to_nat _) with 0%nat || change (N.to_nat _) with 1%nat
    || change (N.to_nat _) with 2%nat || change (N.to_nat _) with 3%nat
    || change (N.to_nat _) with 4%nat || change (N.to_nat _) with 5%nat
    || change (N.to_nat _) with 6%nat || change (N.to_nat _) with 7%nat
    || change (N.to_nat _) with 8%nat || change (N.to_nat _) with 9%nat; lia.
Qed.

Lemma number_of_decimal n : number_of (decimal n) = n.
Proof.
  unfold number_of, decimal. rewrite number_of_numeral.
  apply DecimalNat.Unsigned.of_to.
Qed.

Lemma JSON_number_decimal n : JSON_number (decimal n) = Some n.
Proof. unfold JSON_number. now rewrite number_of_decimal, eqb_refl. Qed.

Lemma decimal_nonempty n : decimal n <> [].
Proof.
  intros E. pose proof (number_of_decimal n) as H. rewrite E in H.
  cbn in H. subst n. discriminate E.
Qed.

Lemma decimal_plain n : Forall (fun c => (c =? 93) = false /\ (c =? 44) = false) (decimal n).
Proof.
  eapply Forall_impl; [|apply numeral_digits]. intros c H.
  apply ranges in H. split; apply N.eqb_neq; lia.
Qed.

Lemma JSON_items_piece x : forall cur t,
  Forall (fun c => (c =? 93) = false /\ (c =? 44) = false) x ->
  JSON_items cur (x ++ t) = JSON_items (rev x ++ cur) t.
Proof.
  induction x as [|c x IH]; intros cur t F; [reflexivity|].
  inversion F as [|? ? [H1 H2] F']; subst.
  cbn [app JSON_items rev]. rewrite H1, H2, IH by exact F'.
  now rewrite <- app_assoc.
Qed.

Lemma JSON_items_join pieces :
  pieces <> [] ->
  Forall (Forall (fun c => (c =? 93) = false /\ (c =? 44) = false)) pieces ->
  JSON_items [] (join 44 pieces ++ js "]") = Some pieces.
Proof.
  induction pieces as [|p more IH]; intros N F; [congruence|].
  inversion F as [|? ? Fp Fm]; subst.
  destruct more as [|q more].
  - cbn [join]. rewrite JSON_items_piece by exact Fp.
    cbn. now rewrite app_nil_r, rev_involutive.
  - rewrite join_cons by discriminate. rewrite <- app_assoc.
    rewrite JSON_items_piece by exact Fp. cbn [app JSON_items].
    change (44 =? 93) with false. change (44 =? 44) with true. cbv iota.
    rewrite IH by (discriminate || exact Fm).
    cbn. now rewrite app_nil_r, rev_involutive.
Qed.

Lemma all_numbers_decimal elements : all_numbers (map decimal elements) = Some elements.
Proof.
  induction elements as [|n l IH]; [reflexivity|].
  cbn [map all_numbers]. now rewrite JSON_number_decimal, IH.
Qed.

(** [JSON.parse] gives back the array that [JSON.stringify] wrote. *)
Lemma JSON_parse_stringify elements : JSON_parse (JSON_stringify elements) = Some elements.
Proof.
  unfold JSON_stringify. destruct elements as [|n l]; [reflexivity|].
  change (js "[" ++ join 44 (map decimal (n :: l)) ++ js "]")
    with (91 :: (join 44 (map decimal (n :: l)) ++ js "]")).
  cbn [JSON_parse]. change (91 =? 91) with true. cbv iota.
  rewrite eqb_neq.
  - rewrite JSON_items_join.
    + apply all_numbers_decimal.
    + discriminate.
    + apply Forall_forall. intros x H. apply in_map_iff in H as (k & <- & _).
      apply decimal_plain.
  - intros E. apply (f_equal (@length char)) in E. rewrite length_app in E.
    cbn [map] in E.
    assert (join 44 (decimal n :: map decimal l) <> []).
    { pose proof (decimal_nonempty n). destruct (map decimal l); cbn [join];
        destruct (decimal n); try congruence; discriminate. }
    destruct (join 44 (decimal n :: map decimal l)); [congruence|].
    simpl in E. lia.
Qed.

Lemma stepsKey_inj a b : stepsKey a = stepsKey b -> a = b.
Proof. unfold stepsKey. apply app_inv_head. Qed.

Lemma JSON_stringify_nonempty elements : exists t, JSON_stringify elements = 91 :: t.
Proof. unfold JSON_stringify. eexists. reflexivity. Qed.

Lemma load_after_save ls id elements :
  loadSteps (saveSteps ls id elements) id = Some (newSet elements).
Proof.
  unfold loadSteps, saveSteps, setItem. rewrite eqb_refl.
  destruct (JSON_stringify elements) as [|c t] eqn:E.
  - destruct (JSON_stringify_nonempty elements) as (t & E'). congruence.
  - rewrite <- E, JSON_parse_stringify. reflexivity.
Qed.

(** X19: the checked steps of a recipe are kept across a reload: what the
    saving effect wrote, the loading effect reads back as the same set,
    and after the first render of the recipe (where the saving effect also
    runs once with the empty set of that render) both the state and the
    storage hold it again; a click on a step is saved in the same way.
    The steps of other recipes are not touched, and a recipe nothing was
    saved for starts with no step checked. *)
Theorem checked_steps_survive_a_reload
    (ls : storage) (id : jsstring) (checkedSteps : NumberSet) :
  NoDup checkedSteps ->
  loadSteps (saveSteps ls id checkedSteps) id = Some checkedSteps
  /\ (exists ls',
        firstRender (saveSteps ls id checkedSteps) id = Some (checkedSteps, ls')
        /\ ls' (stepsKey id) = Some (JSON_stringify checkedSteps)
        /\ loadSteps ls' id = Some checkedSteps
        /\ forall key, key <> stepsKey id -> ls' key = ls key)
  /\ (forall stepIndex,
        loadSteps (snd (click ls id checkedSteps stepIndex)) id
        = Some (toggleStep checkedSteps stepIndex))
  /\ (forall other, other <> id ->
        loadSteps (saveSteps ls id checkedSteps) other = loadSteps ls other)
  /\ (ls (stepsKey id) = None -> loadSteps ls id = Some []).
Proof.
  intros N.
  assert (L : forall ls0 s, NoDup s -> loadSteps (saveSteps ls0 id s) id = Some s).
  { intros ls0 s Ns. rewrite load_after_save. now rewrite newSet_fixed. }
  split; [now apply L|]. split; [|split; [|split]].
  - unfold firstRender. rewrite (L ls checkedSteps N).
    eexists. split; [reflexivity|]. split; [|split].
    + unfold saveSteps, setItem. now rewrite eqb_refl.
    + now apply L.
    + intros key K. unfold saveSteps, setItem. now rewrite !eqb_neq by exact K.
  - intros stepIndex. unfold click. cbn [snd]. apply L.
    unfold toggleStep. destruct (newSet_spec checkedSteps) as [Ns _].
    destruct (has (newSet checkedSteps) stepIndex).
    + unfold delete. now apply NoDup_filter.
    + now apply add_NoDup.
  - intros other O. unfold loadSteps, saveSteps, setItem.
    rewrite eqb_neq; [reflexivity|]. intros E. apply stepsKey_inj in E. contradiction.
  - intros E. unfold loadSteps. now rewrite E.
Qed.

Lemma checked_steps_survive_a_reload_witness :
  loadSteps (saveSteps (fun _ => None) (js "52893") [2; 0; 11]%nat) (js "52893")
    = Some [2; 0; 11]%nat
  /\ saveSteps (fun _ => None) (js "52893") [2; 0; 11]%nat (js "recipe-steps-52893")
     = Some (js "[2,0,11]").
Proof.
  split.
  - apply (checked_steps_survive_a_reload (fun _ => None) (js "52893") [2; 0; 11]%nat).
    repeat constructor; simpl; intuition lia.
  - vm_compute. reflexivity.
Defined.

End DisplayFacts.

(* ================================================================= *)
(** * Properties of the handlers of App *)

Module AppFacts.

Import App.
Import JSFacts ServiceClaims.

Section Handlers.

Variable w : world.
Variable platform_message : exn -> jsstring.

Local Abbreviation fetchRandomRecipe := (App.fetchRandomRecipe w platform_message).
Local Abbreviation fetchSpecificRecipe := (App.fetchSpecificRecipe w platform_message).
Local Abbreviation message := (App.message platform_message).

Lemma get_after_set q name value : forall other,
  searchParams_get (searchParams_set q name value) other
  = if JS.eqb other name then Some value else searchParams_get q other.
Proof.
  induction q as [|[n v] q IH]; intros other; cbn [searchParams_set searchParams_get].
  - destruct (JS.eqb name other) eqn:E.
    + apply JSFacts.eqb_eq in E. subst. now rewrite DisplayFacts.eqb_refl.
    + destruct (JS.eqb other name) eqn:E'; [|reflexivity].
      apply JSFacts.eqb_eq in E'. subst. now rewrite DisplayFacts.eqb_refl in E.
  - destruct (JS.eqb n name) eqn:E; cbn [searchParams_get].
    + apply JSFacts.eqb_eq in E. subst n.
      destruct (JS.eqb name other) eqn:E1.
      * apply JSFacts.eqb_eq in E1. subst. now rewrite DisplayFacts.eqb_refl.
      * assert (E2 : JS.eqb other name = false).
        { destruct (JS.eqb other name) eqn:E2; [|reflexivity].
          apply JSFacts.eqb_eq in E2. subst. now rewrite DisplayFacts.eqb_refl in E1. }
        rewrite E2. clear IH.
        induction q as [|[n' v'] q IHq]; [reflexivity|].
        cbn [filter fst searchParams_get].
        destruct (JS.eqb n' name) eqn:E3; cbn [negb searchParams_get].
        -- apply JSFacts.eqb_eq in E3. subst n'. now rewrite E1.
        -- destruct (JS.eqb n' other); [reflexivity|exact IHq].
    + destruct (JS.eqb n other) eqn:E1.
      * apply JSFacts.eqb_eq in E1. subst n.
        now rewrite E.
      * apply IH.
Qed.

Lemma scalar_well_formed n : forall s,
  (length s <= n)%nat -> well_formed s = true -> scalar s = s.
Proof.
  induction n as [|n IH]; intros s L W.
  - destruct s; [reflexivity|simpl in L; lia].
  - destruct s as [|c t]; [reflexivity|]. cbn [scalar well_formed] in *.
    destruct (is_high c).
    + destruct t as [|d t']; [discriminate|].
      apply andb_true_iff in W as [Wd W]. rewrite Wd.
      rewrite (IH t') by (simpl in L; (lia || exact W)). reflexivity.
    + apply andb_true_iff in W as [Wc W]. apply negb_true_iff in Wc. rewrite Wc.
      rewrite (IH t) by (simpl in L; (lia || exact W)). reflexivity.
Qed.

(** X20: [fetchRandomRecipe] shows the spinner while it waits and ends,
    with [loading] false, on the recipe it got, then also the value of the
    parameter "recipe" of the URL it has pushed, the other parameters being
    as they were, or on the message of what was thrown, the recipe shown
    before and the URL left as they were. *)
Theorem fetchRandomRecipe_ends_on_a_recipe_or_an_error (s : app) :
  let s' := snd (run fetchRandomRecipe s) in
  fst (run fetchRandomRecipe s) = [Spinner]
  /\ loading (view s') = false
  /\ match getRandomDessertRecipe w (net s) with
     | (Ok r, n) =>
         view s' = {| recipe := Some r; loading := false; error := None |}
         /\ render (view s') = ShowRecipe r
         /\ searchParams_get (location s') (js "recipe") = Some (scalar (Recipe.id r))
         /\ (forall name, name <> js "recipe" ->
               searchParams_get (location s') name = searchParams_get (location s) name)
         /\ pushes s' = S (pushes s)
         /\ net s' = n
     | (Throw err, n) =>
         view s' = {| recipe := recipe (view s); loading := false;
                      error := Some (message err) |}
         /\ (message err <> [] -> render (view s') = ErrorScreen (message err))
         /\ location s' = location s
         /\ pushes s' = pushes s
         /\ net s' = n
     end.
Proof.
  intros s'. unfold s'. clear s'.
  cbn [run App.fetchRandomRecipe acts fold_left act view net location pushes loading].
  destruct (getRandomDessertRecipe w (net s)) as [[r|err] n];
    cbn [run List.app acts fold_left act view net location pushes loading recipe error fst snd render].
  - split; [reflexivity|]. split; [reflexivity|]. split; [reflexivity|].
    split; [reflexivity|]. split; [|split; [|split; reflexivity]].
    + rewrite get_after_set. now rewrite DisplayFacts.eqb_refl.
    + intros name N. rewrite get_after_set.
      destruct (JS.eqb name (js "recipe")) eqn:E; [|reflexivity].
      apply JSFacts.eqb_eq in E. contradiction.
  - split; [reflexivity|]. split; [reflexivity|]. split; [reflexivity|].
    split; [|repeat split].
    intros N. destruct (App.message platform_message err); [congruence|reflexivity].
Qed.

(** X21: [fetchSpecificRecipe] ends on the recipe asked for, the URL left
    as it is, when the lookup succeeds.  When the lookup fails it goes on
    as [fetchRandomRecipe] and ends as that does; the message of the failed
    lookup is never on the screen, and while the random recipe is being
    fetched the screen is not the spinner but the recipe shown before or,
    without one, "No recipe found": [loading] has been set to false by the
    [finally] of the lookup. *)
Theorem failed_lookup_falls_back_to_a_random_recipe (recipeId : jsstring) (s : app) :
  match fetchRecipeDetails w recipeId (net s) with
  | (Ok r, n) =>
      run (fetchSpecificRecipe recipeId) s
      = ([Spinner],
         {| view := {| recipe := Some r; loading := false; error := None |};
            location := location s; pushes := pushes s; net := n |})
  | (Throw err, n) =>
      let waiting := {| recipe := recipe (view s); loading := false; error := None |} in
      let s1 := {| view := waiting; location := location s; pushes := pushes s; net := n |} in
      run (fetchSpecificRecipe recipeId) s
      = ([Spinner; render waiting], snd (run fetchRandomRecipe s1))
      /\ render waiting = match recipe (view s) with
                          | Some shown => ShowRecipe shown
                          | None => NoRecipe
                          end
  end.
Proof.
  cbn [run App.fetchSpecificRecipe acts fold_left act view net location pushes loading].
  destruct (fetchRecipeDetails w recipeId (net s)) as [[r|err] n].
  - reflexivity.
  - cbn [App.fetchRandomRecipe detached run List.app acts fold_left act view net location pushes
         loading recipe error fst snd render].
    destruct (getRandomDessertRecipe w n) as [[r|err'] n'];
      cbn [run List.app acts fold_left act view net location pushes loading recipe error
           fst snd render];
      (split; [reflexivity|]); destruct (recipe (view s)); reflexivity.
Qed.

(** X22: the URL pushed with a random recipe leads back to it: opened
    again, its parameter "recipe" is the id of the recipe, and the first
    render asks for that recipe by [fetchSpecificRecipe]; without the
    parameter, or with an empty one, it asks for a random recipe. *)
Theorem pushed_link_reopens_the_recipe (s : app) (r : Recipe.t) (n : state) :
  getRandomDessertRecipe w (net s) = (Ok r, n) ->
  Recipe.id r <> [] -> well_formed (Recipe.id r) = true ->
  let s' := snd (run fetchRandomRecipe s) in
  searchParams_get (location s') (js "recipe") = Some (Recipe.id r)
  /\ start w platform_message (location s') = fetchSpecificRecipe (Recipe.id r)
  /\ (forall q, searchParams_get q (js "recipe") = None \/
                searchParams_get q (js "recipe") = Some [] ->
                start w platform_message q = fetchRandomRecipe).
Proof.
  intros G N W s'.
  assert (E : searchParams_get (location s') (js "recipe") = Some (Recipe.id r)).
  { unfold s'.
    cbn [run App.fetchRandomRecipe acts fold_left act view net location pushes loading].
    rewrite G.
    cbn [run List.app acts fold_left act view net location pushes loading recipe error fst snd].
    rewrite get_after_set, DisplayFacts.eqb_refl.
    now rewrite (scalar_well_formed _ _ (le_n _) W). }
  split; [exact E|]. split.
  - unfold start. rewrite E. destruct (Recipe.id r); [congruence|reflexivity].
  - intros q [Q|Q]; unfold start; now rewrite Q.
Qed.

End Handlers.

(** *** A sample page *)

(** The page opened without a query. *)
Definition landing : app :=
  {| view := initial; location := []; pushes := 0; net := fresh |}.

Definition silent (err : exn) : jsstring := js "Failed to fetch".

(** The catalogue lists the crumble alone. *)
Definition corner_shop : world :=
  {| dessert_api := fun _ =>
       answered (js "OK")
         {| MealResponse.meals :=
              Some [ {| Meal.idMeal := js "52893";
                        Meal.strMeal := js "Apple & Blackberry Crumble";
                        Meal.strMealThumb := [] |} ] |};
     meal_api := meal_api bakery;
     commons_search := fun _ _ => None;
     commons_imageinfo := fun _ _ => None;
     random := fun _ => half |}.

Lemma fetchRandomRecipe_ends_on_a_recipe_or_an_error_witness :
  render (view (snd (run (fetchRandomRecipe bakery silent) landing)))
  = ErrorScreen (js "Recipe not found").
Proof.
  pose proof (fetchRandomRecipe_ends_on_a_recipe_or_an_error bakery silent landing)
    as (_ & _ & H).
  assert (G : getRandomDessertRecipe bakery (net landing)
              = (Throw recipeNotFound, {| log := [GetMeal (js "52768"); GetDesserts];
                                          draws := 1 |}))
    by (vm_compute; reflexivity).
  rewrite G in H. destruct H as (_ & R & _).
  apply R. discriminate.
Defined.

Lemma pushed_link_reopens_the_recipe_witness :
  start corner_shop silent
        (location (snd (run (fetchRandomRecipe corner_shop silent) landing)))
  = fetchSpecificRecipe corner_shop silent (js "52893").
Proof.
  destruct (getRandomDessertRecipe corner_shop (net landing)) as [[r|e] n] eqn:G.
  2: { vm_compute in G. discriminate. }
  assert (I : Recipe.id r = js "52893").
  { vm_compute in G. injection G as <- _. reflexivity. }
  destruct (pushed_link_reopens_the_recipe corner_shop silent landing r n G) as (_ & S & _).
  - rewrite I. discriminate.
  - rewrite I. reflexivity.
  - rewrite I in S. exact S.
Defined.

End AppFacts.
